(** * gtfs-graph: the graph engine of [lib/graph]

    A shallow embedding of the traversal, shortest-path, rank-propagation
    and node-merge algorithms of the transit graph engine, together with
    the properties its specification states about them.

    Conventions of the embedding.
    - JavaScript arrays are lists.  A read [a[i]] is [nth i a hole]; a
      write [a[i] = v] is [array_set], which extends the array the way
      JavaScript does; [a.splice(i, 1)] is [splice1].
    - A cell of the adjacency structure is a JavaScript value: the number
      [0] (no edge), [null] (a hole left by the merge surgery),
      [undefined] (an out-of-range read) or an edge object.
    - Edge weights are integers; ranks are exact rationals.  The
      properties proved about ranks concern which array cells are read and
      which divisors are used, not rounding.
    - A [for (i = lo; i < hi; i++)] loop is [for_range lo hi body]. *)

From Stdlib Require Import List ZArith QArith Qround Lia Bool Arith PeanoNat.
From Stdlib Require Import Permutation.
Import ListNotations.

Local Open Scope nat_scope.

(* ------------------------------------------------------------------ *)
(** ** JavaScript arrays *)

Section JsArray.
Context {A : Type}.

(** [a[i] = v]: replaces in range; at or past the end the array grows,
      the skipped positions becoming [hole]. *)
Fixpoint array_set (hole : A) (a : list A) (i : nat) (v : A) : list A :=
    match a, i with
    | [], O => [v]
    | [], S i' => hole :: array_set hole [] i' v
    | _ :: a', O => v :: a'
    | x :: a', S i' => x :: array_set hole a' i' v
    end.

(** [a.splice(i, 1)]: removes the element at [i] when there is one. *)
Fixpoint splice1 (a : list A) (i : nat) : list A :=
    match a, i with
    | [], _ => []
    | _ :: a', O => a'
    | x :: a', S i' => x :: splice1 a' i'
    end.

(** [a.push(v)] *)
Definition push (a : list A) (v : A) : list A := a ++ [v].

(** [for (i = lo; i < hi; i++) s = body(s, i)] *)
Definition for_range {S : Type} (lo hi : nat) (body : S -> nat -> S) (s : S) : S :=
    fold_left body (seq lo (hi - lo)) s.
End JsArray.

(* ------------------------------------------------------------------ *)
(** ** Results of partial computations *)

(** A JavaScript run returns, throws a [TypeError] (property access on
    [null] or [undefined]) or, in the embedding of an unbounded loop or
    recursion, runs out of fuel. *)
Inductive result (A : Type) : Type :=
| Ok (a : A)
| TypeError
| OutOfFuel.
Arguments Ok {A} a.
Arguments TypeError {A}.
Arguments OutOfFuel {A}.

Definition bind {A B : Type} (m : result A) (k : A -> result B) : result B :=
  match m with
  | Ok a => k a
  | TypeError => TypeError
  | OutOfFuel => OutOfFuel
  end.

Notation "x <- m ;; k" := (bind m (fun x => k))
  (at level 61, m at next level, right associativity).
Notation "' pat <- m ;; k" := (bind m (fun x => match x with pat => k end))
  (at level 61, pat pattern, m at next level, right associativity).

(** A loop whose body may fail. *)
Definition for_rangeM {S : Type} (lo hi : nat) (body : S -> nat -> result S)
    (s : S) : result S :=
  fold_left (fun acc i => s' <- acc ;; body s' i) (seq lo (hi - lo)) (Ok s).

(* ------------------------------------------------------------------ *)
(** ** Edges and cells *)

Inductive EdgeType : Type := route | transfer.

Definition EdgeType_eqb (a b : EdgeType) : bool :=
  match a, b with
  | route, route | transfer, transfer => true
  | _, _ => false
  end.

(** Modelled from the spec: [edge.js] is not among the sources.  An edge
    is a directed relation between two node indices, carrying a type and
    a numeric weight. *)
Record Edge : Type := mkEdge {
  type : EdgeType;
  origin : nat;
  destination : nat;
  weight : Z
}.

(** The values found in a cell of the adjacency structure. *)
Inductive cell : Type :=
| Zero                              (* the number 0: no edge *)
| Null                              (* null: a hole left by the surgery *)
| Undefined                         (* the result of an out-of-range read *)
| Obj (t : EdgeType) (w : Z).       (* an object with [type] and [weight] *)

Definition cell_eqb (a b : cell) : bool :=
  match a, b with
  | Zero, Zero | Null, Null | Undefined, Undefined => true
  | Obj t w, Obj t' w' => EdgeType_eqb t t' && Z.eqb w w'
  | _, _ => false
  end.

Definition is_null (c : cell) : bool :=
  match c with Null => true | _ => false end.

(** [row[i]] *)
Definition cell_at (row : list cell) (i : nat) : cell := nth i row Undefined.

(** [m[i][j]]; [m[i]] may itself be [undefined], and the read then throws. *)
Definition row_at (m : list (list cell)) (i : nat) : result (list cell) :=
  match nth_error m i with
  | Some r => Ok r
  | None => TypeError
  end.

(* ------------------------------------------------------------------ *)
(** ** The graph *)

Section Graph.
(** The Stop entity and its merge policy are external. *)
Context {Stop : Type}.

(** Modelled from the spec: [graph.js] is not among the sources.  The
    fields are those the algorithms read: [numNodes], the rows [G] and
    [stops]. *)
Record TransitGraph : Type := mkGraph {
    numNodes : nat;
    G : list (list cell);
    stops : list Stop
  }.

(** Modelled from the spec: [graph.js] is not among the sources.  The
      relation is stored once per unordered pair, in the row of the larger
      index at the column of the smaller one. *)
Definition relation (g : TransitGraph) (u v : nat) : cell :=
    if v <? u then cell_at (nth u (G g) []) v
    else if u <? v then cell_at (nth v (G g) []) u
    else Zero.

(** Modelled from the spec: [length()], the node count. *)
Definition graph_length (g : TransitGraph) : nat := length (G g).

(** Modelled from the spec: [edgeExists(u, v)], a symmetric boolean
      query. *)
Definition edgeExists (g : TransitGraph) (u v : nat) : bool :=
    match relation g u v with
    | Obj _ _ => true
    | _ => false
    end.

(** Modelled from the spec: [getWeight(u, v)].  The callers ask only
      where [edgeExists] holds; elsewhere the model answers 0. *)
Definition getWeight (g : TransitGraph) (u v : nat) : Z :=
    match relation g u v with
    | Obj _ w => w
    | _ => 0%Z
    end.

(** Modelled from the spec: [createEdge(u, v)] materializes an edge
      from the stored relation, type and weight taken from storage. *)
Definition createEdge (g : TransitGraph) (u v : nat) : option Edge :=
    match relation g u v with
    | Obj t w => Some (mkEdge t u v w)
    | _ => None
    end.

(** Modelled from the spec: [getTransferEdges()], every stored edge
      whose type is transfer, each pair once. *)
Definition getTransferEdges (g : TransitGraph) : list Edge :=
    flat_map (fun i =>
      flat_map (fun j =>
        match cell_at (nth i (G g) []) j with
        | Obj transfer w => [mkEdge transfer i j w]
        | _ => []
        end) (seq 0 i)) (seq 0 (length (G g))).

(** Modelled from the spec: the constructor.  A triangle of zeros with
      one row per node, row [i] holding [i] cells, then one cell written
      per edge of the list. *)
Definition zeroTriangle (n : nat) : list (list cell) :=
    map (fun i => repeat Zero i) (seq 0 n).

(** Modelled from the spec: the cell an edge of the list is written to,
    whichever of its two ends is the origin. *)
Definition storeEdge (m : list (list cell)) (e : Edge) : list (list cell) :=
    let hi := Nat.max (origin e) (destination e) in
    let lo := Nat.min (origin e) (destination e) in
    if lo <? hi
    then array_set [] m hi (array_set Undefined (nth hi m []) lo (Obj (type e) (weight e)))
    else m.

(** Modelled from the spec: [new TransitGraph(edgeList, numNodes,
    stops)]. *)
Definition newTransitGraph (edgeList : list Edge) (n : nat) (ss : list Stop)
    : TransitGraph :=
    mkGraph n (fold_left storeEdge edgeList (zeroTriangle n)) ss.

End Graph.

(* ------------------------------------------------------------------ *)
(** ** The traverser *)

(** The numbers distances range over: an integer or [Infinity]. *)
Inductive num : Type :=
| Fin (z : Z)
| Infinity.

(** The open record handed to [summary]. *)
Inductive Stats : Type :=
| stationsVisited (n : nat)
| statsRanks (rs : list Q)
| pathLength (d : num).

(** What a traverser is told, in the order it is told. *)
Inductive Event : Type :=
| EvVisitNode (n : nat)
| EvVisit (e : option Edge)
| EvLeave (e : option Edge)
| EvRecordRanks (rs : list Q)
| EvSummary (s : Stats).

(** Modelled from the spec: [graphTraverser.js] is not among the sources.
    A [BasicTraverser] accumulates [visitedNodes]; the model also keeps
    the sequence of the calls it received. *)
Record Traverser : Type := mkTraverser {
  visitedNodes : list nat;
  events : list Event
}.

(** Modelled from the spec: [new BasicTraverser()]. *)
Definition BasicTraverser : Traverser := mkTraverser [] [].

(** Modelled from the spec: the five calls of the observer contract;
    [visitNode] alone adds to [visitedNodes]. *)
Definition visitNode (n : nat) (t : Traverser) : Traverser :=
  mkTraverser (push (visitedNodes t) n) (push (events t) (EvVisitNode n)).
Definition visit (e : option Edge) (t : Traverser) : Traverser :=
  mkTraverser (visitedNodes t) (push (events t) (EvVisit e)).
Definition leave (e : option Edge) (t : Traverser) : Traverser :=
  mkTraverser (visitedNodes t) (push (events t) (EvLeave e)).
Definition recordRanks (rs : list Q) (t : Traverser) : Traverser :=
  mkTraverser (visitedNodes t) (push (events t) (EvRecordRanks rs)).
Definition summary (s : Stats) (t : Traverser) : Traverser :=
  mkTraverser (visitedNodes t) (push (events t) (EvSummary s)).

(* ------------------------------------------------------------------ *)
(** ** Page Rank *)

Section PageRank.
Context {Stop : Type}.
Variable graph : TransitGraph (Stop := Stop).

Definition damping : Q := 1.
Definition initialRank : Q := 1.
Definition iterations : nat := 10.

(** [countOutgoingEdges]: one count pushed per node. *)
Definition countOutgoingEdges : list nat :=
    for_range 0 (graph_length graph) (fun outgoingEdgeCounts i =>
      let edgeCount :=
        for_range 0 (graph_length graph) (fun edgeCount j =>
          if edgeExists graph i j then edgeCount + 1 else edgeCount) 0 in
      push outgoingEdgeCounts edgeCount) [].

(** [countIncomingEdges]: [incomingNodes[j].push(i)] for every edge. *)
Definition countIncomingEdges : list (list nat) :=
    for_range 0 (graph_length graph) (fun incomingNodes i =>
      for_range 0 (graph_length graph) (fun incomingNodes j =>
        if edgeExists graph i j
        then array_set [] incomingNodes j (push (nth j incomingNodes []) i)
        else incomingNodes) incomingNodes) (repeat [] (graph_length graph)).

Definition outgoingEdgeCounts : list nat := countOutgoingEdges.
Definition incomingNodes : list (list nat) := countIncomingEdges.

(** The quotients [ranks[incoming] / outgoingEdgeCounts[incoming]] that
      [updateRank(nodeIndex)] evaluates, as (dividend, divisor) pairs. *)
Definition divisions (ranks : list Q) (nodeIndex : nat) : list (Q * nat) :=
    map (fun incoming => (nth incoming ranks 0%Q, nth incoming outgoingEdgeCounts 0))
        (nth nodeIndex incomingNodes []).

Definition updateRank (ranks : list Q) (nodeIndex : nat) : Q :=
    let inNodeSummation :=
      fold_left (fun inNodeSummation d =>
                   inNodeSummation + fst d / inject_Z (Z.of_nat (snd d)))%Q
                (divisions ranks nodeIndex) 0%Q in
    ((1 - damping) / inject_Z (Z.of_nat (graph_length graph)) + damping * inNodeSummation)%Q.

(** One pass of the inner [for]: [ranks[node] = updateRank(node)], the
      array being the one [updateRank] reads. *)
Definition sweep (ranks : list Q) : list Q :=
    for_range 0 (graph_length graph) (fun ranks node =>
      array_set 0%Q ranks node (updateRank ranks node)) ranks.

(** [while (iterations--)] *)
Definition propagate (ranks : list Q) : list Q :=
    Nat.iter iterations sweep ranks.

Definition pageRank (traverser : Traverser) : Traverser :=
    let ranks := propagate (repeat initialRank (graph_length graph)) in
    summary (statsRanks ranks) (recordRanks ranks traverser).

(** The update the specification describes: every read of a sweep taken
      from the ranks of the previous sweep. *)
Definition sweep_synchronous (ranks : list Q) : list Q :=
    map (fun node => updateRank ranks node) (seq 0 (graph_length graph)).

End PageRank.

(* ------------------------------------------------------------------ *)
(** ** Depth-first and breadth-first search *)

(** JavaScript truthiness of the [parent] argument: [undefined] (no
    argument passed) and the number [0] are both falsy. *)
Definition truthy (parent : option nat) : bool :=
  match parent with
  | Some (S _) => true
  | _ => false
  end.

Definition valueOf (parent : option nat) : nat :=
  match parent with
  | Some p => p
  | None => 0
  end.

Section Search.
Context {Stop : Type}.
Variable graph : TransitGraph (Stop := Stop).

(** The state the searches thread: the visited flags [D] and the
    traverser.  A hole of [D] reads as falsy. *)
Definition dfsState : Type := (list bool * Traverser)%type.

Fixpoint dfsExplore (fuel : nat) (st : dfsState) (node : nat) (parent : option nat)
  : result dfsState :=
  match fuel with
  | O => OutOfFuel
  | S fuel' =>
    let D := array_set false (fst st) node true in
    let traverser := snd st in
    let traverser :=
      if truthy parent
      then visit (createEdge graph (valueOf parent) node) traverser
      else traverser in
    let traverser := visitNode node traverser in
    st' <- for_rangeM 0 (numNodes graph) (fun st i =>
             if edgeExists graph node i && negb (nth i (fst st) false)
             then dfsExplore fuel' st i (Some node)
             else Ok st) (D, traverser) ;;
    Ok (fst st',
        if truthy parent
        then leave (createEdge graph node (valueOf parent)) (snd st')
        else snd st')
  end.

Definition dfs (fuel : nat) (node : nat) (traverser : Traverser) : result Traverser :=
  let D := repeat false (numNodes graph) in
  st <- dfsExplore fuel (D, traverser) node None ;;
  Ok (summary (stationsVisited (length (visitedNodes (snd st)))) (snd st)).

(** The state of the breadth-first loop: the queue [Q], the flags [D]
    and the traverser. *)
Definition bfsState : Type := (list nat * list bool * Traverser)%type.

(** The [for] loop run on a dequeued [node]. *)
Definition bfsScan (node : nat) (st : bfsState) : bfsState :=
  for_range 0 (length (G graph)) (fun st i =>
    let '(Q, D, traverser) := st in
    if edgeExists graph node i && negb (nth i D false)
    then (push Q i,
          array_set false D i true,
          visitNode node (visit (createEdge graph node i) traverser))
    else st) st.

(** [async.whilst]: one dequeued node per tick, until the queue is empty;
    then the completion function reports the summary. *)
Fixpoint bfsLoop (fuel : nat) (st : bfsState) : result Traverser :=
  match fuel with
  | O => OutOfFuel
  | S fuel' =>
    let '(Q, D, traverser) := st in
    match Q with
    | [] => Ok (summary (stationsVisited (length (visitedNodes traverser))) traverser)
    | node :: Q' => bfsLoop fuel' (bfsScan node (Q', D, traverser))
    end
  end.

Definition bfs (fuel : nat) (startingNode : nat) (traverser : Traverser)
  : result Traverser :=
  let Q := push [] startingNode in
  let D := array_set false (repeat false (numNodes graph)) startingNode true in
  bfsLoop fuel (Q, D, visitNode startingNode traverser).

End Search.

(* ------------------------------------------------------------------ *)
(** ** Dijkstra *)

Definition num_ltb (a b : num) : bool :=
  match a, b with
  | Fin x, Fin y => Z.ltb x y
  | Fin _, Infinity => true
  | Infinity, _ => false
  end.

Definition num_add (a : num) (w : Z) : num :=
  match a with
  | Fin x => Fin (x + w)
  | Infinity => Infinity
  end.

Definition is_MAX (a : num) : bool :=
  match a with Infinity => true | Fin _ => false end.

(** What [dijkstra] hands to the logger. *)
Inductive LogLine : Type :=
| NoPathBetween (start finish : nat)
| PathLengthBetween (start finish : nat) (d : num).

Section Dijkstra.
Context {Stop : Type}.
Variable graph : TransitGraph (Stop := Stop).

(** The arrays of [dijkstra]: distances [S] (here [S_]), done flags [D],
    predecessors [P], and the variable [minIndex], which lives across
    the iterations of the outer loop. *)
Record dijkstraState : Type := mkDijkstra {
  dS : list num;
  dD : list bool;
  dP : list nat;
  minIndex : nat
}.

(** The selection loop: the first undone node of least distance. *)
Definition selectMin (S_ : list num) (D : list bool) (minIndex : nat) : num * nat :=
  for_range 0 (graph_length graph) (fun acc i =>
    if num_ltb (nth i S_ Infinity) (fst acc) && negb (nth i D false)
    then (nth i S_ Infinity, i)
    else acc) (Infinity, minIndex).

(** The relaxation loop of the node [minIndex]. *)
Definition relax (minIndex : nat) (SP : list num * list nat) : list num * list nat :=
  for_range 0 (graph_length graph) (fun SP i =>
    let '(S_, P) := SP in
    let candidate := num_add (nth minIndex S_ Infinity) (getWeight graph minIndex i) in
    if edgeExists graph minIndex i && num_ltb candidate (nth i S_ Infinity)
    then (array_set Infinity S_ i candidate, array_set 0 P i minIndex)
    else SP) SP.

(** [while (iterations--)], with its [break]. *)
Fixpoint dijkstraLoop (iterations : nat) (st : dijkstraState) : dijkstraState :=
  match iterations with
  | O => st
  | S iterations' =>
    let '(minDistance, minIndex) := selectMin (dS st) (dD st) (minIndex st) in
    if is_MAX minDistance then st
    else
      let D := array_set false (dD st) minIndex true in
      let '(S_, P) := relax minIndex (dS st, dP st) in
      dijkstraLoop iterations' (mkDijkstra S_ D P minIndex)
  end.

Definition dijkstraInit (start : nat) : dijkstraState :=
  let S_ := repeat Infinity (graph_length graph) in
  let D := repeat false (graph_length graph) in
  let P := repeat 0 (graph_length graph) in
  mkDijkstra (array_set Infinity S_ start (Fin 0)) D P 0.

(** The backward walk [while (P[i] !== 0)].  Outside the array [P[i]] is
    [undefined], which is not [0]; [createEdge(undefined, i)] is then
    taken to throw. *)
Fixpoint walkBack (fuel : nat) (P : list nat) (i : nat) (path : list (option Edge))
  : result (list (option Edge)) :=
  match fuel with
  | O => OutOfFuel
  | S fuel' =>
    match nth_error P i with
    | None => TypeError
    | Some O => Ok path
    | Some p => walkBack fuel' P p (push path (createEdge graph p i))
    end
  end.

Definition dijkstra (fuel : nat) (start finish : nat) (traverser : Traverser)
  : result (LogLine * Traverser) :=
  let st := dijkstraLoop (graph_length graph) (dijkstraInit start) in
  let S_ := dS st in
  let logged :=
    if is_MAX (nth finish S_ Infinity)
    then NoPathBetween start finish
    else PathLengthBetween start finish (nth finish S_ Infinity) in
  path <- walkBack fuel (dP st) finish [] ;;
  let traverser := fold_left (fun t edge => visit edge t) (rev path) traverser in
  Ok (logged, summary (pathLength (nth finish S_ Infinity)) traverser).

End Dijkstra.

(* ------------------------------------------------------------------ *)
(** ** Merging transfer nodes *)

(** [c.type]: [undefined] on the number [0], the type of an object, a
    [TypeError] on [null] and [undefined]. *)
Definition typeOf (c : cell) : result (option EdgeType) :=
  match c with
  | Zero => Ok None
  | Obj t _ => Ok (Some t)
  | Null | Undefined => TypeError
  end.

Definition weightOf (c : cell) : result (option Z) :=
  match c with
  | Zero => Ok None
  | Obj _ w => Ok (Some w)
  | Null | Undefined => TypeError
  end.

Definition is_transfer (t : option EdgeType) : bool :=
  match t with
  | Some transfer => true
  | _ => false
  end.

Definition mergeEdges (edgeA edgeB : cell) : result cell :=
  match edgeA, edgeB with
  | Zero, Zero => Ok Zero
  | _, _ =>
    ta <- typeOf edgeA ;;
    if is_transfer ta then Ok (Obj transfer (-1))
    else
      tb <- typeOf edgeB ;;
      if is_transfer tb then Ok (Obj transfer (-1))
      else Ok (Obj route (-1))
  end.

(** [newGraph[r][i]] *)
Definition readCell (newGraph : list (list cell)) (r i : nat) : result cell :=
  row <- row_at newGraph r ;;
  Ok (cell_at row i).

(** [newGraph[r][i] = v] *)
Definition writeCell (newGraph : list (list cell)) (r i : nat) (v : cell)
  : result (list (list cell)) :=
  row <- row_at newGraph r ;;
  Ok (array_set [] newGraph r (array_set Undefined row i v)).

Definition horizontalOverlap (loIndex hiIndex unionIndex : nat)
    (newGraph : list (list cell)) : result (list (list cell)) :=
  for_rangeM 0 loIndex (fun newGraph i =>
    a <- readCell newGraph loIndex i ;;
    b <- readCell newGraph hiIndex i ;;
    u <- mergeEdges a b ;;
    newGraph <- writeCell newGraph unionIndex i u ;;
    writeCell newGraph loIndex i Null) newGraph.

Definition horizontalHiOvershoot (loIndex hiIndex unionIndex : nat)
    (newGraph : list (list cell)) : result (list (list cell)) :=
  newGraph <- for_rangeM (loIndex + 1) hiIndex (fun newGraph i =>
    b <- readCell newGraph hiIndex i ;;
    u <- mergeEdges b Zero ;;
    writeCell newGraph unionIndex i u) newGraph ;;
  for_rangeM 0 hiIndex (fun newGraph i =>
    writeCell newGraph hiIndex i Null) newGraph.

Definition verticalOverlap (loIndex hiIndex unionIndex : nat)
    (newGraph : list (list cell)) : result (list (list cell)) :=
  for_rangeM (hiIndex + 1) unionIndex (fun newGraph i =>
    a <- readCell newGraph i loIndex ;;
    b <- readCell newGraph i hiIndex ;;
    u <- mergeEdges a b ;;
    newGraph <- writeCell newGraph unionIndex i u ;;
    newGraph <- writeCell newGraph i loIndex Null ;;
    writeCell newGraph i hiIndex Null) newGraph.

Definition verticalLoOvershoot (loIndex hiIndex unionIndex : nat)
    (newGraph : list (list cell)) : result (list (list cell)) :=
  for_rangeM (loIndex + 1) hiIndex (fun newGraph i =>
    overlap <- readCell newGraph i loIndex ;;
    old <- readCell newGraph unionIndex i ;;
    u <- mergeEdges overlap old ;;
    newGraph <- writeCell newGraph unionIndex i u ;;
    writeCell newGraph i loIndex Null) newGraph.

(** [while (row.indexOf(null) !== -1) row.splice(row.indexOf(null), 1)] *)
Definition removeNulls (row : list cell) : list cell :=
  filter (fun c => negb (is_null c)) row.

(** The same loop, step by step.  [row.indexOf(null)] is the first
    position holding [null], found by strict equality; [None] is the -1
    of JavaScript. *)
Fixpoint indexOfNull (row : list cell) : option nat :=
  match row with
  | [] => None
  | c :: row' => if is_null c then Some 0 else option_map S (indexOfNull row')
  end.

Fixpoint removeNullsWhile (fuel : nat) (row : list cell) : result (list cell) :=
  match fuel with
  | O => OutOfFuel
  | S fuel' =>
    match indexOfNull row with
    | None => Ok row
    | Some i => removeNullsWhile fuel' (splice1 row i)
    end
  end.

Section Merge.
Context {Stop : Type}.
(** [Stop.mergeWith], external and pure. *)
Variable mergeWith : Stop -> Stop -> Stop.

(** The two local working copies the surgery acts on. *)
Definition mergeState : Type := (list (list cell) * list Stop)%type.

Definition merge (loIndex hiIndex : nat) (st : mergeState) : result mergeState :=
  let '(newGraph, newStops) := st in
  match nth_error newStops loIndex, nth_error newStops hiIndex with
  | Some stopLo, Some stopHi =>
    let newStop := mergeWith stopLo stopHi in
    let newStops := push newStops newStop in
    let newStops := splice1 newStops loIndex in
    let newStops := splice1 newStops (hiIndex - 1) in
    let newRow := repeat Zero (length newGraph - 1) in
    let newGraph := push newGraph newRow in
    let unionIndex := length newGraph - 1 in
    newGraph <- horizontalOverlap loIndex hiIndex unionIndex newGraph ;;
    newGraph <- horizontalHiOvershoot loIndex hiIndex unionIndex newGraph ;;
    newGraph <- verticalOverlap loIndex hiIndex unionIndex newGraph ;;
    newGraph <- verticalLoOvershoot loIndex hiIndex unionIndex newGraph ;;
    unionRow <- row_at newGraph unionIndex ;;
    let unionRow := splice1 (splice1 unionRow loIndex) (hiIndex - 1) in
    let newGraph := array_set [] newGraph unionIndex unionRow in
    let newGraph := splice1 newGraph loIndex in
    let newGraph := splice1 newGraph (hiIndex - 1) in
    let newGraph :=
      for_range 0 (length newGraph - 1) (fun newGraph i =>
        array_set [] newGraph i (removeNulls (nth i newGraph []))) newGraph in
    Ok (newGraph, newStops)
  | _, _ => TypeError
  end.

Definition mergeTop (indexA indexB : nat) (st : mergeState) : result mergeState :=
  if indexA <? indexB then merge indexA indexB st else merge indexB indexA st.

(** Step 2 of the loop: one depth-first search from every node not seen
    yet; the groupings are the [visitedNodes] of the traversers. *)
Definition nodeGroupingsOf (fuel : nat) (transferGraph : TransitGraph (Stop := Stop))
  : result (list (list nat)) :=
  r <- for_rangeM 0 (length (G transferGraph)) (fun acc node =>
         let '(seenNodes, nodeGroupings) := acc in
         if existsb (Nat.eqb node) seenNodes then Ok acc
         else
           traverser <- dfs transferGraph fuel node BasicTraverser ;;
           Ok (seenNodes ++ visitedNodes traverser,
               push nodeGroupings (visitedNodes traverser)))
       ([], []) ;;
  Ok (snd r).

(** The edge list rebuilt from the cells below the diagonal. *)
Definition newEdgeListOf (newGraph : list (list cell)) : result (list Edge) :=
  for_rangeM 0 (length newGraph) (fun newEdgeList i =>
    for_rangeM 0 i (fun newEdgeList j =>
      let c := cell_at (nth i newGraph []) j in
      match c with
      | Zero => Ok newEdgeList
      | Obj t w => Ok (push newEdgeList (mkEdge t i j w))
      | Null | Undefined => TypeError
      end) newEdgeList) [].

(** One pass of the [while] body: the graph that replaces [graph]. *)
Definition mergeStep (fuel : nat) (graph : TransitGraph (Stop := Stop))
  : result (TransitGraph (Stop := Stop)) :=
  let transferGraph :=
    newTransitGraph (getTransferEdges graph) (numNodes graph) (stops graph) in
  nodeGroupings <- nodeGroupingsOf fuel transferGraph ;;
  let nodesToMerge := filter (fun e => 1 <? length e) nodeGroupings in
  match nodesToMerge with
  | (indexA :: indexB :: _) :: _ =>
    let newGraph := map (fun rowOfNodes => rowOfNodes) (G graph) in
    let newStops := stops graph in
    '(newGraph, newStops) <- mergeTop indexA indexB (newGraph, newStops) ;;
    let newNumNodes := numNodes graph - 1 in
    newEdgeList <- newEdgeListOf newGraph ;;
    Ok (newTransitGraph newEdgeList newNumNodes newStops)
  | _ => TypeError
  end.

Fixpoint mergeLoop (fuel : nat) (graph : TransitGraph (Stop := Stop))
  : result (TransitGraph (Stop := Stop)) :=
  match fuel with
  | O => OutOfFuel
  | S fuel' =>
    if 0 <? length (getTransferEdges graph)
    then graph' <- mergeStep fuel graph ;; mergeLoop fuel' graph'
    else Ok graph
  end.

(** [None] is the [undefined] returned when there is nothing to merge. *)
Definition mergeTransferNodes (fuel : nat) (graph : TransitGraph (Stop := Stop))
  : result (option (TransitGraph (Stop := Stop))) :=
  if length (getTransferEdges graph) =? 0 then Ok None
  else graph' <- mergeLoop fuel graph ;; Ok (Some graph').

End Merge.

(* ------------------------------------------------------------------ *)
(** ** Merging transfer nodes, on a store of shared arrays

    The same code once more, with every array an object of a store and
    every variable a reference into it, so that what the surgery writes
    to, and what a holder of an earlier graph can still read, is
    explicit.  Cells and stops are values: the code never assigns to a
    field of an edge or of a stop. *)

Definition loc : Type := nat.

Section Store.
Context {Stop : Type}.
Variable mergeWith : Stop -> Stop -> Stop.

Inductive object : Type :=
| ORow (cells : list cell)                     (* an array of cells *)
| OMatrix (rows : list loc)                    (* an array of rows *)
| OStops (ss : list Stop)                      (* an array of stops *)
| OGraph (n : nat) (g : loc) (ss : loc).       (* numNodes, G, stops *)

Definition store : Type := list object.

(** A new object, at the first free address. *)
Definition alloc (h : store) (o : object) : store * loc := (h ++ [o], length h).

(** An assignment into the object at [l]. *)
Fixpoint update (h : store) (l : loc) (o : object) : store :=
  match h, l with
  | [], _ => []
  | _ :: h', O => o :: h'
  | x :: h', S l' => x :: update h' l' o
  end.

Definition getRow (h : store) (l : loc) : result (list cell) :=
  match nth_error h l with
  | Some (ORow cells) => Ok cells
  | _ => TypeError
  end.

Definition getMatrix (h : store) (l : loc) : result (list loc) :=
  match nth_error h l with
  | Some (OMatrix rows) => Ok rows
  | _ => TypeError
  end.

Definition getStops (h : store) (l : loc) : result (list Stop) :=
  match nth_error h l with
  | Some (OStops ss) => Ok ss
  | _ => TypeError
  end.

Definition getGraph (h : store) (l : loc) : result (nat * loc * loc) :=
  match nth_error h l with
  | Some (OGraph n g ss) => Ok (n, g, ss)
  | _ => TypeError
  end.

(** [newGraph[r]], a reference to a row. *)
Definition rowRef (h : store) (newGraph : loc) (r : nat) : result loc :=
  rows <- getMatrix h newGraph ;;
  match nth_error rows r with
  | Some l => Ok l
  | None => TypeError
  end.

(** [newGraph[r][i]] *)
Definition readCellAt (h : store) (newGraph : loc) (r i : nat) : result cell :=
  l <- rowRef h newGraph r ;;
  cells <- getRow h l ;;
  Ok (cell_at cells i).

(** [newGraph[r][i] = v] *)
Definition writeCellAt (h : store) (newGraph : loc) (r i : nat) (v : cell)
  : result store :=
  l <- rowRef h newGraph r ;;
  cells <- getRow h l ;;
  Ok (update h l (ORow (array_set Undefined cells i v))).

(** The value of the graph object at [l]: what its holder reads. *)
Definition rowsOf (h : store) (rows : list loc) : result (list (list cell)) :=
  fold_right (fun l acc =>
                cells <- getRow h l ;; rest <- acc ;; Ok (cells :: rest))
             (Ok []) rows.

Definition matrixOf (h : store) (l : loc) : result (list (list cell)) :=
  rows <- getMatrix h l ;; rowsOf h rows.

Definition graphOf (h : store) (l : loc) : result (TransitGraph (Stop := Stop)) :=
  '(n, g, s) <- getGraph h l ;;
  m <- matrixOf h g ;;
  ss <- getStops h s ;;
  Ok (mkGraph n m ss).

(** Modelled from the spec: the constructor, on the store.  It builds its
    own rows and keeps the reference to the stop array it is given. *)
Definition allocRows (h : store) (m : list (list cell)) : store * list loc :=
  fold_left (fun acc cells =>
               let '(h, l) := alloc (fst acc) (ORow cells) in
               (h, push (snd acc) l)) m (h, []).

Definition newTransitGraphAt (h : store) (edgeList : list Edge) (n : nat) (ss : loc)
  : store * loc :=
  let m := fold_left storeEdge edgeList (zeroTriangle n) in
  let '(h, rows) := allocRows h m in
  let '(h, g) := alloc h (OMatrix rows) in
  alloc h (OGraph n g ss).

Definition horizontalOverlapAt (loIndex hiIndex unionIndex : nat) (newGraph : loc)
    (h : store) : result store :=
  for_rangeM 0 loIndex (fun h i =>
    a <- readCellAt h newGraph loIndex i ;;
    b <- readCellAt h newGraph hiIndex i ;;
    u <- mergeEdges a b ;;
    h <- writeCellAt h newGraph unionIndex i u ;;
    writeCellAt h newGraph loIndex i Null) h.

Definition horizontalHiOvershootAt (loIndex hiIndex unionIndex : nat) (newGraph : loc)
    (h : store) : result store :=
  h <- for_rangeM (loIndex + 1) hiIndex (fun h i =>
    b <- readCellAt h newGraph hiIndex i ;;
    u <- mergeEdges b Zero ;;
    writeCellAt h newGraph unionIndex i u) h ;;
  for_rangeM 0 hiIndex (fun h i =>
    writeCellAt h newGraph hiIndex i Null) h.

Definition verticalOverlapAt (loIndex hiIndex unionIndex : nat) (newGraph : loc)
    (h : store) : result store :=
  for_rangeM (hiIndex + 1) unionIndex (fun h i =>
    a <- readCellAt h newGraph i loIndex ;;
    b <- readCellAt h newGraph i hiIndex ;;
    u <- mergeEdges a b ;;
    h <- writeCellAt h newGraph unionIndex i u ;;
    h <- writeCellAt h newGraph i loIndex Null ;;
    writeCellAt h newGraph i hiIndex Null) h.

Definition verticalLoOvershootAt (loIndex hiIndex unionIndex : nat) (newGraph : loc)
    (h : store) : result store :=
  for_rangeM (loIndex + 1) hiIndex (fun h i =>
    overlap <- readCellAt h newGraph i loIndex ;;
    old <- readCellAt h newGraph unionIndex i ;;
    u <- mergeEdges overlap old ;;
    h <- writeCellAt h newGraph unionIndex i u ;;
    writeCellAt h newGraph i loIndex Null) h.

Definition mergeAt (loIndex hiIndex : nat) (newGraph newStops : loc) (h : store)
  : result store :=
  ss <- getStops h newStops ;;
  match nth_error ss loIndex, nth_error ss hiIndex with
  | Some stopLo, Some stopHi =>
    let newStop := mergeWith stopLo stopHi in
    let h := update h newStops
               (OStops (splice1 (splice1 (push ss newStop) loIndex) (hiIndex - 1))) in
    rows <- getMatrix h newGraph ;;
    let '(h, newRow) := alloc h (ORow (repeat Zero (length rows - 1))) in
    let rows := push rows newRow in
    let h := update h newGraph (OMatrix rows) in
    let unionIndex := length rows - 1 in
    h <- horizontalOverlapAt loIndex hiIndex unionIndex newGraph h ;;
    h <- horizontalHiOvershootAt loIndex hiIndex unionIndex newGraph h ;;
    h <- verticalOverlapAt loIndex hiIndex unionIndex newGraph h ;;
    h <- verticalLoOvershootAt loIndex hiIndex unionIndex newGraph h ;;
    unionRef <- rowRef h newGraph unionIndex ;;
    unionRow <- getRow h unionRef ;;
    let h := update h unionRef
               (ORow (splice1 (splice1 unionRow loIndex) (hiIndex - 1))) in
    rows <- getMatrix h newGraph ;;
    let rows := splice1 (splice1 rows loIndex) (hiIndex - 1) in
    let h := update h newGraph (OMatrix rows) in
    for_rangeM 0 (length rows - 1) (fun h i =>
      l <- rowRef h newGraph i ;;
      cells <- getRow h l ;;
      Ok (update h l (ORow (removeNulls cells)))) h
  | _, _ => TypeError
  end.

Definition mergeTopAt (indexA indexB : nat) (newGraph newStops : loc) (h : store)
  : result store :=
  if indexA <? indexB then mergeAt indexA indexB newGraph newStops h
  else mergeAt indexB indexA newGraph newStops h.

(** [graph.G.forEach(row => newGraph.push(row.slice()))] *)
Definition copyRows (h : store) (rows : list loc) (newGraph : loc) : result store :=
  fold_left (fun acc rowOfNodes =>
               h <- acc ;;
               cells <- getRow h rowOfNodes ;;
               let '(h, copy) := alloc h (ORow cells) in
               copied <- getMatrix h newGraph ;;
               Ok (update h newGraph (OMatrix (push copied copy))))
            rows (Ok h).

(** One pass of the [while] body: the store it leaves and the reference
    that replaces [graph]. *)
Definition mergeStepAt (fuel : nat) (h : store) (graph : loc) : result (store * loc) :=
  '(n, g, s) <- getGraph h graph ;;
  graphValue <- graphOf h graph ;;
  let '(h, transferGraph) :=
    newTransitGraphAt h (getTransferEdges graphValue) n s in
  transferValue <- graphOf h transferGraph ;;
  nodeGroupings <- nodeGroupingsOf fuel transferValue ;;
  let nodesToMerge := filter (fun e => 1 <? length e) nodeGroupings in
  match nodesToMerge with
  | (indexA :: indexB :: _) :: _ =>
    let '(h, newGraph) := alloc h (OMatrix []) in
    rows <- getMatrix h g ;;
    h <- copyRows h rows newGraph ;;
    ss <- getStops h s ;;
    let '(h, newStops) := alloc h (OStops ss) in
    h <- mergeTopAt indexA indexB newGraph newStops h ;;
    let newNumNodes := n - 1 in
    m <- matrixOf h newGraph ;;
    newEdgeList <- newEdgeListOf m ;;
    Ok (newTransitGraphAt h newEdgeList newNumNodes newStops)
  | _ => TypeError
  end.

Fixpoint mergeLoopAt (fuel : nat) (h : store) (graph : loc) : result (store * loc) :=
  match fuel with
  | O => OutOfFuel
  | S fuel' =>
    graphValue <- graphOf h graph ;;
    if 0 <? length (getTransferEdges graphValue)
    then '(h, graph) <- mergeStepAt fuel h graph ;; mergeLoopAt fuel' h graph
    else Ok (h, graph)
  end.

Definition mergeTransferNodesAt (fuel : nat) (h : store) (graph : loc)
  : result (store * option loc) :=
  graphValue <- graphOf h graph ;;
  if length (getTransferEdges graphValue) =? 0 then Ok (h, None)
  else '(h, graph) <- mergeLoopAt fuel h graph ;; Ok (h, Some graph).

End Store.

(* ------------------------------------------------------------------ *)
(** ** The rank display

    The display component of [public/rank/app.js] keeps the stops it was
    sent in its state, [undefined] until they arrive, and lists them by
    decreasing rank. *)

Section RankDisplay.
(** A stop carries an [id]; identifiers are compared by strict
    equality. *)
Context {Stop Id : Type}.
Variable id : Stop -> Id.
Variable Id_eqb : Id -> Id -> bool.

(** [ids.indexOf(stopId)]; [None] stands for -1. *)
Fixpoint indexOf (ids : list Id) (stopId : Id) : option nat :=
  match ids with
  | [] => None
  | x :: ids' =>
    if Id_eqb x stopId then Some 0 else option_map S (indexOf ids' stopId)
  end.

(** [_lookupStop]: [stops[stops.map(stop => stop.id).indexOf(stopId)]].
    The index -1 names no element, and the read gives [undefined]. *)
Definition _lookupStop (stops : option (list Stop)) (stopId : Id)
  : result (option Stop) :=
  match stops with
  | None => TypeError
  | Some stops =>
    match indexOf (map id stops) stopId with
    | Some i => Ok (nth_error stops i)
    | None => Ok None
    end
  end.

(** [Math.round(rank * 100000) / 100000], on exact numbers:
    [Math.round] is the floor of its argument plus one half. *)
Definition round5 (rank : Q) : Q :=
  (inject_Z (Qfloor (rank * 100000 + (1 # 2))) / 100000)%Q.

(** The comparison function handed to [sort]; a pair stands for a stop
    and the rank stored in it. *)
Definition byRank (a b : Stop * Q) : Z :=
  match (snd a ?= snd b)%Q with
  | Lt => 1
  | Gt => -1
  | Eq => 0
  end%Z.

(** [Array.prototype.sort] with a comparison function: [a] is placed
    before [b] when the function is negative on them, and elements it
    does not tell apart keep their order. *)
Fixpoint insertSorted {A : Type} (cmp : A -> A -> Z) (x : A) (l : list A) : list A :=
  match l with
  | [] => [x]
  | y :: l' => if (0 <? cmp x y)%Z then y :: insertSorted cmp x l' else x :: l
  end.

Definition Array_sort {A : Type} (cmp : A -> A -> Z) (l : list A) : list A :=
  fold_right (insertSorted cmp) [] l.

(** [_orderStopsByRank]: the stop of every node, with its rounded rank
    written to it, then sorted. *)
Definition _orderStopsByRank (stops : option (list Stop)) (ranks : list Q)
  : result (list (Stop * Q)) :=
  stopsWithRanks <-
    for_rangeM 0 (length ranks) (fun stopsWithRanks node =>
      match stops with
      | None => TypeError
      | Some stops =>
        match nth_error stops node with
        | None => TypeError
        | Some stop => Ok (push stopsWithRanks (stop, round5 (nth node ranks 0%Q)))
        end
      end) [] ;;
  Ok (Array_sort byRank stopsWithRanks).

End RankDisplay.

(* ================================================================== *)
(** * Properties *)

(* ------------------------------------------------------------------ *)
(** ** Arrays and loops *)

Section JsArrayFacts.
Context {A : Type}.
Implicit Types (a : list A) (i j : nat) (v hole d : A).

Lemma array_set_length_in hole a i v :
  i < length a -> length (array_set hole a i v) = length a.
Proof.
  revert i; induction a as [|x a IH]; intros [|i] H; simpl in *; try lia.
  rewrite IH; lia.
Qed.

Lemma array_set_length hole a i v :
  length (array_set hole a i v) = Nat.max (length a) (S i).
Proof.
  revert i; induction a as [|x a IH]; intros i.
  - induction i as [|i IHi]; simpl in *; [reflexivity|].
    rewrite IHi. reflexivity.
  - destruct i as [|i]; simpl; [lia|]. rewrite IH. lia.
Qed.

Lemma nth_array_set_eq hole a i v d :
  nth i (array_set hole a i v) d = v.
Proof.
  revert a; induction i as [|i IH]; intros [|x a]; simpl; auto.
Qed.

Lemma nth_array_set_ne hole a i j v :
  i <> j -> nth j (array_set hole a i v) hole = nth j a hole.
Proof.
  revert a j; induction i as [|i IH]; intros [|x a] [|j] H; simpl; auto; try lia.
  - destruct j; reflexivity.
  - rewrite IH by lia. destruct j; reflexivity.
Qed.

Lemma nth_array_set_ne_in hole a i j v d :
  i <> j -> i < length a -> nth j (array_set hole a i v) d = nth j a d.
Proof.
  revert a j; induction i as [|i IH]; intros [|x a] [|j] H Hl; simpl in *;
    auto; try lia.
  apply IH; lia.
Qed.

Lemma nth_error_array_set_eq hole a i v :
  nth_error (array_set hole a i v) i = Some v.
Proof.
  revert a; induction i as [|i IH]; intros [|x a]; simpl; auto.
Qed.

Lemma nth_error_array_set_ne hole a i j v :
  i <> j -> i < length a ->
  nth_error (array_set hole a i v) j = nth_error a j.
Proof.
  revert a j; induction i as [|i IH]; intros [|x a] [|j] H Hl; simpl in *;
    auto; try lia.
  apply IH; lia.
Qed.

Lemma splice1_length a i :
  i < length a -> length (splice1 a i) = length a - 1.
Proof.
  revert i; induction a as [|x a IH]; intros [|i] H; simpl in *; try lia.
  rewrite IH by lia. lia.
Qed.

Lemma splice1_out a i : length a <= i -> splice1 a i = a.
Proof.
  revert i; induction a as [|x a IH]; intros [|i] H; simpl in *;
    try reflexivity; try lia.
  rewrite IH by lia. reflexivity.
Qed.

Lemma nth_splice1_lt a i j d :
  j < i -> nth j (splice1 a i) d = nth j a d.
Proof.
  revert i j; induction a as [|x a IH]; intros [|i] [|j] H; simpl; auto; try lia.
  apply IH; lia.
Qed.

Lemma nth_splice1_ge a i j d :
  i <= j -> nth j (splice1 a i) d = nth (S j) a d.
Proof.
  revert i j; induction a as [|x a IH]; intros i j H.
  - destruct i, j; reflexivity.
  - destruct i as [|i]; [reflexivity|].
    destruct j as [|j]; [lia|]. simpl. apply IH. lia.
Qed.

Lemma for_range_S {S : Type} lo hi (body : S -> nat -> S) (s : S) :
  lo <= hi ->
  for_range lo (Datatypes.S hi) body s = body (for_range lo hi body s) hi.
Proof.
  intros H. unfold for_range.
  replace (Datatypes.S hi - lo) with (Datatypes.S (hi - lo)) by lia.
  rewrite seq_S, fold_left_app. simpl.
  replace (lo + (hi - lo)) with hi by lia. reflexivity.
Qed.

Lemma for_range_empty {S : Type} lo hi (body : S -> nat -> S) (s : S) :
  hi <= lo -> for_range lo hi body s = s.
Proof.
  intros H. unfold for_range. replace (hi - lo) with 0 by lia. reflexivity.
Qed.

(** An invariant carried through a loop. *)
Lemma for_range_ind {S : Type} (Inv : nat -> S -> Prop) lo hi
    (body : S -> nat -> S) (s : S) :
  lo <= hi ->
  Inv lo s ->
  (forall i s, lo <= i < hi -> Inv i s -> Inv (Datatypes.S i) (body s i)) ->
  Inv hi (for_range lo hi body s).
Proof.
  intros Hle H0 Hstep.
  induction hi as [|hi IH].
  - assert (lo = 0) by lia. subst. rewrite for_range_empty by lia. exact H0.
  - destruct (Nat.eq_dec lo (Datatypes.S hi)) as [->|Hne].
    + rewrite for_range_empty by lia. exact H0.
    + rewrite for_range_S by lia. apply Hstep; [lia|].
      apply IH; [lia|]. intros i s' Hi. apply Hstep. lia.
Qed.

End JsArrayFacts.

Lemma for_rangeM_S {S : Type} lo hi (body : S -> nat -> result S) (s : S) :
  lo <= hi ->
  for_rangeM lo (Datatypes.S hi) body s =
  (s' <- for_rangeM lo hi body s ;; body s' hi).
Proof.
  intros H. unfold for_rangeM.
  replace (Datatypes.S hi - lo) with (Datatypes.S (hi - lo)) by lia.
  rewrite seq_S, fold_left_app. simpl.
  replace (lo + (hi - lo)) with hi by lia. reflexivity.
Qed.

Lemma for_rangeM_empty {S : Type} lo hi (body : S -> nat -> result S) (s : S) :
  hi <= lo -> for_rangeM lo hi body s = Ok s.
Proof.
  intros H. unfold for_rangeM. replace (hi - lo) with 0 by lia. reflexivity.
Qed.

(** A loop whose body keeps an invariant and never fails does not fail. *)
Lemma for_rangeM_ind {S : Type} (Inv : nat -> S -> Prop) lo hi
    (body : S -> nat -> result S) (s : S) :
  lo <= hi ->
  Inv lo s ->
  (forall i s, lo <= i < hi -> Inv i s ->
     exists s', body s i = Ok s' /\ Inv (Datatypes.S i) s') ->
  exists s', for_rangeM lo hi body s = Ok s' /\ Inv hi s'.
Proof.
  intros Hle H0 Hstep.
  induction hi as [|hi IH].
  - assert (lo = 0) by lia. subst. rewrite for_rangeM_empty by lia. eauto.
  - destruct (Nat.eq_dec lo (Datatypes.S hi)) as [->|Hne].
    + rewrite for_rangeM_empty by lia. eauto.
    + rewrite for_rangeM_S by lia.
      destruct IH as (s1 & E1 & I1); [lia| |].
      { intros i s' Hi. apply Hstep. lia. }
      rewrite E1. simpl. apply Hstep; [lia|exact I1].
Qed.

(** What a successful loop establishes, from what each successful step
    preserves. *)
Lemma for_rangeM_inv {S : Type} (Inv : nat -> S -> Prop) lo hi
    (body : S -> nat -> result S) (s s' : S) :
  lo <= hi ->
  Inv lo s ->
  (forall i s s', lo <= i < hi -> Inv i s -> body s i = Ok s' ->
     Inv (Datatypes.S i) s') ->
  for_rangeM lo hi body s = Ok s' ->
  Inv hi s'.
Proof.
  intros Hle H0 Hstep. revert s'.
  induction hi as [|hi IH]; intros s' E.
  - assert (lo = 0) by lia. subst. rewrite for_rangeM_empty in E by lia.
    inversion E; subst. exact H0.
  - destruct (Nat.eq_dec lo (Datatypes.S hi)) as [->|Hne].
    + rewrite for_rangeM_empty in E by lia. inversion E; subst. exact H0.
    + rewrite for_rangeM_S in E by lia.
      destruct (for_rangeM lo hi body s) as [s1| |] eqn:E1; simpl in E;
        try discriminate.
      apply (Hstep hi s1 s'); [lia| |exact E].
      apply IH; [lia| |reflexivity].
      intros i x x' Hi. apply Hstep. lia.
Qed.

(* ------------------------------------------------------------------ *)
(** ** Page Rank: the precomputed tables *)

Section PageRankFacts.
Context {Stop : Type}.
Variable graph : TransitGraph (Stop := Stop).

Lemma seq_0_S n : seq 0 (S n) = seq 0 n ++ [n].
Proof. rewrite seq_S. reflexivity. Qed.

Lemma countOutgoingEdges_eq :
  countOutgoingEdges graph =
  map (fun i => length (filter (edgeExists graph i) (seq 0 (graph_length graph))))
      (seq 0 (graph_length graph)).
Proof.
  unfold countOutgoingEdges.
  apply (for_range_ind (fun k out =>
    out = map (fun i => length (filter (edgeExists graph i)
                                       (seq 0 (graph_length graph)))) (seq 0 k)));
    [lia|reflexivity|].
  intros i out _ ->. rewrite seq_0_S, map_app. unfold push. simpl. do 2 f_equal.
  apply (for_range_ind (fun k c =>
    c = length (filter (edgeExists graph i) (seq 0 k)))); [lia|reflexivity|].
  intros j c _ ->. rewrite seq_0_S, filter_app, length_app. simpl.
  destruct (edgeExists graph i j); simpl; lia.
Qed.

Lemma countIncomingEdges_spec :
  length (countIncomingEdges graph) = graph_length graph /\
  forall j, j < graph_length graph ->
    nth j (countIncomingEdges graph) [] =
    filter (fun i => edgeExists graph i j) (seq 0 (graph_length graph)).
Proof.
  unfold countIncomingEdges.
  set (N := graph_length graph).
  apply (for_range_ind (fun k inc =>
    length inc = N /\
    forall j, j < N ->
      nth j inc [] = filter (fun i => edgeExists graph i j) (seq 0 k))); [lia| |].
  - split; [apply repeat_length|]. intros j Hj. simpl.
    rewrite nth_repeat. reflexivity.
  - intros i inc Hi [Hlen Hinc].
    assert (Hinner :
      length (for_range 0 N (fun incomingNodes j =>
        if edgeExists graph i j
        then array_set [] incomingNodes j (push (nth j incomingNodes []) i)
        else incomingNodes) inc) = N /\
      forall j, j < N ->
        nth j (for_range 0 N (fun incomingNodes j =>
          if edgeExists graph i j
          then array_set [] incomingNodes j (push (nth j incomingNodes []) i)
          else incomingNodes) inc) [] =
        if j <? N then filter (fun i => edgeExists graph i j) (seq 0 (S i))
        else filter (fun i => edgeExists graph i j) (seq 0 i)).
    { apply (for_range_ind (fun m inc' =>
        length inc' = N /\
        forall j, j < N ->
          nth j inc' [] =
          if j <? m then filter (fun i => edgeExists graph i j) (seq 0 (S i))
          else filter (fun i => edgeExists graph i j) (seq 0 i))); [lia| |].
      - split; [exact Hlen|]. intros j Hj. simpl. apply Hinc, Hj.
      - intros m inc' Hm [Hlen' Hinc']. split.
        + destruct (edgeExists graph i m); [|exact Hlen'].
          rewrite array_set_length_in; lia.
        + intros j Hj. destruct (Nat.eq_dec m j) as [->|Hne].
          * replace (j <? S j) with true by (symmetry; apply Nat.ltb_lt; lia).
            rewrite seq_0_S, filter_app. simpl.
            specialize (Hinc' j Hj). rewrite Nat.ltb_irrefl in Hinc'.
            destruct (edgeExists graph i j).
            -- rewrite nth_array_set_eq, Hinc'. reflexivity.
            -- rewrite Hinc', app_nil_r. reflexivity.
          * assert (E : (j <? S m) = (j <? m)).
            { destruct (Nat.ltb_spec j (S m)), (Nat.ltb_spec j m); auto; lia. }
            rewrite E, <- (Hinc' j Hj).
            destruct (edgeExists graph i m); [|reflexivity].
            apply nth_array_set_ne. exact Hne. }
    destruct Hinner as [Hl Hn]. split; [exact Hl|].
    intros j Hj. rewrite (Hn j Hj).
    replace (j <? N) with true by (symmetry; apply Nat.ltb_lt; lia).
    reflexivity.
Qed.




(** ** Page Rank: one sweep *)

(** The rank array after the first [k] assignments of a sweep. *)
Definition sweepTo (k : nat) (ranks : list Q) : list Q :=
  for_range 0 k (fun ranks node =>
    array_set 0%Q ranks node (updateRank graph ranks node)) ranks.

Lemma sweepTo_S k ranks :
  sweepTo (S k) ranks =
  array_set 0%Q (sweepTo k ranks) k (updateRank graph (sweepTo k ranks) k).
Proof. unfold sweepTo. rewrite for_range_S by lia. reflexivity. Qed.

Lemma sweepTo_length k ranks :
  k <= length ranks -> length (sweepTo k ranks) = length ranks.
Proof.
  induction k as [|k IH]; intros H; [reflexivity|].
  rewrite sweepTo_S, array_set_length_in; rewrite IH; lia.
Qed.

Lemma sweepTo_later k ranks j :
  k <= length ranks -> k <= j -> nth j (sweepTo k ranks) 0%Q = nth j ranks 0%Q.
Proof.
  induction k as [|k IH]; intros H Hj; [reflexivity|].
  rewrite sweepTo_S, nth_array_set_ne by lia. apply IH; lia.
Qed.

Lemma sweepTo_earlier k m ranks j :
  m <= length ranks -> j < k -> k <= m ->
  nth j (sweepTo m ranks) 0%Q = nth j (sweepTo k ranks) 0%Q.
Proof.
  intros Hm Hj Hk. induction m as [|m IH]; [lia|].
  destruct (Nat.eq_dec k (S m)) as [->|Hne]; [reflexivity|].
  rewrite sweepTo_S, nth_array_set_ne by lia. apply IH; lia.
Qed.

Lemma sweepTo_split k ranks :
  let n := length ranks in
  k <= n -> sweepTo k ranks = firstn k (sweepTo n ranks) ++ skipn k ranks.
Proof.
  intros n Hk. apply (nth_ext _ _ 0%Q 0%Q).
  - rewrite length_app, length_firstn, length_skipn, !sweepTo_length; lia.
  - intros j Hj. rewrite sweepTo_length in Hj by lia.
    destruct (Nat.lt_ge_cases j k) as [Hlt|Hge].
    + rewrite app_nth1 by (rewrite length_firstn, sweepTo_length; lia).
      rewrite nth_firstn.
      replace (j <? k) with true by (symmetry; apply Nat.ltb_lt; lia).
      symmetry. apply sweepTo_earlier; lia.
    + rewrite app_nth2 by (rewrite length_firstn, sweepTo_length; lia).
      rewrite length_firstn, sweepTo_length by lia.
      rewrite Nat.min_l by lia.
      rewrite nth_skipn. replace (k + (j - k)) with j by lia.
      apply sweepTo_later; lia.
Qed.

Lemma sweep_length ranks :
  length ranks = graph_length graph -> length (sweep graph ranks) = graph_length graph.
Proof.
  intros H. change (sweep graph ranks) with (sweepTo (graph_length graph) ranks).
  rewrite sweepTo_length; lia.
Qed.

(** The rank a sweep assigns to [node] is computed from an array holding
    the new ranks of the nodes before [node] and the old ranks of [node]
    and the nodes after it. *)
Lemma sweep_reads ranks node :
  length ranks = graph_length graph -> node < graph_length graph ->
  nth node (sweep graph ranks) 0%Q =
  updateRank graph (firstn node (sweep graph ranks) ++ skipn node ranks) node.
Proof.
  intros Hlen Hnode.
  change (sweep graph ranks) with (sweepTo (graph_length graph) ranks).
  rewrite <- Hlen. rewrite <- sweepTo_split by lia.
  rewrite (sweepTo_earlier (S node)) by lia.
  rewrite sweepTo_S, nth_array_set_eq. reflexivity.
Qed.

Lemma propagate_length ranks :
  length ranks = graph_length graph ->
  length (propagate graph ranks) = graph_length graph.
Proof.
  intros H. unfold propagate. generalize iterations as n.
  induction n as [|n IH]; [exact H|]. simpl. apply sweep_length, IH.
Qed.

End PageRankFacts.

(* ------------------------------------------------------------------ *)
(** ** Page Rank: the claims *)


(** Three stops in a line: 0 - 1 - 2. *)
Definition path3 : TransitGraph (Stop := nat) :=
  newTransitGraph [mkEdge route 0 1 5; mkEdge route 1 2 1] 3 [0; 1; 2].


(** C1, as stated, fails: in the first sweep over [path3] node 1 is
    assigned 3/2, computed from the rank 1/2 that the same sweep has
    just written to node 0; the ranks of the previous sweep give 2. *)
Lemma pageRank_sweep_not_synchronous :
  let ranks := repeat initialRank (graph_length path3) in
  (nth 1 (sweep path3 ranks) 0 == 3 # 2)%Q /\
  (updateRank path3 ranks 1 == 2)%Q /\
  ~ (nth 1 (sweep path3 ranks) 0 == updateRank path3 ranks 1)%Q /\
  ~ (nth 1 (sweep path3 ranks) 0 == nth 1 (sweep_synchronous path3 ranks) 0)%Q.
Proof.
  vm_compute. repeat split; intros H; discriminate H.
Qed.

(** C1, amended: in each of the 10 sweeps the rank assigned to a node
    is [((1 - damping) / N) + damping * sum(rank[incoming] /
    outDegree[incoming])] over the nodes with an edge into it, read from
    the one rank array that the sweep is overwriting: the ranks of the
    nodes before it are those already assigned in this sweep, the ranks
    of the node itself and of the nodes after it are those of the
    previous sweep. *)
Theorem pageRank_sweep_in_place {Stop : Type} (graph : TransitGraph (Stop := Stop))
    (k node : nat) :
  k < iterations -> node < graph_length graph ->
  let N := graph_length graph in
  let before := Nat.iter k (sweep graph) (repeat initialRank N) in
  let after := Nat.iter (S k) (sweep graph) (repeat initialRank N) in
  let current := firstn node after ++ skipn node before in
  nth node after 0%Q = updateRank graph current node /\
  updateRank graph current node =
    ((1 - damping) / inject_Z (Z.of_nat N) +
     damping * fold_left (fun sum d => sum + fst d / inject_Z (Z.of_nat (snd d)))
                 (divisions graph current node) 0)%Q /\
  divisions graph current node =
    map (fun incoming =>
           (nth incoming current 0%Q,
            length (filter (edgeExists graph incoming) (seq 0 N))))
        (filter (fun incoming => edgeExists graph incoming node) (seq 0 N)) /\
  propagate graph (repeat initialRank N) =
    Nat.iter iterations (sweep graph) (repeat initialRank N).
Proof.
  intros Hk Hnode N before after current.
  assert (Hlen : length before = N).
  { subst before. clear Hk. induction k as [|k IH]; simpl.
    - apply repeat_length.
    - apply sweep_length, IH. }
  repeat split.
  - subst after current. simpl. fold before. apply sweep_reads; assumption.
  - unfold divisions, incomingNodes.
    rewrite (proj2 (countIncomingEdges_spec graph) node Hnode).
    apply map_ext_in. intros incoming Hin. f_equal.
    apply filter_In in Hin. destruct Hin as [Hin _]. apply in_seq in Hin.
    unfold outgoingEdgeCounts. rewrite countOutgoingEdges_eq.
    rewrite (nth_indep _ 0 (length (filter (edgeExists graph 0) (seq 0 N))))
      by (rewrite length_map, length_seq; lia).
    rewrite (map_nth (fun i => length (filter (edgeExists graph i) (seq 0 N)))).
    rewrite seq_nth by lia. reflexivity.
Qed.

Lemma pageRank_sweep_in_place_witness :
  let N := graph_length path3 in
  let before := Nat.iter 0 (sweep path3) (repeat initialRank N) in
  let after := Nat.iter 1 (sweep path3) (repeat initialRank N) in
  let current := firstn 1 after ++ skipn 1 before in
  nth 1 after 0%Q = updateRank path3 current 1 /\
  updateRank path3 current 1 =
    ((1 - damping) / inject_Z (Z.of_nat N) +
     damping * fold_left (fun sum d => sum + fst d / inject_Z (Z.of_nat (snd d)))
                 (divisions path3 current 1) 0)%Q /\
  divisions path3 current 1 =
    map (fun incoming =>
           (nth incoming current 0%Q,
            length (filter (edgeExists path3 incoming) (seq 0 N))))
        (filter (fun incoming => edgeExists path3 incoming 1) (seq 0 N)) /\
  propagate path3 (repeat initialRank N) =
    Nat.iter iterations (sweep path3) (repeat initialRank N).
Proof.
  apply (pageRank_sweep_in_place path3 0 1); [unfold iterations; lia|].
  vm_compute. lia.
Defined.



(* ------------------------------------------------------------------ *)
(** ** Breadth-first search *)

Section BfsFacts.
Context {Stop : Type}.
Variable graph : TransitGraph (Stop := Stop).

(** The neighbours a scan of [node] discovers, given the flags [D]. *)
Definition discovered (node : nat) (D : list bool) : list nat :=
  filter (fun i => edgeExists graph node i && negb (nth i D false))
         (seq 0 (length (G graph))).

(** What the traverser is told for them. *)
Definition scanEvents (node : nat) (found : list nat) : list Event :=
  flat_map (fun i => [EvVisit (createEdge graph node i); EvVisitNode node]) found.

(** The nodes not flagged yet. *)
Definition unseen (D : list bool) : list nat :=
  filter (fun i => negb (nth i D false)) (seq 0 (length (G graph))).

Lemma bfsScan_spec node Q D traverser :
  exists D' traverser',
    bfsScan graph node (Q, D, traverser) = (Q ++ discovered node D, D', traverser') /\
    events traverser' = events traverser ++ scanEvents node (discovered node D) /\
    (forall j, j < length (G graph) ->
       nth j D' false = nth j D false || edgeExists graph node j).
Proof.
  unfold bfsScan, discovered.
  set (f := fun i => edgeExists graph node i && negb (nth i D false)).
  pose (Inv := fun (k : nat) (st : bfsState) =>
    fst (fst st) = Q ++ filter f (seq 0 k) /\
    events (snd st) = events traverser ++ scanEvents node (filter f (seq 0 k)) /\
    (forall j, k <= j -> nth j (snd (fst st)) false = nth j D false) /\
    (forall j, j < k ->
       nth j (snd (fst st)) false = nth j D false || edgeExists graph node j)).
  assert (H : Inv (length (G graph))
    (for_range 0 (length (G graph)) (fun st i =>
       let '(Q, D, traverser) := st in
       if edgeExists graph node i && negb (nth i D false)
       then (push Q i, array_set false D i true,
             visitNode node (visit (createEdge graph node i) traverser))
       else st) (Q, D, traverser))).
  { apply for_range_ind; [lia| |].
    - unfold Inv. simpl. rewrite !app_nil_r. repeat split; auto. intros; lia.
    - intros i [[Q1 D1] t1] Hi (HQ & HE & Hge & Hlt). simpl in HQ, HE, Hge, Hlt.
      unfold Inv. rewrite seq_0_S, filter_app. simpl filter.
      rewrite (Hge i) by lia. fold (f i).
      destruct (f i) eqn:Ef; simpl.
      + unfold push, scanEvents. rewrite flat_map_app. simpl.
        rewrite HQ, HE, <- !app_assoc. simpl. repeat split; auto.
        * intros j Hj. rewrite nth_array_set_ne by lia. apply Hge. lia.
        * intros j Hj. destruct (Nat.eq_dec i j) as [->|Hne].
          -- rewrite nth_array_set_eq. unfold f in Ef.
             apply andb_prop in Ef. destruct Ef as [-> _].
             apply eq_sym, orb_true_r.
          -- rewrite nth_array_set_ne by exact Hne. apply Hlt. lia.
      + rewrite !app_nil_r. repeat split; auto.
        * intros j Hj. apply Hge. lia.
        * intros j Hj. destruct (Nat.eq_dec i j) as [->|Hne].
          -- rewrite Hge by lia. unfold f in Ef.
             destruct (edgeExists graph node j), (nth j D false);
               simpl in *; congruence.
          -- apply Hlt. lia. }
  destruct (for_range 0 (length (G graph)) _ (Q, D, traverser)) as [[Q1 D1] t1].
  destruct H as (HQ & HE & _ & Hlt). simpl in *.
  exists D1, t1. subst Q1. repeat split; auto.
Qed.

(** A scan moves one node from [unseen] to the queue for each neighbour
    it discovers. *)
Lemma filter_split_length (l : list nat) (p q r : nat -> bool) :
  (forall j, In j l -> p j = q j || r j) ->
  length (filter (fun j => negb (p j)) l) +
  length (filter (fun j => r j && negb (q j)) l) =
  length (filter (fun j => negb (q j)) l).
Proof.
  induction l as [|x l IH]; intros H; [reflexivity|]. simpl.
  rewrite (H x (or_introl eq_refl)).
  assert (IH' := IH (fun j Hj => H j (or_intror Hj))).
  destruct (q x), (r x); simpl; lia.
Qed.

Lemma bfsScan_measure node D D' :
  (forall j, j < length (G graph) ->
     nth j D' false = nth j D false || edgeExists graph node j) ->
  length (unseen D') + length (discovered node D) = length (unseen D).
Proof.
  intros H. unfold unseen, discovered.
  apply (filter_split_length _ (fun j => nth j D' false)
           (fun j => nth j D false) (fun j => edgeExists graph node j)).
  intros j Hj. apply in_seq in Hj. apply H. lia.
Qed.

(** The events of a whole run, given the nodes dequeued and what the
    scan of each discovered. *)
Definition runEvents (rounds : list (nat * list nat)) : list Event :=
  flat_map (fun r => scanEvents (fst r) (snd r)) rounds.


End BfsFacts.



(* ------------------------------------------------------------------ *)
(** ** Depth-first search *)

(** Two stops joined by one route edge. *)
Definition pair2 : TransitGraph (Stop := nat) :=
  newTransitGraph [mkEdge route 0 1 5] 2 [0; 1].

Definition isVisit (e : Event) : bool :=
  match e with EvVisit _ => true | _ => false end.
Definition isLeave (e : Event) : bool :=
  match e with EvLeave _ => true | _ => false end.

(** C7 fails on the code.  Started at node 0 of the connected graph
    [pair2], the search visits both nodes but reports no tree edge and no
    leave, where the claim has one of each: the test [traverser &&
    parent] is false for the parent 0 as it is for the missing parent of
    the starting node.  Started at node 1, whose number is truthy, the
    same graph yields the edge and the leave. *)
Theorem dfs_reports_no_edge_below_node_0 :
  forall fuel,
    dfs pair2 (2 + fuel) 0 BasicTraverser =
      Ok (mkTraverser [0; 1]
            [EvVisitNode 0; EvVisitNode 1; EvSummary (stationsVisited 2)]) /\
    length (filter isVisit
      [EvVisitNode 0; EvVisitNode 1; EvSummary (stationsVisited 2)])
      <> numNodes pair2 - 1 /\
    length (filter isLeave
      [EvVisitNode 0; EvVisitNode 1; EvSummary (stationsVisited 2)])
      <> numNodes pair2 - 1 /\
    dfs pair2 (2 + fuel) 1 BasicTraverser =
      Ok (mkTraverser [1; 0]
            [EvVisitNode 1; EvVisit (Some (mkEdge route 1 0 5)); EvVisitNode 0;
             EvLeave (Some (mkEdge route 0 1 5)); EvSummary (stationsVisited 2)]).
Proof.
  intros fuel. repeat split; try (vm_compute; lia).
Qed.

(* ------------------------------------------------------------------ *)
(** ** Dijkstra: walks and distances *)

Definition num_le (a b : num) : Prop :=
  match a, b with
  | Fin x, Fin y => (x <= y)%Z
  | _, Infinity => True
  | Infinity, Fin _ => False
  end.

Ltac num_cases :=
  repeat match goal with
  | x : num |- _ => destruct x
  end;
  simpl in *; try congruence; try lia; try tauto.

Lemma num_ltb_lt a b : num_ltb a b = true <-> ~ num_le b a.
Proof.
  destruct a, b; simpl; try rewrite Z.ltb_lt; try (split; [lia|lia]);
    intuition (try congruence).
Qed.

Lemma num_ltb_ge a b : num_ltb a b = false <-> num_le b a.
Proof.
  destruct a, b; simpl; try rewrite Z.ltb_ge; try (split; [lia|lia]);
    intuition (try congruence).
Qed.

Lemma num_le_refl a : num_le a a.
Proof. destruct a; simpl; auto; lia. Qed.

Lemma num_le_trans a b c : num_le a b -> num_le b c -> num_le a c.
Proof. destruct a, b, c; simpl; auto; try lia; try tauto. Qed.

Definition count_true (D : list bool) : nat := length (filter (fun b => b) D).

Lemma count_true_set D i :
  i < length D -> nth i D false = false ->
  count_true (array_set false D i true) = S (count_true D).
Proof.
  unfold count_true. revert i. induction D as [|b D IH]; intros [|i] Hl Hn;
    simpl in *; try lia.
  - subst b. reflexivity.
  - specialize (IH i ltac:(lia) Hn). destruct b; simpl; rewrite IH; reflexivity.
Qed.

Lemma count_true_full D :
  count_true D = length D -> forall i, i < length D -> nth i D false = true.
Proof.
  unfold count_true. induction D as [|b D IH]; intros H i Hi; simpl in *; [lia|].
  assert (Hle := filter_length_le (fun b => b) D).
  destruct b; simpl in H; [|lia].
  destruct i as [|i]; [reflexivity|]. apply IH; lia.
Qed.

Section DijkstraFacts.
Context {Stop : Type}.
Variable graph : TransitGraph (Stop := Stop).
Local Abbreviation N := (graph_length graph).

(** An edge between two nodes of the graph. *)
Definition step (u v : nat) : Prop :=
  u < N /\ v < N /\ edgeExists graph u v = true.

(** [walk start v d]: some sequence of edges leads from [start] to [v],
    its weights adding up to [d]. *)
Inductive walk (start : nat) : nat -> Z -> Prop :=
| walk_here : start < N -> walk start start 0
| walk_snoc v w d :
    walk start v d -> step v w -> walk start w (d + getWeight graph v w).



(** The walk the reconstruction loop performs on [P], as a relation:
    it stops exactly at a cell holding 0, and otherwise collects the edge
    from [P[i]] to [i] and moves to [P[i]]. *)
Inductive backwardWalk (P : list nat) : nat -> list (option Edge) -> Prop :=
| backward_stop i : nth_error P i = Some 0 -> backwardWalk P i []
| backward_step i p path :
    nth_error P i = Some p -> p <> 0 -> backwardWalk P p path ->
    backwardWalk P i (createEdge graph p i :: path).

Lemma walkBack_sound fuel P :
  forall i acc path,
  walkBack graph fuel P i acc = Ok path ->
  exists collected, path = acc ++ collected /\ backwardWalk P i collected.
Proof.
  induction fuel as [|fuel IH]; intros i acc path E; simpl in E; [discriminate|].
  destruct (nth_error P i) as [[|p]|] eqn:En; try discriminate.
  - inversion E; subst. exists []. rewrite app_nil_r. split; [reflexivity|].
    apply backward_stop, En.
  - apply IH in E. destruct E as (c & -> & Hc).
    exists (createEdge graph (S p) i :: c). unfold push. rewrite <- app_assoc.
    split; [reflexivity|]. apply (backward_step P i (S p)); auto.
Qed.

Hypothesis nonneg :
  forall u v, edgeExists graph u v = true -> (0 <= getWeight graph u v)%Z.

Lemma walk_nonneg start v d : walk start v d -> (0 <= d)%Z.
Proof.
  induction 1 as [|v w d _ IH (_ & _ & He)]; [lia|].
  specialize (nonneg v w He). lia.
Qed.

Lemma walk_in_graph start v d : walk start v d -> v < N.
Proof. induction 1 as [|v w d _ _ (_ & Hw & _)]; assumption. Qed.

(** *** The selection loop *)

Lemma selectMin_spec S_ D idx0 :
  let r := selectMin graph S_ D idx0 in
  (fst r = Infinity /\
   forall i, i < N -> nth i D false = false -> nth i S_ Infinity = Infinity) \/
  (exists d, fst r = Fin d /\ snd r < N /\
     nth (snd r) S_ Infinity = Fin d /\ nth (snd r) D false = false /\
     forall i, i < N -> nth i D false = false ->
       num_le (Fin d) (nth i S_ Infinity)).
Proof.
  unfold selectMin.
  apply (for_range_ind (fun k (r : num * nat) =>
    (fst r = Infinity /\
     forall i, i < k -> nth i D false = false -> nth i S_ Infinity = Infinity) \/
    (exists d, fst r = Fin d /\ snd r < k /\
       nth (snd r) S_ Infinity = Fin d /\ nth (snd r) D false = false /\
       forall i, i < k -> nth i D false = false ->
         num_le (Fin d) (nth i S_ Infinity)))); [lia| |].
  - left. split; [reflexivity|]. intros; lia.
  - intros k [m idx] Hk H. cbn [fst snd] in *.
    destruct (num_ltb (nth k S_ Infinity) m && negb (nth k D false)) eqn:Ec.
    + apply andb_prop in Ec. destruct Ec as [Elt Ed].
      apply negb_true_iff in Ed. apply num_ltb_lt in Elt.
      right. simpl. destruct (nth k S_ Infinity) as [dk|] eqn:Ek.
      * exists dk. split; [reflexivity|]. split; [simpl; lia|].
        split; [reflexivity|]. split; [exact Ed|].
        intros i Hi Hd. destruct (Nat.eq_dec i k) as [->|Hne].
        -- rewrite ?Ek. simpl. lia.
        -- destruct H as [[-> Hall]|(d & -> & _ & _ & _ & Hall)].
           ++ rewrite Hall by (auto; lia). exact I.
           ++ specialize (Hall i ltac:(lia) Hd).
              destruct (nth i S_ Infinity); simpl in *; [lia|exact I].
      * destruct m; simpl in Elt; tauto.
    + apply andb_false_iff in Ec.
      destruct H as [[Hm Hall]|(d & Hm & Hidx & HS & HD & Hall)].
      * left. split; [exact Hm|]. intros i Hi Hd.
        destruct (Nat.eq_dec i k) as [->|Hne]; [|apply Hall; auto; lia].
        destruct Ec as [Ec|Ec].
        -- simpl in Hm. subst m. apply num_ltb_ge in Ec.
           destruct (nth k S_ Infinity); simpl in Ec; tauto.
        -- rewrite Hd in Ec. discriminate.
      * right. exists d. split; [exact Hm|]. split; [simpl in *; lia|].
        split; [exact HS|]. split; [exact HD|].
        intros i Hi Hd.
        destruct (Nat.eq_dec i k) as [->|Hne]; [|apply Hall; auto; lia].
        destruct Ec as [Ec|Ec].
        -- simpl in Hm. subst m. apply num_ltb_ge in Ec. exact Ec.
        -- rewrite Hd in Ec. discriminate.
Qed.

(** *** The relaxation loop *)

(** Whether relaxing [u], at distance [du], rewrites the cells of [i]. *)
Definition improves (S_ : list num) (u : nat) (du : Z) (i : nat) : bool :=
  edgeExists graph u i &&
  num_ltb (Fin (du + getWeight graph u i)) (nth i S_ Infinity).

Lemma improves_self S_ u du :
  nth u S_ Infinity = Fin du -> improves S_ u du u = false.
Proof.
  intros E. unfold improves. destruct (edgeExists graph u u) eqn:Ee; [|reflexivity].
  simpl. rewrite E. simpl. apply Z.ltb_ge. specialize (nonneg u u Ee). lia.
Qed.

Lemma relax_spec u S_ P du :
  length S_ = N -> length P = N -> u < N -> nth u S_ Infinity = Fin du ->
  let r := relax graph u (S_, P) in
  length (fst r) = N /\ length (snd r) = N /\
  forall i, i < N ->
    nth i (fst r) Infinity =
      (if improves S_ u du i then Fin (du + getWeight graph u i)
       else nth i S_ Infinity) /\
    nth i (snd r) 0 = (if improves S_ u du i then u else nth i P 0).
Proof.
  intros HlS HlP Hu Eu. unfold relax.
  pose (Inv := fun k (r : list num * list nat) =>
    length (fst r) = N /\ length (snd r) = N /\
    (forall i, i < k ->
      nth i (fst r) Infinity =
        (if improves S_ u du i then Fin (du + getWeight graph u i)
         else nth i S_ Infinity) /\
      nth i (snd r) 0 = (if improves S_ u du i then u else nth i P 0)) /\
    (forall i, k <= i ->
      nth i (fst r) Infinity = nth i S_ Infinity /\
      nth i (snd r) 0 = nth i P 0)).
  assert (H : Inv N
    (for_range 0 N (fun SP i =>
       let '(S_, P) := SP in
       let candidate := num_add (nth u S_ Infinity) (getWeight graph u i) in
       if edgeExists graph u i && num_ltb candidate (nth i S_ Infinity)
       then (array_set Infinity S_ i candidate, array_set 0 P i u)
       else SP) (S_, P))).
  { apply (for_range_ind Inv); [lia| |]; unfold Inv.
    - cbn [fst snd]. split; [exact HlS|]. split; [exact HlP|].
      split; [intros; lia|]. intros; split; reflexivity.
    - intros k [S1 P1] Hk (Hl1 & Hl2 & Hlt & Hge). cbn [fst snd] in *.
      assert (Eu1 : nth u S1 Infinity = Fin du).
      { destruct (Nat.lt_ge_cases u k) as [Hlt'|Hge'].
        - rewrite (proj1 (Hlt u Hlt')), improves_self by exact Eu. exact Eu.
        - rewrite (proj1 (Hge u Hge')). exact Eu. }
      rewrite Eu1. simpl num_add. rewrite (proj1 (Hge k (Nat.le_refl k))).
      fold (improves S_ u du k).
      destruct (improves S_ u du k) eqn:Ei; simpl.
      + rewrite !array_set_length_in by lia. repeat split; auto.
        * destruct (Nat.eq_dec i k) as [->|Hne].
          -- rewrite nth_array_set_eq, Ei. reflexivity.
          -- rewrite nth_array_set_ne by lia. apply Hlt. lia.
        * destruct (Nat.eq_dec i k) as [->|Hne].
          -- rewrite nth_array_set_eq, Ei. reflexivity.
          -- rewrite nth_array_set_ne by lia. apply Hlt. lia.
        * rewrite nth_array_set_ne by lia. apply Hge. lia.
        * rewrite nth_array_set_ne by lia. apply Hge. lia.
      + repeat split; auto.
        * destruct (Nat.eq_dec i k) as [->|Hne].
          -- rewrite Ei. apply Hge. lia.
          -- apply Hlt. lia.
        * destruct (Nat.eq_dec i k) as [->|Hne].
          -- rewrite Ei. apply Hge. lia.
          -- apply Hlt. lia.
        * apply Hge. lia.
        * apply Hge. lia. }
  destruct H as (H1 & H2 & H3 & _). repeat split; auto; apply H3; assumption.
Qed.

End DijkstraFacts.

(** *** The invariant of the outer loop *)

Section DijkstraInvariant.
Context {Stop : Type}.
Variable graph : TransitGraph (Stop := Stop).
Local Abbreviation N := (graph_length graph).

Hypothesis nonneg :
  forall u v, edgeExists graph u v = true -> (0 <= getWeight graph u v)%Z.

Variable start : nat.
Hypothesis start_in : start < N.

(** [c] counts the nodes done so far and [rk] numbers them in the order
    in which they were done. *)
Record DInv (c : nat) (rk : nat -> nat) (st : dijkstraState) : Prop := {
  inv_lenS : length (dS st) = N;
  inv_lenD : length (dD st) = N;
  inv_lenP : length (dP st) = N;
  inv_start : nth start (dS st) Infinity = Fin 0;
  inv_sound : forall v d,
    v < N -> nth v (dS st) Infinity = Fin d -> walk graph start v d;
  inv_relaxed : forall x y,
    nth x (dD st) false = true -> step graph x y ->
    num_le (nth y (dS st) Infinity)
           (num_add (nth x (dS st) Infinity) (getWeight graph x y));
  inv_mono : forall w v,
    w < N -> v < N ->
    nth w (dD st) false = true -> nth v (dD st) false = false ->
    num_le (nth w (dS st) Infinity) (nth v (dS st) Infinity);
  inv_done_fin : forall x,
    x < N -> nth x (dD st) false = true -> nth x (dS st) Infinity <> Infinity;
  inv_count : count_true (dD st) = c;
  inv_P_inf : forall v,
    v < N -> nth v (dS st) Infinity = Infinity -> nth v (dP st) 0 = 0;
  inv_P : forall v,
    v < N -> nth v (dP st) 0 <> 0 ->
    nth v (dP st) 0 < N /\
    nth (nth v (dP st) 0) (dD st) false = true /\
    (nth v (dD st) false = true -> rk (nth v (dP st) 0) < rk v);
  inv_rk : forall x, x < N -> nth x (dD st) false = true -> rk x < c
}.

Lemma DInv_init : DInv 0 (fun _ => 0) (dijkstraInit graph start).
Proof.
  unfold dijkstraInit.
  assert (HS : forall v, v <> start ->
    nth v (array_set Infinity (repeat Infinity N) start (Fin 0)) Infinity = Infinity).
  { intros v Hv. rewrite nth_array_set_ne by auto. apply nth_repeat. }
  assert (HD : forall x, nth x (repeat false N) false = false).
  { intros x. apply nth_repeat. }
  assert (HP : forall x, nth x (repeat 0 N) 0 = 0).
  { intros x. apply nth_repeat. }
  constructor; cbn [dS dD dP].
  - rewrite array_set_length_in; rewrite repeat_length; auto.
  - apply repeat_length.
  - apply repeat_length.
  - apply nth_array_set_eq.
  - intros v d Hv E. destruct (Nat.eq_dec v start) as [->|Hne].
    + rewrite nth_array_set_eq in E. inversion E; subst. constructor. exact start_in.
    + rewrite HS in E by exact Hne. discriminate.
  - intros x y Hx. rewrite HD in Hx. discriminate.
  - intros w v _ _ Hw. rewrite HD in Hw. discriminate.
  - intros x _ Hx. rewrite HD in Hx. discriminate.
  - unfold count_true. generalize N. intros n.
    induction n as [|n IH]; [reflexivity|exact IH].
  - intros v _ _. apply HP.
  - intros v _ Hv. rewrite HP in Hv. congruence.
  - intros x _ Hx. rewrite HD in Hx. discriminate.
Qed.

Lemma DInv_step c rk st u du :
  DInv c rk st ->
  u < N ->
  nth u (dS st) Infinity = Fin du ->
  nth u (dD st) false = false ->
  (forall i, i < N -> nth i (dD st) false = false ->
     num_le (Fin du) (nth i (dS st) Infinity)) ->
  let r := relax graph u (dS st, dP st) in
  DInv (S c) (fun x => if x =? u then c else rk x)
       (mkDijkstra (fst r) (array_set false (dD st) u true) (snd r) u).
Proof.
  intros I Hu Eu Du Hmin r.
  destruct (relax_spec graph nonneg u (dS st) (dP st) du
              (inv_lenS _ _ _ I) (inv_lenP _ _ _ I) Hu Eu) as (HlS & HlP & HR).
  fold r in HlS, HlP, HR.
  set (S_ := dS st) in *. set (D := dD st) in *. set (P := dP st) in *.
  (* the flags after the step *)
  assert (HD' : forall x,
    nth x (array_set false D u true) false =
    if x =? u then true else nth x D false).
  { intros x. destruct (Nat.eqb_spec x u) as [->|Hne].
    - apply nth_array_set_eq.
    - apply nth_array_set_ne. congruence. }
  (* only nodes not done, other than [u], are rewritten *)
  assert (HA : forall i, i < N -> improves graph S_ u du i = true ->
    nth i D false = false /\ i <> u /\ edgeExists graph u i = true /\
    num_le (Fin (du + getWeight graph u i)) (nth i S_ Infinity) /\
    nth i S_ Infinity <> Fin (du + getWeight graph u i)).
  { intros i Hi Himp.
    assert (Hi' : i <> u).
    { intros ->. rewrite (improves_self graph nonneg S_ u du Eu) in Himp.
      discriminate. }
    unfold improves in Himp. apply andb_prop in Himp. destruct Himp as [He Hlt].
    apply num_ltb_lt in Hlt. specialize (nonneg _ _ He).
    split; [|split; [exact Hi'|split; [exact He|]]].
    - destruct (nth i D false) eqn:Ed; [|reflexivity].
      assert (Hm := inv_mono _ _ _ I i u Hi Hu Ed Du).
      fold S_ in Hm. rewrite Eu in Hm.
      destruct (nth i S_ Infinity); simpl in *; [lia|tauto].
    - destruct (nth i S_ Infinity); simpl in *; split; try congruence;
        try lia; auto.
      intros E. inversion E. lia. }
  assert (Hu' : nth u (fst r) Infinity = Fin du).
  { rewrite (proj1 (HR u Hu)), (improves_self graph nonneg S_ u du Eu). exact Eu. }
  (* the distances never grow *)
  assert (Hdec : forall i, i < N ->
    num_le (nth i (fst r) Infinity) (nth i S_ Infinity)).
  { intros i Hi. rewrite (proj1 (HR i Hi)).
    destruct (improves graph S_ u du i) eqn:Ei; [|apply num_le_refl].
    apply (HA i Hi Ei). }
  (* the distance of a done node stays *)
  assert (Hkeep : forall x, x < N -> nth x D false = true ->
    nth x (fst r) Infinity = nth x S_ Infinity /\ nth x (snd r) 0 = nth x P 0).
  { intros x Hx Ed. destruct (HR x Hx) as [E1 E2]. rewrite E1, E2.
    destruct (improves graph S_ u du x) eqn:Ei; [|split; reflexivity].
    destruct (HA x Hx Ei) as [Ed' _]. congruence. }
  constructor; cbn [dS dD dP].
  - exact HlS.
  - rewrite array_set_length_in; [apply (inv_lenD _ _ _ I)|].
    unfold D. rewrite (inv_lenD _ _ _ I). exact Hu.
  - exact HlP.
  - (* start *)
    destruct (HR start start_in) as [E _]. rewrite E.
    destruct (improves graph S_ u du start) eqn:Ei;
      [|apply (inv_start _ _ _ I)].
    destruct (HA start start_in Ei) as (_ & _ & He & Hle & Hne).
    exfalso. assert (H0 := inv_start _ _ _ I). fold S_ in H0. rewrite H0 in *.
    assert (Hw := walk_nonneg graph nonneg start u du
                    (inv_sound _ _ _ I u du Hu Eu)).
    specialize (nonneg _ _ He). simpl in Hle.
    apply Hne. f_equal. lia.
  - (* sound *)
    intros v d Hv E. destruct (HR v Hv) as [E1 _]. rewrite E1 in E.
    destruct (improves graph S_ u du v) eqn:Ei.
    + inversion E; subst. destruct (HA v Hv Ei) as (_ & _ & He & _).
      apply walk_snoc; [apply (inv_sound _ _ _ I u du Hu Eu)|].
      repeat split; assumption.
    + apply (inv_sound _ _ _ I v d Hv E).
  - (* relaxed *)
    intros x y Hx Hst. assert (Hst' := Hst). destruct Hst' as (Hxn & Hyn & He).
    rewrite HD' in Hx. destruct (Nat.eqb_spec x u) as [->|Hne].
    + rewrite Hu'. simpl num_add. rewrite (proj1 (HR y Hyn)).
      unfold improves. rewrite He. cbn [andb].
      destruct (num_ltb (Fin (du + getWeight graph u y)) (nth y S_ Infinity)) eqn:El.
      * apply num_le_refl.
      * apply num_ltb_ge in El. exact El.
    + rewrite (proj1 (Hkeep x Hxn Hx)).
      apply (num_le_trans _ (nth y S_ Infinity)); [apply Hdec, Hyn|].
      apply (inv_relaxed _ _ _ I x y Hx Hst).
  - (* mono *)
    intros w v Hw Hv Dw Dv. rewrite HD' in Dw, Dv.
    destruct (Nat.eqb_spec v u) as [->|Hvu]; [discriminate|].
    assert (Hv' : num_le (Fin du) (nth v (fst r) Infinity)).
    { rewrite (proj1 (HR v Hv)).
      destruct (improves graph S_ u du v) eqn:Ei; [|apply Hmin; assumption].
      destruct (HA v Hv Ei) as (_ & _ & He & _). specialize (nonneg _ _ He).
      simpl. lia. }
    destruct (Nat.eqb_spec w u) as [->|Hwu].
    + rewrite Hu'. exact Hv'.
    + rewrite (proj1 (Hkeep w Hw Dw)).
      apply (num_le_trans _ (Fin du)); [|exact Hv'].
      assert (Hm := inv_mono _ _ _ I w u Hw Hu Dw Du). fold S_ in Hm.
      rewrite Eu in Hm. exact Hm.
  - (* done nodes are finite *)
    intros x Hx Dx. rewrite HD' in Dx.
    destruct (Nat.eqb_spec x u) as [->|Hxu].
    + rewrite Hu'. discriminate.
    + rewrite (proj1 (Hkeep x Hx Dx)). apply (inv_done_fin _ _ _ I x Hx Dx).
  - (* count *)
    rewrite count_true_set; [f_equal; apply (inv_count _ _ _ I)| |exact Du].
    unfold D. rewrite (inv_lenD _ _ _ I). exact Hu.
  - (* an infinite distance has no predecessor *)
    intros v Hv E. destruct (HR v Hv) as [E1 E2]. rewrite E1 in E. rewrite E2.
    destruct (improves graph S_ u du v); [discriminate|].
    apply (inv_P_inf _ _ _ I v Hv E).
  - (* predecessors *)
    intros v Hv Hp. destruct (HR v Hv) as [_ E2]. rewrite E2 in *.
    destruct (improves graph S_ u du v) eqn:Ei.
    + destruct (HA v Hv Ei) as (Dv & Hvu & _).
      split; [exact Hu|]. split.
      * rewrite HD', Nat.eqb_refl. reflexivity.
      * rewrite HD'. destruct (Nat.eqb_spec v u); [contradiction|].
        rewrite Dv. discriminate.
    + destruct (inv_P _ _ _ I v Hv Hp) as (Hpn & Dp & Hrk).
      fold P D in Hpn, Dp, Hrk.
      assert (Hpu : nth v P 0 <> u) by (intros Epu; rewrite Epu in Dp; congruence).
      split; [exact Hpn|]. split.
      * rewrite HD'. destruct (Nat.eqb_spec (nth v P 0) u); [reflexivity|exact Dp].
      * rewrite HD'. intros Dv.
        destruct (Nat.eqb_spec (nth v P 0) u) as [|_]; [contradiction|].
        destruct (Nat.eqb_spec v u) as [->|Hvu].
        -- apply (inv_rk _ _ _ I (nth u P 0) Hpn Dp).
        -- apply Hrk, Dv.
  - (* ranks *)
    intros x Hx Dx. rewrite HD' in Dx.
    destruct (Nat.eqb_spec x u) as [->|Hxu]; [lia|].
    assert (H := inv_rk _ _ _ I x Hx Dx). lia.
Qed.

(** The loop ends with every node either done or at distance
    [Infinity]. *)
Lemma dijkstraLoop_inv k :
  forall c rk st,
  DInv c rk st -> c + k = N ->
  exists c' rk',
    DInv c' rk' (dijkstraLoop graph k st) /\
    forall v, v < N ->
      nth v (dD (dijkstraLoop graph k st)) false = false ->
      nth v (dS (dijkstraLoop graph k st)) Infinity = Infinity.
Proof.
  induction k as [|k IH]; intros c rk st I Hc.
  - exists c, rk. split; [exact I|]. intros v Hv Dv. exfalso.
    assert (H := count_true_full (dD st)). rewrite (inv_count _ _ _ I) in H.
    rewrite (inv_lenD _ _ _ I) in H. rewrite H in Dv by lia. discriminate.
  - simpl dijkstraLoop.
    assert (Hsel := selectMin_spec graph (dS st) (dD st) (minIndex st)).
    destruct (selectMin graph (dS st) (dD st) (minIndex st)) as [m u].
    cbn [fst snd] in Hsel.
    destruct Hsel as [[-> Hall]|(du & -> & Hu & Eu & Du & Hmin)]; simpl is_MAX; cbv iota.
    + exists c, rk. split; [exact I|exact Hall].
    + assert (I' := DInv_step c rk st u du I Hu Eu Du Hmin). simpl in I'.
      destruct (relax graph u (dS st, dP st)) as [S' P']. cbn [fst snd] in I'.
      apply (IH (S c) _ _ I'). lia.
Qed.

End DijkstraInvariant.

(** *** The state the loop ends in *)

Section DijkstraFinal.
Context {Stop : Type}.
Variable graph : TransitGraph (Stop := Stop).
Local Abbreviation N := (graph_length graph).

Hypothesis nonneg :
  forall u v, edgeExists graph u v = true -> (0 <= getWeight graph u v)%Z.

Variable start : nat.
Hypothesis start_in : start < N.

Let final : dijkstraState := dijkstraLoop graph N (dijkstraInit graph start).

Lemma final_inv :
  exists c rk,
    DInv graph start c rk final /\
    forall v, v < N -> nth v (dD final) false = false ->
              nth v (dS final) Infinity = Infinity.
Proof.
  apply (dijkstraLoop_inv graph nonneg start start_in N 0 (fun _ => 0)).
  - apply DInv_init. exact start_in.
  - reflexivity.
Qed.





(** The backward walk ends: the predecessor of a node was done before
    the node, so the walk descends through the order in which the nodes
    were done. *)
Lemma walkBack_total finish fuel acc :
  finish < N -> N < fuel ->
  exists path, walkBack graph fuel (dP final) finish acc = Ok path.
Proof.
  intros Hf Hfuel. destruct final_inv as (c & rk & I & _).
  assert (Hc : c <= N).
  { rewrite <- (inv_count _ _ _ _ _ I), <- (inv_lenD _ _ _ _ _ I).
    apply filter_length_le. }
  assert (Hdone : forall f v a,
    v < N -> nth v (dD final) false = true -> rk v < f ->
    exists path, walkBack graph f (dP final) v a = Ok path).
  { induction f as [|f IH]; intros v a Hv Dv Hrk; [lia|]. simpl.
    rewrite (nth_error_nth' (dP final) 0)
      by (rewrite (inv_lenP _ _ _ _ _ I); exact Hv).
    destruct (nth v (dP final) 0) as [|p] eqn:Ep; [eauto|].
    destruct (inv_P _ _ _ _ _ I v Hv) as (Hpn & Dp & Hlt);
      [rewrite Ep; discriminate|].
    rewrite Ep in *. apply IH; [exact Hpn|exact Dp|].
    specialize (Hlt Dv). lia. }
  destruct fuel as [|f]; [lia|]. simpl.
  rewrite (nth_error_nth' (dP final) 0)
    by (rewrite (inv_lenP _ _ _ _ _ I); exact Hf).
  destruct (nth finish (dP final) 0) as [|p] eqn:Ep; [eauto|].
  destruct (inv_P _ _ _ _ _ I finish Hf) as (Hpn & Dp & _);
    [rewrite Ep; discriminate|].
  rewrite Ep in *. apply Hdone; [exact Hpn|exact Dp|].
  assert (H := inv_rk _ _ _ _ _ I (S p) Hpn Dp). lia.
Qed.

End DijkstraFinal.

Lemma events_visit_all (path : list (option Edge)) (t : Traverser) :
  events (fold_left (fun t edge => visit edge t) path t) =
    events t ++ map EvVisit path /\
  visitedNodes (fold_left (fun t edge => visit edge t) path t) = visitedNodes t.
Proof.
  revert t. induction path as [|e path IH]; intros t; simpl.
  - rewrite app_nil_r. split; reflexivity.
  - destruct (IH (visit e t)) as [E1 E2]. rewrite E1, E2. simpl.
    unfold push. rewrite <- app_assoc. split; reflexivity.
Qed.

(** A check, by computation, that no stored weight is negative. *)
Definition nonnegative_cell (c : cell) : bool :=
  match c with
  | Obj _ w => (0 <=? w)%Z
  | _ => true
  end.

Definition nonnegative_weights {Stop : Type} (g : TransitGraph (Stop := Stop)) : bool :=
  forallb (forallb nonnegative_cell) (G g).

Lemma relation_cases {Stop : Type} (g : TransitGraph (Stop := Stop)) u v :
  relation g u v = Zero \/ relation g u v = Undefined \/
  exists row, In row (G g) /\ In (relation g u v) row.
Proof.
  assert (H : forall a b,
    cell_at (nth a (G g) []) b = Undefined \/
    exists row, In row (G g) /\ In (cell_at (nth a (G g) []) b) row).
  { intros a b. unfold cell_at.
    destruct (nth_in_or_default a (G g) []) as [Hin|E].
    - destruct (nth_in_or_default b (nth a (G g) []) Undefined) as [Hin'|E'].
      + right. eauto.
      + left. exact E'.
    - left. rewrite E. destruct b; reflexivity. }
  unfold relation. destruct (v <? u); [right; apply H|].
  destruct (u <? v); [right; apply H|]. left. reflexivity.
Qed.

Lemma nonnegative_weights_sound {Stop : Type} (g : TransitGraph (Stop := Stop)) :
  nonnegative_weights g = true ->
  forall u v, edgeExists g u v = true -> (0 <= getWeight g u v)%Z.
Proof.
  intros H u v. unfold edgeExists, getWeight.
  destruct (relation_cases g u v) as [E|[E|(row & Hrow & Hin)]];
    try (rewrite E; discriminate).
  unfold nonnegative_weights in H. rewrite forallb_forall in H.
  specialize (H row Hrow). rewrite forallb_forall in H.
  specialize (H _ Hin). destruct (relation g u v); try discriminate.
  intros _. apply Z.leb_le. exact H.
Qed.

(* ------------------------------------------------------------------ *)
(** ** Dijkstra: the claims *)



(** The line 0 - 1 - 2 in which the second edge carries the weight -1
    that a merge gives to the edges of a merged node. *)
Definition mergedLine : TransitGraph (Stop := nat) :=
  newTransitGraph [mkEdge route 0 1 1; mkEdge route 1 2 (-1)] 3 [0; 1; 2].

Lemma mergedLine_predecessors :
  dP (dijkstraLoop mergedLine 3 (dijkstraInit mergedLine 0)) = [0; 2; 1].
Proof. reflexivity. Qed.

Lemma mergedLine_walk_cycles fuel :
  forall i acc, i = 1 \/ i = 2 ->
  walkBack mergedLine fuel [0; 2; 1] i acc = OutOfFuel.
Proof.
  induction fuel as [|fuel IH]; intros i acc Hi; [reflexivity|].
  destruct Hi as [-> | ->]; simpl; apply IH; auto.
Qed.

(** C5, as stated for every call, fails: from node 0 to node 1 of
    [mergedLine] the loop leaves [P = [0; 2; 1]], the backward walk
    alternates between nodes 1 and 2 without meeting the sentinel, and
    nothing is reported to the traverser, whatever the fuel. *)
Lemma dijkstra_walk_cycles_on_negative_weight :
  ~ exists fuel report, dijkstra mergedLine fuel 0 1 BasicTraverser = Ok report.
Proof.
  intros (fuel & report & E). unfold dijkstra in E.
  change (graph_length mergedLine) with 3 in E.
  rewrite mergedLine_predecessors in E.
  rewrite (mergedLine_walk_cycles fuel 1 [] (or_introl eq_refl)) in E.
  discriminate E.
Qed.

(** C5, amended: [P] starts as 0 in every cell; on a graph without
    negative weights, for a start and a target in the graph, the backward
    walk from the target collects the edge from [P[i]] to [i] at each
    step and stops exactly at a cell holding the sentinel 0; the edges
    collected are then passed to [visit] in reverse order, and the
    summary that follows carries the distance of the target as
    [pathLength]. *)
Theorem dijkstra_path_reconstruction {Stop : Type}
    (graph : TransitGraph (Stop := Stop)) (start finish fuel : nat)
    (traverser : Traverser) :
  (forall u v, edgeExists graph u v = true -> (0 <= getWeight graph u v)%Z) ->
  start < graph_length graph ->
  finish < graph_length graph ->
  graph_length graph < fuel ->
  let final := dijkstraLoop graph (graph_length graph) (dijkstraInit graph start) in
  dP (dijkstraInit graph start) = repeat 0 (graph_length graph) /\
  exists path logged traverser',
    backwardWalk graph (dP final) finish path /\
    dijkstra graph fuel start finish traverser = Ok (logged, traverser') /\
    events traverser' =
      events traverser ++ map EvVisit (rev path) ++
      [EvSummary (pathLength (nth finish (dS final) Infinity))] /\
    visitedNodes traverser' = visitedNodes traverser.
Proof.
  intros nonneg Hs Hf Hfuel final. subst final. split; [reflexivity|].
  destruct (walkBack_total graph nonneg start Hs finish fuel [] Hf Hfuel)
    as (path & E).
  destruct (walkBack_sound graph fuel _ _ _ _ E) as (collected & -> & Hw).
  change ([] ++ collected) with collected in E.
  unfold dijkstra. rewrite E. cbn [bind].
  eexists collected, _, _. split; [exact Hw|]. split; [reflexivity|].
  destruct (events_visit_all (rev collected) traverser) as [E1 E2].
  simpl. rewrite E1, E2. unfold push. rewrite <- app_assoc.
  split; reflexivity.
Qed.

Lemma dijkstra_path_reconstruction_witness :
  let final := dijkstraLoop path3 3 (dijkstraInit path3 2) in
  dP (dijkstraInit path3 2) = repeat 0 3 /\
  exists path logged traverser',
    backwardWalk path3 (dP final) 0 path /\
    dijkstra path3 4 2 0 BasicTraverser = Ok (logged, traverser') /\
    events traverser' =
      events BasicTraverser ++ map EvVisit (rev path) ++
      [EvSummary (pathLength (nth 0 (dS final) Infinity))] /\
    visitedNodes traverser' = visitedNodes BasicTraverser.
Proof.
  apply (dijkstra_path_reconstruction path3 2 0 4 BasicTraverser).
  - apply nonnegative_weights_sound. reflexivity.
  - vm_compute. lia.
  - vm_compute. lia.
  - vm_compute. lia.
Defined.

(* ------------------------------------------------------------------ *)
(** ** The matrix surgery, cell by cell *)

(** A matrix is described by its number of rows, the length of each row
    and the content of each cell. *)
Definition cellOf (m : list (list cell)) (r i : nat) : cell :=
  cell_at (nth r m []) i.

Definition rowLen (m : list (list cell)) (r : nat) : nat :=
  length (nth r m []).

Definition Shape (m : list (list cell)) (L : nat) (len : nat -> nat)
    (content : nat -> nat -> cell) : Prop :=
  length m = L /\
  (forall r, rowLen m r = len r) /\
  (forall r i, cellOf m r i = content r i).

Ltac nat_cases :=
  cbv beta;
  repeat (match goal with
          | |- context [?a =? ?b] => destruct (Nat.eqb_spec a b)
          | |- context [?a <? ?b] => destruct (Nat.ltb_spec a b)
          end;
          try (exfalso; lia); cbn [andb orb negb]);
  try subst; try reflexivity; try lia; try congruence.

Lemma Shape_ext m L len content len' content' :
  Shape m L len content ->
  (forall r, len r = len' r) ->
  (forall r i, content r i = content' r i) ->
  Shape m L len' content'.
Proof.
  intros (H1 & H2 & H3) El Ec. repeat split; auto.
  - intros r. rewrite <- El. apply H2.
  - intros r i. rewrite <- Ec. apply H3.
Qed.

Lemma readCell_Shape m L len content r i :
  Shape m L len content -> r < L -> readCell m r i = Ok (content r i).
Proof.
  intros (H1 & _ & H3) Hr. unfold readCell, row_at.
  rewrite (nth_error_nth' m []) by lia. simpl. rewrite <- H3. reflexivity.
Qed.

Lemma writeCell_Shape m L len content r i v :
  Shape m L len content -> r < L ->
  exists m',
    writeCell m r i v = Ok m' /\
    Shape m' L
      (fun r' => if r' =? r then Nat.max (len r) (S i) else len r')
      (fun r' i' => if (r' =? r) && (i' =? i) then v else content r' i').
Proof.
  intros (H1 & H2 & H3) Hr. unfold writeCell, row_at.
  rewrite (nth_error_nth' m []) by lia. simpl. eexists. split; [reflexivity|].
  repeat split.
  - rewrite array_set_length_in; lia.
  - intros r'. unfold rowLen. destruct (Nat.eqb_spec r' r) as [->|Hne].
    + rewrite nth_array_set_eq, array_set_length. rewrite <- H2. reflexivity.
    + rewrite nth_array_set_ne by congruence. apply H2.
  - intros r' i'. unfold cellOf, cell_at.
    destruct (Nat.eqb_spec r' r) as [->|Hne]; cbn [andb].
    + rewrite nth_array_set_eq. destruct (Nat.eqb_spec i' i) as [->|Hne'].
      * apply nth_array_set_eq.
      * rewrite nth_array_set_ne by congruence. apply H3.
    + rewrite nth_array_set_ne by congruence. apply H3.
Qed.

(** A cell the graph stores: the number 0 or an edge. *)
Definition is_stored (c : cell) : bool :=
  match c with
  | Zero | Obj _ _ => true
  | Null | Undefined => false
  end.

Definition is_transfer_cell (c : cell) : bool :=
  match c with
  | Obj transfer _ => true
  | _ => false
  end.

(** The rule of [mergeEdges], on stored cells. *)
Definition unionOf (a b : cell) : cell :=
  match a, b with
  | Zero, Zero => Zero
  | _, _ =>
    if is_transfer_cell a || is_transfer_cell b
    then Obj transfer (-1)
    else Obj route (-1)
  end.

Lemma mergeEdges_stored a b :
  is_stored a = true -> is_stored b = true ->
  mergeEdges a b = Ok (unionOf a b).
Proof.
  destruct a as [| | |[] wa], b as [| | |[] wb]; simpl; intros; try discriminate;
    reflexivity.
Qed.

Lemma unionOf_stored a b : is_stored (unionOf a b) = true.
Proof.
  unfold unionOf. destruct a as [| | |[] wa], b as [| | |[] wb]; reflexivity.
Qed.

Lemma unionOf_Zero_r a : is_stored a = true -> unionOf (unionOf a Zero) Zero = unionOf a Zero.
Proof. destruct a as [| | |[] wa]; simpl; intros; try discriminate; reflexivity. Qed.

Section Surgery.
Variables (L loIndex hiIndex unionIndex : nat).
Hypothesis lo_hi : loIndex < hiIndex.
Hypothesis hi_union : hiIndex < unionIndex.
Hypothesis union_L : unionIndex < L.

Variable len : nat -> nat.
Variable content : nat -> nat -> cell.

(** The cells after [k] rounds of the loop of [horizontalOverlap]. *)
Definition content1 (k r i : nat) : cell :=
  if (r =? unionIndex) && (i <? k)
  then unionOf (content loIndex i) (content hiIndex i)
  else if (r =? loIndex) && (i <? k) then Null
  else content r i.

Lemma horizontalOverlap_Shape m :
  Shape m L len content ->
  loIndex <= len loIndex -> loIndex <= len unionIndex ->
  (forall i, i < loIndex ->
     is_stored (content loIndex i) = true /\ is_stored (content hiIndex i) = true) ->
  exists m',
    horizontalOverlap loIndex hiIndex unionIndex m = Ok m' /\
    Shape m' L len (content1 loIndex).
Proof.
  intros Hm Hl1 Hl2 Hst. unfold horizontalOverlap.
  apply (for_rangeM_ind (fun k m => Shape m L len (content1 k))); [lia| |].
  - eapply Shape_ext; [exact Hm|reflexivity|].
    intros r i. unfold content1. nat_cases.
  - intros k mk Hk Hmk.
    rewrite (readCell_Shape _ _ _ _ loIndex k Hmk) by lia. cbn [bind].
    rewrite (readCell_Shape _ _ _ _ hiIndex k Hmk) by lia. cbn [bind].
    assert (E1 : content1 k loIndex k = content loIndex k)
      by (unfold content1; nat_cases).
    assert (E2 : content1 k hiIndex k = content hiIndex k)
      by (unfold content1; nat_cases).
    rewrite E1, E2.
    rewrite mergeEdges_stored by (apply Hst; lia). cbn [bind].
    destruct (writeCell_Shape _ _ _ _ unionIndex k
                (unionOf (content loIndex k) (content hiIndex k)) Hmk)
      as (m1 & W1 & Hm1); [lia|].
    rewrite W1. cbn [bind].
    destruct (writeCell_Shape _ _ _ _ loIndex k Null Hm1) as (m2 & W2 & Hm2); [lia|].
    exists m2. split; [exact W2|].
    eapply Shape_ext; [exact Hm2| |].
    + intros r. nat_cases.
    + intros r i. unfold content1. nat_cases.
Qed.

(** The cells after the two loops of [horizontalHiOvershoot]. *)
Definition content2a (k r i : nat) : cell :=
  if (r =? unionIndex) && (loIndex <? i) && (i <? k)
  then unionOf (content hiIndex i) Zero
  else content r i.

Definition content2b (k r i : nat) : cell :=
  if (r =? hiIndex) && (i <? k) then Null
  else content2a hiIndex r i.

Lemma horizontalHiOvershoot_Shape m :
  Shape m L len content ->
  hiIndex <= len hiIndex -> hiIndex <= len unionIndex ->
  (forall i, loIndex < i < hiIndex -> is_stored (content hiIndex i) = true) ->
  exists m',
    horizontalHiOvershoot loIndex hiIndex unionIndex m = Ok m' /\
    Shape m' L len (content2b hiIndex).
Proof.
  intros Hm Hl1 Hl2 Hst. unfold horizontalHiOvershoot.
  destruct (for_rangeM_ind (fun k m => Shape m L len (content2a k))
              (loIndex + 1) hiIndex
              (fun newGraph i =>
                 b <- readCell newGraph hiIndex i ;;
                 u <- mergeEdges b Zero ;;
                 writeCell newGraph unionIndex i u) m) as (ma & Ea & Hma); [lia| | |].
  - eapply Shape_ext; [exact Hm|reflexivity|].
    intros r i. unfold content2a. nat_cases.
  - intros k mk Hk Hmk.
    rewrite (readCell_Shape _ _ _ _ hiIndex k Hmk) by lia. cbn [bind].
    assert (E1 : content2a k hiIndex k = content hiIndex k)
      by (unfold content2a; nat_cases).
    rewrite E1, mergeEdges_stored by (try apply Hst; auto; lia). cbn [bind].
    destruct (writeCell_Shape _ _ _ _ unionIndex k
                (unionOf (content hiIndex k) Zero) Hmk) as (m1 & W1 & Hm1); [lia|].
    exists m1. split; [exact W1|].
    eapply Shape_ext; [exact Hm1| |].
    + intros r. nat_cases.
    + intros r i. unfold content2a. nat_cases.
  - rewrite Ea. cbn [bind].
    apply (for_rangeM_ind (fun k m => Shape m L len (content2b k))); [lia| |].
    + eapply Shape_ext; [exact Hma|reflexivity|].
      intros r i. unfold content2b. nat_cases.
    + intros k mk Hk Hmk.
      destruct (writeCell_Shape _ _ _ _ hiIndex k Null Hmk) as (m1 & W1 & Hm1); [lia|].
      exists m1. split; [exact W1|].
      eapply Shape_ext; [exact Hm1| |].
      * intros r. nat_cases.
      * intros r i. unfold content2b. nat_cases.
Qed.

(** The row lengths and the cells after [k - hiIndex - 1] rounds of the
    loop of [verticalOverlap]; this is the loop that may lengthen the
    new row. *)
Definition len3 (k r : nat) : nat :=
  if (r =? unionIndex) && (hiIndex + 1 <? k) then Nat.max (len r) k else len r.

Definition content3 (k r i : nat) : cell :=
  if (r =? unionIndex) && (hiIndex <? i) && (i <? k)
  then unionOf (content i loIndex) (content i hiIndex)
  else if (hiIndex <? r) && (r <? k) && ((i =? loIndex) || (i =? hiIndex)) then Null
  else content r i.

Lemma verticalOverlap_Shape m :
  Shape m L len content ->
  (forall i, hiIndex < i < unionIndex ->
     hiIndex < len i /\
     is_stored (content i loIndex) = true /\ is_stored (content i hiIndex) = true) ->
  exists m',
    verticalOverlap loIndex hiIndex unionIndex m = Ok m' /\
    Shape m' L (len3 unionIndex) (content3 unionIndex).
Proof.
  intros Hm Hst. unfold verticalOverlap.
  apply (for_rangeM_ind (fun k m => Shape m L (len3 k) (content3 k))); [lia| |].
  - eapply Shape_ext; [exact Hm| |].
    + intros r. unfold len3. nat_cases.
    + intros r i. unfold content3. nat_cases.
  - intros k mk Hk Hmk.
    rewrite (readCell_Shape _ _ _ _ k loIndex Hmk) by lia. cbn [bind].
    rewrite (readCell_Shape _ _ _ _ k hiIndex Hmk) by lia. cbn [bind].
    assert (E1 : content3 k k loIndex = content k loIndex)
      by (unfold content3; nat_cases).
    assert (E2 : content3 k k hiIndex = content k hiIndex)
      by (unfold content3; nat_cases).
    rewrite E1, E2.
    rewrite mergeEdges_stored by (apply Hst; lia). cbn [bind].
    destruct (writeCell_Shape _ _ _ _ unionIndex k
                (unionOf (content k loIndex) (content k hiIndex)) Hmk)
      as (m1 & W1 & Hm1); [lia|].
    rewrite W1. cbn [bind].
    destruct (writeCell_Shape _ _ _ _ k loIndex Null Hm1) as (m2 & W2 & Hm2); [lia|].
    rewrite W2. cbn [bind].
    destruct (writeCell_Shape _ _ _ _ k hiIndex Null Hm2) as (m3 & W3 & Hm3); [lia|].
    exists m3. split; [exact W3|].
    destruct (Hst k ltac:(lia)) as (Hlen & _).
    eapply Shape_ext; [exact Hm3| |].
    + intros r. unfold len3. nat_cases.
    + intros r i. unfold content3. nat_cases.
Qed.

(** The cells after the loop of [verticalLoOvershoot]. *)
Definition content4 (k r i : nat) : cell :=
  if (r =? unionIndex) && (loIndex <? i) && (i <? k)
  then unionOf (content i loIndex) (content unionIndex i)
  else if (loIndex <? r) && (r <? k) && (i =? loIndex) then Null
  else content r i.

Lemma verticalLoOvershoot_Shape m :
  Shape m L len content ->
  hiIndex <= len unionIndex ->
  (forall i, loIndex < i < hiIndex ->
     loIndex < len i /\
     is_stored (content i loIndex) = true /\
     is_stored (content unionIndex i) = true) ->
  exists m',
    verticalLoOvershoot loIndex hiIndex unionIndex m = Ok m' /\
    Shape m' L len (content4 hiIndex).
Proof.
  intros Hm Hl Hst. unfold verticalLoOvershoot.
  apply (for_rangeM_ind (fun k m => Shape m L len (content4 k))); [lia| |].
  - eapply Shape_ext; [exact Hm|reflexivity|].
    intros r i. unfold content4. nat_cases.
  - intros k mk Hk Hmk.
    rewrite (readCell_Shape _ _ _ _ k loIndex Hmk) by lia. cbn [bind].
    rewrite (readCell_Shape _ _ _ _ unionIndex k Hmk) by lia. cbn [bind].
    assert (E1 : content4 k k loIndex = content k loIndex)
      by (unfold content4; nat_cases).
    assert (E2 : content4 k unionIndex k = content unionIndex k)
      by (unfold content4; nat_cases).
    rewrite E1, E2.
    rewrite mergeEdges_stored by (apply Hst; lia). cbn [bind].
    destruct (writeCell_Shape _ _ _ _ unionIndex k
                (unionOf (content k loIndex) (content unionIndex k)) Hmk)
      as (m1 & W1 & Hm1); [lia|].
    rewrite W1. cbn [bind].
    destruct (writeCell_Shape _ _ _ _ k loIndex Null Hm1) as (m2 & W2 & Hm2); [lia|].
    exists m2. split; [exact W2|].
    destruct (Hst k ltac:(lia)) as (Hlen & _).
    eapply Shape_ext; [exact Hm2| |].
    + intros r. nat_cases.
    + intros r i. unfold content4. nat_cases.
Qed.

End Surgery.

(** ** The matrix surgery, as a whole *)

(** Deleting the positions [lo] and [hi] of an array, as the two
    [splice] calls do. *)
Definition deleteBoth {A : Type} (lo hi : nat) (l : list A) : list A :=
  splice1 (splice1 l lo) (hi - 1).

(** The old position of the element that ends at position [j]. *)
Definition unshift (lo hi j : nat) : nat :=
  if j <? lo then j else if j <? hi - 1 then j + 1 else j + 2.

(** The position at which the old element [k] ends. *)
Definition newIndex (lo hi k : nat) : nat :=
  k - (if lo <? k then 1 else 0) - (if hi <? k then 1 else 0).

Lemma nth_deleteBoth {A : Type} lo hi (l : list A) j d :
  lo < hi -> nth j (deleteBoth lo hi l) d = nth (unshift lo hi j) l d.
Proof.
  intros H. unfold deleteBoth, unshift.
  destruct (Nat.ltb_spec j lo).
  - rewrite nth_splice1_lt by lia. apply nth_splice1_lt. lia.
  - destruct (Nat.ltb_spec j (hi - 1)).
    + rewrite nth_splice1_lt by lia. rewrite nth_splice1_ge by lia.
      f_equal. lia.
    + rewrite nth_splice1_ge by lia. rewrite nth_splice1_ge by lia.
      f_equal. lia.
Qed.

Lemma length_deleteBoth {A : Type} lo hi (l : list A) :
  lo < hi ->
  length (deleteBoth lo hi l) =
    length l - (if lo <? length l then 1 else 0) - (if hi <? length l then 1 else 0).
Proof.
  intros H. unfold deleteBoth.
  destruct (Nat.ltb_spec lo (length l)).
  - destruct (Nat.ltb_spec hi (length l)).
    + rewrite splice1_length; rewrite splice1_length; lia.
    + rewrite (splice1_out (splice1 l lo)); rewrite splice1_length; lia.
  - rewrite (splice1_out l lo) by lia. rewrite splice1_out by lia.
    destruct (Nat.ltb_spec hi (length l)); lia.
Qed.

Lemma unshift_newIndex lo hi k :
  lo < hi -> k <> lo -> k <> hi -> unshift lo hi (newIndex lo hi k) = k.
Proof. intros. unfold unshift, newIndex. nat_cases. Qed.

Lemma newIndex_unshift lo hi j :
  lo < hi -> newIndex lo hi (unshift lo hi j) = j.
Proof. intros. unfold unshift, newIndex. nat_cases. Qed.

Lemma unshift_survivor lo hi j :
  lo < hi -> unshift lo hi j <> lo /\ unshift lo hi j <> hi.
Proof. intros. unfold unshift. nat_cases. Qed.

Lemma removeNulls_stored (row : list cell) :
  (forall i, i < length row -> is_stored (cell_at row i) = true) ->
  removeNulls row = row.
Proof.
  unfold cell_at.
  induction row as [|c row IH]; intros H; [reflexivity|]. simpl.
  assert (Hc := H 0 ltac:(simpl; lia)). simpl in Hc.
  destruct c; simpl in *; try discriminate; f_equal; apply IH;
    intros i Hi; apply (H (S i)); lia.
Qed.

Lemma removeNulls_hole (row row' : list cell) h :
  length row' = length row ->
  (forall i, i < length row ->
     cell_at row' i = if i =? h then Null else cell_at row i) ->
  (forall i, i < length row -> is_stored (cell_at row i) = true) ->
  removeNulls row' = splice1 row h.
Proof.
  unfold cell_at.
  revert row' h. induction row as [|c row IH]; intros [|c' row'] h Hl Hc Hs;
    simpl in Hl; try discriminate; [reflexivity|].
  assert (H0 := Hc 0 ltac:(simpl; lia)). simpl in H0.
  assert (S0 := Hs 0 ltac:(simpl; lia)). simpl in S0.
  destruct h as [|h]; simpl in *.
  - subst c'. simpl.
    assert (E : row' = row).
    { apply (nth_ext _ _ Undefined Undefined); [lia|].
      intros i Hi. apply (Hc (S i)). lia. }
    subst row'. apply removeNulls_stored.
    intros i Hi. apply (Hs (S i)). lia.
  - subst c'. destruct c; simpl in *; try discriminate; f_equal;
      (apply IH; [lia| |];
       [intros i Hi; apply (Hc (S i)); lia|intros i Hi; apply (Hs (S i)); lia]).
Qed.

Lemma removeNulls_holes (row row' : list cell) lo hi :
  lo < hi ->
  length row' = length row ->
  (forall i, i < length row ->
     cell_at row' i = if (i =? lo) || (i =? hi) then Null else cell_at row i) ->
  (forall i, i < length row -> is_stored (cell_at row i) = true) ->
  removeNulls row' = deleteBoth lo hi row.
Proof.
  unfold deleteBoth, cell_at.
  revert row' lo hi. induction row as [|c row IH]; intros [|c' row'] lo hi Hlt Hl Hc Hs;
    simpl in Hl; try discriminate; [reflexivity|].
  assert (H0 := Hc 0 ltac:(simpl; lia)). simpl in H0.
  assert (S0 := Hs 0 ltac:(simpl; lia)). simpl in S0.
  destruct lo as [|lo]; simpl in *.
  - subst c'. simpl. apply removeNulls_hole; [lia| |].
    + intros i Hi. assert (E := Hc (S i) ltac:(lia)). simpl in E.
      unfold cell_at. rewrite E.
      destruct hi as [|hi]; [lia|]. simpl. rewrite Nat.sub_0_r. reflexivity.
    + intros i Hi. apply (Hs (S i)). lia.
  - destruct hi as [|hi]; [lia|]. simpl in *. subst c'.
    rewrite Nat.sub_0_r.
    destruct hi as [|hi]; [lia|]. simpl.
    destruct c; simpl in *; try discriminate; f_equal;
      (specialize (IH row' lo (S hi)); simpl in IH; rewrite Nat.sub_0_r in IH;
       apply IH; [lia|lia| |];
       [intros i Hi; apply (Hc (S i)); lia|intros i Hi; apply (Hs (S i)); lia]).
Qed.

(** The loop that removes the nulls of all rows but the last. *)
Lemma removeNulls_loop n (m : list (list cell)) :
  n <= length m ->
  for_range 0 n (fun newGraph i =>
    array_set [] newGraph i (removeNulls (nth i newGraph []))) m =
  map removeNulls (firstn n m) ++ skipn n m.
Proof.
  intros Hn.
  apply (for_range_ind (fun k mk =>
    k <= length m -> mk = map removeNulls (firstn k m) ++ skipn k m)); [lia| | |exact Hn].
  - intros _. reflexivity.
  - intros k mk Hk IH Hk'. rewrite IH by lia. clear IH.
    apply (nth_ext _ _ [] []).
    + rewrite array_set_length_in;
        rewrite !length_app, !length_map, !length_firstn, !length_skipn; lia.
    + intros j Hj.
      assert (Hlen : length (map removeNulls (firstn k m)) = k)
        by (rewrite length_map, length_firstn; lia).
      assert (Hlen' : length (map removeNulls (firstn (S k) m)) = S k)
        by (rewrite length_map, length_firstn; lia).
      assert (Ek : nth k (map removeNulls (firstn k m) ++ skipn k m) [] = nth k m []).
      { rewrite app_nth2 by lia. rewrite Hlen, Nat.sub_diag, nth_skipn.
        f_equal. lia. }
      rewrite Ek.
      destruct (Nat.eq_dec j k) as [->|Hne].
      * rewrite nth_array_set_eq. rewrite app_nth1 by lia.
        change [] with (removeNulls []) at 2. rewrite map_nth.
        rewrite nth_firstn.
        replace (k <? S k) with true by (symmetry; apply Nat.ltb_lt; lia).
        reflexivity.
      * rewrite nth_array_set_ne by congruence.
        destruct (Nat.lt_ge_cases j k).
        -- rewrite !app_nth1 by lia.
           change [] with (removeNulls []). rewrite !map_nth.
           rewrite !nth_firstn.
           replace (j <? k) with true by (symmetry; apply Nat.ltb_lt; lia).
           replace (j <? S k) with true by (symmetry; apply Nat.ltb_lt; lia).
           reflexivity.
        -- rewrite !app_nth2 by lia. rewrite Hlen, Hlen', !nth_skipn.
           f_equal. lia.
Qed.

(** The stored relation between two nodes, read off a matrix. *)
Definition rel (m : list (list cell)) (u v : nat) : cell :=
  if v <? u then cellOf m u v
  else if u <? v then cellOf m v u
  else Zero.

(** The row of the merged node, before the cells at [lo] and [hi] are
    dropped from it. *)
Definition unionRow (lo hi : nat) (m : list (list cell)) : list cell :=
  map (fun k => unionOf (rel m lo k) (rel m hi k)) (seq 0 (length m)).

(** The matrix after the merge of [lo] and [hi]: the row of the merged
    node is appended, then the rows and the columns [lo] and [hi] are
    deleted. *)
Definition mergedMatrix (lo hi : nat) (m : list (list cell)) : list (list cell) :=
  deleteBoth lo hi (map (deleteBoth lo hi) (m ++ [unionRow lo hi m])).

(** Row [r] holds [r] cells, each the number 0 or an edge. *)
Definition well_formed (m : list (list cell)) : bool :=
  forallb (fun r => (length (nth r m []) =? r) && forallb is_stored (nth r m []))
          (seq 0 (length m)).

Lemma well_formed_spec m :
  well_formed m = true ->
  forall r, r < length m ->
    rowLen m r = r /\ forall i, i < r -> is_stored (cellOf m r i) = true.
Proof.
  intros H r Hr. unfold well_formed in H. rewrite forallb_forall in H.
  specialize (H r ltac:(apply in_seq; lia)). apply andb_prop in H.
  destruct H as [H1 H2]. apply Nat.eqb_eq in H1. split; [exact H1|].
  intros i Hi. rewrite forallb_forall in H2. apply H2.
  unfold cellOf, cell_at. apply nth_In. lia.
Qed.

Lemma unionOf_absorb a b : unionOf a (unionOf b Zero) = unionOf a b.
Proof. destruct a as [| | |[] wa], b as [| | |[] wb]; reflexivity. Qed.

Lemma Shape_row m L len content r :
  Shape m L len content ->
  length (nth r m []) = len r /\
  forall i, nth i (nth r m []) Undefined = content r i.
Proof. intros (_ & H2 & H3). split; [apply H2|]. intros i. apply H3. Qed.

Section MergeClosedForm.
Context {Stop : Type}.
Variable mergeWith : Stop -> Stop -> Stop.
Variables (loIndex hiIndex : nat) (m : list (list cell)) (stops : list Stop).
Variables (stopLo stopHi : Stop).
Hypothesis wf : well_formed m = true.
Hypothesis lo_hi : loIndex < hiIndex.
Hypothesis hi_N : hiIndex < length m.
Hypothesis stop_lo : nth_error stops loIndex = Some stopLo.
Hypothesis stop_hi : nth_error stops hiIndex = Some stopHi.

Lemma merge_closed_form :
  merge mergeWith loIndex hiIndex (m, stops) =
  Ok (mergedMatrix loIndex hiIndex m,
      deleteBoth loIndex hiIndex (stops ++ [mergeWith stopLo stopHi])).
Proof.
  assert (Hwf := well_formed_spec m wf).
  unfold merge. rewrite stop_lo, stop_hi. unfold push.
  assert (HN : length (m ++ [repeat Zero (length m - 1)]) - 1 = length m)
    by (rewrite length_app; simpl; lia).
  rewrite HN. clear HN.
  set (N := length m) in *.
  set (m0 := m ++ [repeat Zero (N - 1)]).
  pose (len0 := fun r => if r <? N then r else if r =? N then N - 1 else 0).
  assert (Hm0 : Shape m0 (S N) len0 (cellOf m0)).
  { split; [|split].
    - unfold m0. rewrite length_app. simpl. lia.
    - intros r. unfold rowLen, m0, len0.
      destruct (Nat.ltb_spec r N).
      + rewrite app_nth1 by exact H. apply Hwf, H.
      + rewrite app_nth2 by exact H. fold N.
        destruct (Nat.eqb_spec r N) as [->|Hne].
        * rewrite Nat.sub_diag. simpl. apply repeat_length.
        * destruct (r - N) as [|[|k]] eqn:E; [lia|reflexivity|reflexivity].
    - reflexivity. }
  assert (Hc0 : forall r i, r < N -> cellOf m0 r i = cellOf m r i).
  { intros r i Hr. unfold cellOf, m0. rewrite app_nth1 by exact Hr. reflexivity. }
  assert (Hst0 : forall r i, i < r -> r < N -> is_stored (cellOf m0 r i) = true).
  { intros r i Hi Hr. rewrite Hc0 by exact Hr. apply Hwf; assumption. }
  (* the four loops *)
  destruct (horizontalOverlap_Shape (S N) loIndex hiIndex N lo_hi hi_N
              (Nat.lt_succ_diag_r N) len0 (cellOf m0) m0 Hm0)
    as (m1 & E1 & H1).
  { unfold len0. nat_cases. }
  { unfold len0. nat_cases. }
  { intros i Hi. split; apply Hst0; lia. }
  rewrite E1. cbn [bind]. clear E1.
  set (c1 := content1 loIndex hiIndex N (cellOf m0) loIndex) in *.
  destruct (horizontalHiOvershoot_Shape (S N) loIndex hiIndex N lo_hi hi_N
              (Nat.lt_succ_diag_r N) len0 c1 m1 H1)
    as (m2 & E2 & H2).
  { unfold len0. nat_cases. }
  { unfold len0. nat_cases. }
  { intros i Hi. unfold c1, content1. nat_cases. apply Hst0; lia. }
  rewrite E2. cbn [bind]. clear E2.
  set (c2 := content2b loIndex hiIndex N c1 hiIndex) in *.
  destruct (verticalOverlap_Shape (S N) loIndex hiIndex N lo_hi hi_N
              (Nat.lt_succ_diag_r N) len0 c2 m2 H2)
    as (m3 & E3 & H3).
  { intros i Hi. split; [unfold len0; nat_cases|].
    split; unfold c2, content2b, content2a, c1, content1; nat_cases;
      apply Hst0; lia. }
  rewrite E3. cbn [bind]. clear E3.
  set (c3 := content3 loIndex hiIndex N c2 N) in *.
  set (l3 := len3 hiIndex N len0 N) in *.
  destruct (verticalLoOvershoot_Shape (S N) loIndex hiIndex N lo_hi hi_N
              (Nat.lt_succ_diag_r N) l3 c3 m3 H3)
    as (m4 & E4 & H4).
  { unfold l3, len3, len0. nat_cases. }
  { intros i Hi. split; [unfold l3, len3, len0; nat_cases|].
    split; unfold c3, content3, c2, content2b, content2a, c1, content1; nat_cases;
      try (apply Hst0; lia); apply unionOf_stored. }
  rewrite E4. cbn [bind]. clear E4.
  set (c4 := content4 loIndex N c3 hiIndex) in *.
  assert (Hl4 : length m4 = S N) by apply H4.
  unfold row_at. rewrite (nth_error_nth' m4 []) by lia. cbn [bind].
  do 2 f_equal.
  change (splice1 (splice1 (nth N m4 []) loIndex) (hiIndex - 1))
    with (deleteBoth loIndex hiIndex (nth N m4 [])).
  set (m5 := array_set [] m4 N (deleteBoth loIndex hiIndex (nth N m4 []))).
  change (splice1 (splice1 m5 loIndex) (hiIndex - 1))
    with (deleteBoth loIndex hiIndex m5).
  set (m6 := deleteBoth loIndex hiIndex m5).
  assert (Hl5 : length m5 = S N)
    by (unfold m5; rewrite array_set_length_in; lia).
  assert (Hl6 : length m6 = N - 1).
  { unfold m6. rewrite length_deleteBoth by exact lo_hi. rewrite Hl5. nat_cases. }
  rewrite removeNulls_loop by lia. rewrite Hl6.
  replace (N - 1 - 1) with (N - 2) by lia.
  (* the rows of the survivors *)
  assert (Hrow : forall k, k < N -> k <> loIndex -> k <> hiIndex ->
    removeNulls (nth k m4 []) = deleteBoth loIndex hiIndex (nth k m [])).
  { intros k Hk Hklo Hkhi.
    destruct (Shape_row _ _ _ _ k H4) as [Hlen Hcell].
    assert (Hlen0 : length (nth k m []) = k) by (apply Hwf, Hk).
    apply removeNulls_holes; [exact lo_hi| | |].
    - rewrite Hlen, Hlen0. unfold l3, len3, len0. nat_cases.
    - intros i Hi. rewrite Hlen0 in Hi. unfold cell_at. rewrite Hcell.
      fold (cell_at (nth k m []) i). fold (cellOf m k i). rewrite <- Hc0 by exact Hk.
      unfold c4, content4, c3, content3, c2, content2b, content2a, c1, content1.
      nat_cases.
    - intros i Hi. rewrite Hlen0 in Hi. apply (proj2 (Hwf k Hk)). exact Hi. }
  (* the row of the merged node *)
  assert (Hunion :
    deleteBoth loIndex hiIndex (nth N m4 []) =
    deleteBoth loIndex hiIndex (unionRow loIndex hiIndex m)).
  { destruct (Shape_row _ _ _ _ N H4) as [Hlen Hcell].
    assert (Hlu : length (unionRow loIndex hiIndex m) = N)
      by (unfold unionRow; rewrite length_map, length_seq; reflexivity).
    assert (Hl : length (deleteBoth loIndex hiIndex (nth N m4 [])) = N - 2).
    { rewrite length_deleteBoth, Hlen by exact lo_hi.
      unfold l3, len3, len0. nat_cases. }
    apply (nth_ext _ _ Undefined Undefined).
    - rewrite Hl, length_deleteBoth, Hlu by exact lo_hi. nat_cases.
    - intros i Hi. rewrite Hl in Hi. rewrite !nth_deleteBoth by exact lo_hi.
      rewrite Hcell.
      destruct (unshift_survivor loIndex hiIndex i lo_hi) as [Hklo Hkhi].
      assert (Hk : unshift loIndex hiIndex i < N) by (unfold unshift; nat_cases).
      set (k := unshift loIndex hiIndex i) in *.
      unfold unionRow.
      rewrite (nth_indep _ Undefined
                 ((fun k => unionOf (rel m loIndex k) (rel m hiIndex k)) 0))
        by (rewrite length_map, length_seq; exact Hk).
      rewrite (map_nth (fun k => unionOf (rel m loIndex k) (rel m hiIndex k))).
      rewrite seq_nth by exact Hk. simpl.
      unfold rel.
      unfold c4, content4, c3, content3, c2, content2b, content2a, c1, content1.
      nat_cases; rewrite ?unionOf_absorb, ?Hc0 by lia; reflexivity. }
  unfold mergedMatrix.
  apply (nth_ext _ _ [] []).
  - rewrite length_app, length_map, length_firstn, length_skipn, Hl6.
    rewrite length_deleteBoth, length_map, length_app by exact lo_hi.
    simpl. fold N. nat_cases.
  - intros j Hj.
    rewrite length_app, length_map, length_firstn, length_skipn, Hl6 in Hj.
    assert (Hj' : j < N - 1) by lia.
    rewrite (nth_deleteBoth loIndex hiIndex (map _ _)) by exact lo_hi.
    change [] with (deleteBoth loIndex hiIndex (@nil cell)) at 3.
    rewrite (map_nth (deleteBoth loIndex hiIndex)).
    destruct (unshift_survivor loIndex hiIndex j lo_hi) as [Hklo Hkhi].
    destruct (Nat.lt_ge_cases j (N - 2)) as [Hlt|Hge].
    + assert (Hk : unshift loIndex hiIndex j < N) by (unfold unshift; nat_cases).
      rewrite app_nth1 by (rewrite length_map, length_firstn; lia).
      change [] with (removeNulls []) at 1. rewrite map_nth.
      rewrite nth_firstn.
      replace (j <? N - 2) with true by (symmetry; apply Nat.ltb_lt; lia).
      unfold m6. rewrite nth_deleteBoth by exact lo_hi.
      unfold m5. rewrite nth_array_set_ne by lia.
      rewrite app_nth1 by exact Hk.
      apply Hrow; assumption.
    + assert (Hk : unshift loIndex hiIndex j = N) by (unfold unshift; nat_cases).
      rewrite app_nth2 by (rewrite length_map, length_firstn; lia).
      rewrite length_map, length_firstn, nth_skipn.
      replace (N - 2 + (j - Nat.min (N - 2) (length m6))) with j by lia.
      unfold m6. rewrite nth_deleteBoth by exact lo_hi. rewrite Hk.
      unfold m5. rewrite nth_array_set_eq.
      rewrite app_nth2 by (fold N; lia). fold N. rewrite Nat.sub_diag. simpl.
      exact Hunion.
Qed.

End MergeClosedForm.

(** ** The merged matrix, cell by cell *)

Section MergedMatrix.
Variables (lo hi : nat) (m : list (list cell)).
Hypothesis wf : well_formed m = true.
Hypothesis lo_hi : lo < hi.
Hypothesis hi_N : hi < length m.

Lemma mergedMatrix_length : length (mergedMatrix lo hi m) = length m - 1.
Proof.
  unfold mergedMatrix.
  rewrite length_deleteBoth, length_map, length_app by exact lo_hi.
  simpl. nat_cases.
Qed.

Lemma mergedMatrix_row r :
  nth r (mergedMatrix lo hi m) [] =
  deleteBoth lo hi (nth (unshift lo hi r) (m ++ [unionRow lo hi m]) []).
Proof.
  unfold mergedMatrix. rewrite nth_deleteBoth by exact lo_hi.
  change (@nil cell) with (deleteBoth lo hi (@nil cell)) at 1.
  apply (map_nth (deleteBoth lo hi)).
Qed.

Lemma mergedMatrix_cell r i :
  cellOf (mergedMatrix lo hi m) r i =
  cellOf (m ++ [unionRow lo hi m]) (unshift lo hi r) (unshift lo hi i).
Proof.
  unfold cellOf, cell_at. rewrite mergedMatrix_row.
  apply nth_deleteBoth. exact lo_hi.
Qed.

Lemma unionRow_cell k :
  k < length m ->
  cellOf (m ++ [unionRow lo hi m]) (length m) k =
  unionOf (rel m lo k) (rel m hi k).
Proof.
  intros Hk. unfold cellOf, cell_at.
  rewrite app_nth2, Nat.sub_diag by lia. simpl. unfold unionRow.
  rewrite (nth_indep _ Undefined
             ((fun k => unionOf (rel m lo k) (rel m hi k)) 0))
    by (rewrite length_map, length_seq; exact Hk).
  rewrite (map_nth (fun k => unionOf (rel m lo k) (rel m hi k))).
  rewrite seq_nth by exact Hk. reflexivity.
Qed.

(** The cell of the merged node towards a survivor. *)
Lemma mergedMatrix_union k :
  k < length m -> k <> lo -> k <> hi ->
  cellOf (mergedMatrix lo hi m) (length m - 2) (newIndex lo hi k) =
  unionOf (rel m lo k) (rel m hi k).
Proof.
  intros Hk Hlo Hhi. rewrite mergedMatrix_cell.
  rewrite unshift_newIndex by assumption.
  replace (unshift lo hi (length m - 2)) with (length m)
    by (unfold unshift; nat_cases).
  apply unionRow_cell, Hk.
Qed.

(** The cell between two survivors. *)
Lemma mergedMatrix_survivors j k :
  k < length m -> j <> lo -> j <> hi -> k <> lo -> k <> hi ->
  cellOf (mergedMatrix lo hi m) (newIndex lo hi k) (newIndex lo hi j) =
  cellOf m k j.
Proof.
  intros Hk Hjlo Hjhi Hklo Hkhi. rewrite mergedMatrix_cell.
  rewrite !unshift_newIndex by assumption.
  unfold cellOf. rewrite app_nth1 by exact Hk. reflexivity.
Qed.

Lemma rel_stored u v :
  u < length m -> v < length m -> is_stored (rel m u v) = true.
Proof.
  intros Hu Hv. unfold rel.
  destruct (Nat.ltb_spec v u); [apply (well_formed_spec m wf u Hu); exact H|].
  destruct (Nat.ltb_spec u v); [apply (well_formed_spec m wf v Hv); exact H0|].
  reflexivity.
Qed.

Lemma mergedMatrix_well_formed : well_formed (mergedMatrix lo hi m) = true.
Proof.
  assert (Hwf := well_formed_spec m wf).
  unfold well_formed. apply forallb_forall. intros r Hr. apply in_seq in Hr.
  rewrite mergedMatrix_length in Hr.
  set (k := unshift lo hi r).
  assert (Hk : k <= length m) by (unfold k, unshift; nat_cases).
  destruct (unshift_survivor lo hi r lo_hi) as [Hklo Hkhi]. fold k in Hklo, Hkhi.
  assert (Hrk : r = newIndex lo hi k)
    by (unfold k; rewrite newIndex_unshift by exact lo_hi; reflexivity).
  assert (Hlen : length (nth k (m ++ [unionRow lo hi m]) []) = k).
  { destruct (Nat.eq_dec k (length m)) as [E|Hne].
    - rewrite E, app_nth2, Nat.sub_diag by lia. simpl. unfold unionRow.
      rewrite length_map, length_seq. reflexivity.
    - rewrite app_nth1 by lia. apply Hwf. lia. }
  apply andb_true_intro. split.
  - apply Nat.eqb_eq. rewrite mergedMatrix_row. fold k.
    rewrite length_deleteBoth, Hlen by exact lo_hi. rewrite Hrk.
    unfold newIndex. nat_cases.
  - apply forallb_forall. intros c Hc.
    apply (In_nth _ _ Undefined) in Hc. destruct Hc as (i & Hi & <-).
    assert (Hi' : i < r).
    { rewrite mergedMatrix_row in Hi. fold k in Hi.
      rewrite length_deleteBoth, Hlen in Hi by exact lo_hi.
      rewrite Hrk. unfold newIndex. revert Hi. nat_cases. }
    change (is_stored (cellOf (mergedMatrix lo hi m) r i) = true).
    rewrite mergedMatrix_cell. fold k.
    assert (Hik : unshift lo hi i < k) by (unfold k, unshift; nat_cases).
    destruct (Nat.eq_dec k (length m)) as [E|Hne].
    + rewrite E, unionRow_cell by lia. apply unionOf_stored.
    + unfold cellOf. rewrite app_nth1 by lia.
      apply (proj2 (Hwf k ltac:(lia))). exact Hik.
Qed.

End MergedMatrix.

Lemma unionOf_rule a b :
  (a = Zero /\ b = Zero -> unionOf a b = Zero) /\
  (is_transfer_cell a = true \/ is_transfer_cell b = true ->
   unionOf a b = Obj transfer (-1)) /\
  (~ (a = Zero /\ b = Zero) ->
   is_transfer_cell a = false -> is_transfer_cell b = false ->
   unionOf a b = Obj route (-1)).
Proof.
  destruct a as [| | |[] wa], b as [| | |[] wb]; simpl;
    (split;
     [intros [H1 H2]; first [discriminate H1|discriminate H2|reflexivity]
     |split;
      [intros [H|H]; first [discriminate H|reflexivity]
      |intros H H1 H2;
       first [reflexivity|discriminate H1|discriminate H2
             |exfalso; apply H; split; reflexivity]]]).
Qed.

(* ------------------------------------------------------------------ *)
(** ** The merge: the claims *)

(** C3: a merge step succeeds on a well-formed matrix, and leaves one
    row less; the last row is the merged node's and holds one cell per
    surviving node, wherever that node lies relative to [loIndex] and
    [hiIndex]: no edge when neither [loIndex] nor [hiIndex] was related
    to it, a transfer edge of weight -1 when either relation was a
    transfer edge, a route edge of weight -1 otherwise.  Every cell of
    that row belongs to a survivor, so none comes from the edge between
    [loIndex] and [hiIndex]; the relations between survivors are kept. *)
Theorem merge_unions_relations {Stop : Type} (mergeWith : Stop -> Stop -> Stop)
    (loIndex hiIndex : nat) (m : list (list cell)) (stops : list Stop)
    (stopLo stopHi : Stop) :
  well_formed m = true ->
  loIndex < hiIndex -> hiIndex < length m ->
  nth_error stops loIndex = Some stopLo ->
  nth_error stops hiIndex = Some stopHi ->
  exists m' stops',
    merge mergeWith loIndex hiIndex (m, stops) = Ok (m', stops') /\
    length m' = length m - 1 /\
    length (nth (length m - 2) m' []) = length m - 2 /\
    (forall k, k < length m -> k <> loIndex -> k <> hiIndex ->
       let merged := cellOf m' (length m - 2) (newIndex loIndex hiIndex k) in
       let a := rel m loIndex k in
       let b := rel m hiIndex k in
       newIndex loIndex hiIndex k < length m - 2 /\
       mergeEdges a b = Ok merged /\
       (a = Zero /\ b = Zero -> merged = Zero) /\
       (is_transfer_cell a = true \/ is_transfer_cell b = true ->
        merged = Obj transfer (-1)) /\
       (~ (a = Zero /\ b = Zero) ->
        is_transfer_cell a = false -> is_transfer_cell b = false ->
        merged = Obj route (-1))) /\
    (forall i, i < length m - 2 ->
       exists k, k < length m /\ k <> loIndex /\ k <> hiIndex /\
                 newIndex loIndex hiIndex k = i) /\
    (forall j k, k < length m ->
       j <> loIndex -> j <> hiIndex -> k <> loIndex -> k <> hiIndex ->
       cellOf m' (newIndex loIndex hiIndex k) (newIndex loIndex hiIndex j) =
       cellOf m k j) /\
    stops' = deleteBoth loIndex hiIndex (stops ++ [mergeWith stopLo stopHi]).
Proof.
  intros wf lo_hi hi_N Elo Ehi.
  exists (mergedMatrix loIndex hiIndex m),
         (deleteBoth loIndex hiIndex (stops ++ [mergeWith stopLo stopHi])).
  split; [apply merge_closed_form; assumption|].
  split; [apply mergedMatrix_length; assumption|].
  split.
  { assert (H := well_formed_spec _
                   (mergedMatrix_well_formed loIndex hiIndex m wf lo_hi hi_N)
                   (length m - 2)).
    rewrite mergedMatrix_length in H by assumption. apply H. lia. }
  split.
  { intros k Hk Hlo Hhi merged a b. subst merged a b.
    rewrite mergedMatrix_union by assumption.
    split; [unfold newIndex; nat_cases|].
    split; [apply mergeEdges_stored; apply rel_stored; auto; lia|].
    apply unionOf_rule. }
  split.
  { intros i Hi. exists (unshift loIndex hiIndex i).
    destruct (unshift_survivor loIndex hiIndex i lo_hi) as [H1 H2].
    repeat split; auto.
    - unfold unshift. nat_cases.
    - apply newIndex_unshift, lo_hi. }
  split; [|reflexivity].
  intros j k Hk Hjlo Hjhi Hklo Hkhi. apply mergedMatrix_survivors; assumption.
Qed.

(** ** Rebuilding a graph from its own cells *)

(** The edges stored below the diagonal, row by row. *)
Definition edgesOf (m : list (list cell)) : list Edge :=
  flat_map (fun i =>
    flat_map (fun j =>
      match cellOf m i j with
      | Obj t w => [mkEdge t i j w]
      | _ => []
      end) (seq 0 i)) (seq 0 (length m)).

Lemma newEdgeListOf_ok m :
  well_formed m = true -> newEdgeListOf m = Ok (edgesOf m).
Proof.
  intros wf. assert (Hwf := well_formed_spec m wf).
  unfold newEdgeListOf, edgesOf.
  destruct (for_rangeM_ind (fun k es =>
      es = flat_map (fun i =>
             flat_map (fun j =>
               match cellOf m i j with
               | Obj t w => [mkEdge t i j w]
               | _ => []
               end) (seq 0 i)) (seq 0 k))
    0 (length m)
    (fun newEdgeList i =>
       for_rangeM 0 i (fun newEdgeList j =>
         let c := cell_at (nth i m []) j in
         match c with
         | Zero => Ok newEdgeList
         | Obj t w => Ok (push newEdgeList (mkEdge t i j w))
         | Null | Undefined => TypeError
         end) newEdgeList) []) as (es & E & ->); [lia|reflexivity| |exact E].
  intros i es Hi ->.
  destruct (for_rangeM_ind (fun k es' =>
      es' = flat_map (fun i =>
              flat_map (fun j =>
                match cellOf m i j with
                | Obj t w => [mkEdge t i j w]
                | _ => []
                end) (seq 0 i)) (seq 0 i) ++
            flat_map (fun j =>
              match cellOf m i j with
              | Obj t w => [mkEdge t i j w]
              | _ => []
              end) (seq 0 k))
    0 i
    (fun newEdgeList j =>
       let c := cell_at (nth i m []) j in
       match c with
       | Zero => Ok newEdgeList
       | Obj t w => Ok (push newEdgeList (mkEdge t i j w))
       | Null | Undefined => TypeError
       end)
    (flat_map (fun i =>
       flat_map (fun j =>
         match cellOf m i j with
         | Obj t w => [mkEdge t i j w]
         | _ => []
         end) (seq 0 i)) (seq 0 i))) as (es' & E' & ->); [lia| | |].
  - rewrite app_nil_r. reflexivity.
  - intros j es' Hj ->. cbv zeta.
    assert (Hs := proj2 (Hwf i ltac:(lia)) j ltac:(lia)).
    unfold cellOf in *. rewrite seq_0_S, flat_map_app. simpl.
    destruct (cell_at (nth i m []) j); simpl in Hs; try discriminate.
    + eexists. split; [reflexivity|]. rewrite !app_nil_r. reflexivity.
    + eexists. split; [reflexivity|]. unfold push. rewrite app_nil_r, app_assoc.
      reflexivity.
  - exists (flat_map (fun i =>
       flat_map (fun j =>
         match cellOf m i j with
         | Obj t w => [mkEdge t i j w]
         | _ => []
         end) (seq 0 i)) (seq 0 (S i))).
    split; [|reflexivity]. rewrite E'. f_equal.
    rewrite (seq_0_S i), flat_map_app. simpl. rewrite app_nil_r. reflexivity.
Qed.

Lemma In_edgesOf m e :
  In e (edgesOf m) <->
  destination e < origin e /\ origin e < length m /\
  cellOf m (origin e) (destination e) = Obj (type e) (weight e).
Proof.
  unfold edgesOf. rewrite in_flat_map. split.
  - intros (i & Hi & H). apply in_seq in Hi. apply in_flat_map in H.
    destruct H as (j & Hj & H). apply in_seq in Hj.
    destruct (cellOf m i j) eqn:E; simpl in H; try contradiction.
    destruct H as [<-|[]]. simpl. repeat split; try lia. exact E.
  - intros (H1 & H2 & H3). exists (origin e). split; [apply in_seq; lia|].
    apply in_flat_map. exists (destination e). split; [apply in_seq; lia|].
    rewrite H3. left. destruct e; reflexivity.
Qed.

Definition triangleLen (n r : nat) : nat := if r <? n then r else 0.

Lemma zeroTriangle_Shape n :
  Shape (zeroTriangle n) n (triangleLen n) (cellOf (zeroTriangle n)) /\
  forall r i, i < r -> r < n -> cellOf (zeroTriangle n) r i = Zero.
Proof.
  assert (Hrow : forall r, r < n -> nth r (zeroTriangle n) [] = repeat Zero r).
  { intros r Hr. unfold zeroTriangle.
    change [] with ((fun i => repeat Zero i) 0).
    rewrite (map_nth (fun i => repeat Zero i)), seq_nth by exact Hr. reflexivity. }
  split; [split; [|split]|].
  - unfold zeroTriangle. rewrite length_map, length_seq. reflexivity.
  - intros r. unfold rowLen, triangleLen. destruct (Nat.ltb_spec r n).
    + rewrite Hrow by exact H. apply repeat_length.
    + rewrite nth_overflow; [reflexivity|].
      unfold zeroTriangle. rewrite length_map, length_seq. exact H.
  - reflexivity.
  - intros r i Hi Hr. unfold cellOf, cell_at. rewrite Hrow by exact Hr.
    apply nth_repeat_lt. exact Hi.
Qed.

Lemma storeEdge_Shape x L len content e :
  Shape x L len content ->
  destination e < origin e -> origin e < L -> destination e < len (origin e) ->
  Shape (storeEdge x e) L len
    (fun r i =>
       if (r =? origin e) && (i =? destination e)
       then Obj (type e) (weight e) else content r i).
Proof.
  intros Hx Hd Ho Hl.
  destruct (writeCell_Shape x L len content (origin e) (destination e)
              (Obj (type e) (weight e)) Hx Ho) as (x' & W & Hx').
  assert (E : storeEdge x e = x').
  { unfold storeEdge. rewrite Nat.max_l, Nat.min_r by lia.
    replace (destination e <? origin e) with true
      by (symmetry; apply Nat.ltb_lt; exact Hd).
    unfold writeCell, row_at in W.
    rewrite (nth_error_nth' x []) in W by (destruct Hx as [-> _]; exact Ho).
    simpl in W. inversion W. reflexivity. }
  rewrite E. eapply Shape_ext; [exact Hx'| |reflexivity].
  intros r. nat_cases.
Qed.

Lemma fold_storeEdge_Shape (m : list (list cell)) n es :
  forall x content,
  Shape x n (triangleLen n) content ->
  (forall e, In e es ->
     destination e < origin e /\ origin e < n /\
     cellOf m (origin e) (destination e) = Obj (type e) (weight e)) ->
  Shape (fold_left storeEdge es x) n (triangleLen n)
    (fun r i =>
       if existsb (fun e => (origin e =? r) && (destination e =? i)) es
       then cellOf m r i else content r i).
Proof.
  induction es as [|e es IH]; intros x content Hx Hes; simpl.
  - eapply Shape_ext; [exact Hx|reflexivity|reflexivity].
  - destruct (Hes e (or_introl eq_refl)) as (Hd & Ho & Hc).
    assert (Hx' := storeEdge_Shape x n (triangleLen n) content e Hx Hd Ho).
    specialize (Hx' ltac:(unfold triangleLen; nat_cases)).
    specialize (IH _ _ Hx' (fun e' H => Hes e' (or_intror H))).
    eapply Shape_ext; [exact IH|reflexivity|].
    intros r i. cbv beta. simpl existsb.
    destruct (existsb (fun e0 => (origin e0 =? r) && (destination e0 =? i)) es);
      [rewrite orb_true_r; reflexivity|].
    rewrite orb_false_r.
    rewrite (Nat.eqb_sym (origin e) r), (Nat.eqb_sym (destination e) i).
    destruct (Nat.eqb_spec r (origin e)) as [->|]; [|reflexivity].
    destruct (Nat.eqb_spec i (destination e)) as [->|]; [|reflexivity].
    simpl. symmetry. exact Hc.
Qed.

Lemma Shape_unique m m' L len content :
  Shape m L len content -> Shape m' L len content -> m = m'.
Proof.
  intros (H1 & H2 & H3) (H1' & H2' & H3').
  apply (nth_ext _ _ [] []); [congruence|].
  intros r Hr. apply (nth_ext _ _ Undefined Undefined).
  - change (rowLen m r = rowLen m' r). rewrite H2, H2'. reflexivity.
  - intros i Hi. change (cellOf m r i = cellOf m' r i). rewrite H3, H3'.
    reflexivity.
Qed.

(** The constructor, given the edges of a well-formed matrix, builds
    that matrix again. *)
Lemma rebuild m :
  well_formed m = true ->
  fold_left storeEdge (edgesOf m) (zeroTriangle (length m)) = m.
Proof.
  intros wf. assert (Hwf := well_formed_spec m wf).
  destruct (zeroTriangle_Shape (length m)) as [Hz Hzero].
  assert (H := fold_storeEdge_Shape m (length m) (edgesOf m) _ _ Hz
                 (fun e He => proj1 (In_edgesOf m e) He)).
  apply (Shape_unique _ _ _ _ _ H).
  split; [reflexivity|]. split.
  - intros r. unfold triangleLen. destruct (Nat.ltb_spec r (length m)).
    + apply Hwf, H0.
    + unfold rowLen. rewrite nth_overflow by exact H0. reflexivity.
  - intros r i.
    destruct (existsb (fun e => (origin e =? r) && (destination e =? i)) (edgesOf m))
      eqn:Ex; [reflexivity|].
    destruct (Nat.lt_ge_cases r (length m)) as [Hr|Hr].
    + destruct (Nat.lt_ge_cases i r) as [Hi|Hi].
      * rewrite Hzero by assumption.
        assert (Hs := proj2 (Hwf r Hr) i Hi).
        destruct (cellOf m r i) as [| | |t w] eqn:Ec; try discriminate Hs;
          [reflexivity|].
        exfalso.
        assert (Hin : In (mkEdge t r i w) (edgesOf m)).
        { apply In_edgesOf. simpl. repeat split; assumption. }
        assert (Ht : existsb (fun e => (origin e =? r) && (destination e =? i))
                       (edgesOf m) = true).
        { apply existsb_exists. exists (mkEdge t r i w). split; [exact Hin|].
          simpl. rewrite !Nat.eqb_refl. reflexivity. }
        congruence.
      * unfold cellOf, cell_at.
        rewrite !(nth_overflow (nth r _ [])); [reflexivity| |].
        -- change (rowLen (zeroTriangle (length m)) r <= i).
           destruct Hz as (_ & -> & _). unfold triangleLen. nat_cases.
        -- change (rowLen m r <= i). rewrite (proj1 (Hwf r Hr)). exact Hi.
    + unfold cellOf. rewrite !(nth_overflow _ []); [reflexivity| |exact Hr].
      unfold zeroTriangle. rewrite length_map, length_seq. exact Hr.
Qed.

(** ** Depth-first search from a node without unvisited neighbours *)

Lemma dfsExplore_S {Stop : Type} (g : TransitGraph (Stop := Stop))
    fuel st node parent :
  dfsExplore g (S fuel) st node parent =
  (st' <- for_rangeM 0 (numNodes g) (fun st i =>
            if edgeExists g node i && negb (nth i (fst st) false)
            then dfsExplore g fuel st i (Some node)
            else Ok st)
          (array_set false (fst st) node true,
           visitNode node
             (if truthy parent
              then visit (createEdge g (valueOf parent) node) (snd st)
              else snd st)) ;;
   Ok (fst st',
       if truthy parent
       then leave (createEdge g node (valueOf parent)) (snd st')
       else snd st')).
Proof. reflexivity. Qed.

Lemma dfsExplore_leaf {Stop : Type} (g : TransitGraph (Stop := Stop))
    fuel D t node parent :
  (forall i, i < numNodes g -> edgeExists g node i = true ->
     nth i (array_set false D node true) false = true) ->
  exists t',
    dfsExplore g (S fuel) (D, t) node parent =
      Ok (array_set false D node true, t') /\
    visitedNodes t' = visitedNodes t ++ [node].
Proof.
  intros Hno. rewrite dfsExplore_S. cbn [fst snd].
  set (D1 := array_set false D node true) in *.
  set (t1 := visitNode node
               (if truthy parent
                then visit (createEdge g (valueOf parent) node) t else t)).
  assert (Hv : visitedNodes t1 = visitedNodes t ++ [node]).
  { unfold t1. destruct (truthy parent); reflexivity. }
  destruct (for_rangeM_ind (fun _ st => st = (D1, t1)) 0 (numNodes g)
              (fun st i =>
                 if edgeExists g node i && negb (nth i (fst st) false)
                 then dfsExplore g fuel st i (Some node)
                 else Ok st) (D1, t1)) as (st & E & ->); [lia|reflexivity| |].
  - intros i st Hi ->. cbn [fst].
    destruct (edgeExists g node i) eqn:Ee;
      [|exists (D1, t1); split; reflexivity].
    rewrite (Hno i ltac:(lia) Ee). exists (D1, t1). split; reflexivity.
  - cbn [fst snd] in *. rewrite E. cbn [bind fst snd].
    eexists. split; [reflexivity|].
    destruct (truthy parent); simpl; exact Hv.
Qed.

(** ** The transfer graph of a single transfer edge *)

Section SingleTransfer.
Context {Stop : Type}.
Variables (A B n : nat) (w : Z) (ss : list Stop).
Hypothesis A_B : A < B.
Hypothesis B_n : B < n.

Let transferGraph : TransitGraph (Stop := Stop) :=
  newTransitGraph [mkEdge transfer B A w] n ss.

Lemma transferGraph_length : length (G transferGraph) = n.
Proof.
  destruct (zeroTriangle_Shape n) as [Hz _].
  assert (H := storeEdge_Shape _ _ _ _ (mkEdge transfer B A w) Hz).
  simpl in H. specialize (H A_B B_n ltac:(unfold triangleLen; nat_cases)).
  apply H.
Qed.

Lemma transferGraph_edgeExists u v :
  edgeExists transferGraph u v =
  ((u =? A) && (v =? B)) || ((u =? B) && (v =? A)).
Proof.
  destruct (zeroTriangle_Shape n) as [Hz Hzero].
  assert (H := storeEdge_Shape _ _ _ _ (mkEdge transfer B A w) Hz).
  simpl in H. specialize (H A_B B_n ltac:(unfold triangleLen; nat_cases)).
  destruct H as (_ & Hlen & Hc).
  assert (Hcell : forall r i,
    match cellOf (G transferGraph) r i with
    | Obj _ _ => true
    | _ => false
    end = (r =? B) && (i =? A)).
  { intros r i. unfold transferGraph. simpl G. rewrite Hc.
    destruct ((r =? B) && (i =? A)); [reflexivity|].
    destruct (Nat.lt_ge_cases r n) as [Hr|Hr].
    - destruct (Nat.lt_ge_cases i r) as [Hi|Hi].
      + rewrite Hzero by assumption. reflexivity.
      + unfold cellOf, cell_at. rewrite nth_overflow; [reflexivity|].
        change (rowLen (zeroTriangle n) r <= i).
        destruct Hz as (_ & -> & _). unfold triangleLen. nat_cases.
    - unfold cellOf. rewrite (nth_overflow _ []); [destruct i; reflexivity|].
      unfold zeroTriangle. rewrite length_map, length_seq. exact Hr. }
  unfold edgeExists, relation.
  change (cell_at (nth u (G transferGraph) []) v)
    with (cellOf (G transferGraph) u v).
  change (cell_at (nth v (G transferGraph) []) u)
    with (cellOf (G transferGraph) v u).
  destruct (Nat.ltb_spec v u).
  - rewrite Hcell. nat_cases.
  - destruct (Nat.ltb_spec u v).
    + rewrite Hcell. nat_cases.
    + nat_cases.
Qed.

Lemma transferGraph_dfs_alone fuel node :
  node <> A -> node <> B ->
  exists t, dfs transferGraph (S fuel) node BasicTraverser = Ok t /\
            visitedNodes t = [node].
Proof.
  intros HA HB. unfold dfs.
  destruct (dfsExplore_leaf transferGraph fuel
              (repeat false (numNodes transferGraph)) BasicTraverser node None)
    as (t & E & Hv).
  { intros i _ He. rewrite transferGraph_edgeExists in He. revert He. nat_cases. }
  rewrite E. cbn [bind snd]. eexists. split; [reflexivity|]. simpl. exact Hv.
Qed.

Lemma transferGraph_dfs_pair fuel :
  exists t, dfs transferGraph (S (S fuel)) A BasicTraverser = Ok t /\
            visitedNodes t = [A; B].
Proof.
  unfold dfs. rewrite dfsExplore_S. cbn [truthy fst snd].
  set (D0 := repeat false (numNodes transferGraph)).
  set (D1 := array_set false D0 A true).
  set (t1 := visitNode A BasicTraverser).
  assert (HD1 : forall i, nth i D1 false = (i =? A)).
  { intros i. unfold D1. destruct (Nat.eqb_spec i A) as [->|Hne].
    - apply nth_array_set_eq.
    - rewrite nth_array_set_ne by congruence. apply nth_repeat. }
  destruct (dfsExplore_leaf transferGraph fuel D1 t1 B (Some A)) as (t2 & E2 & Hv2).
  { intros i _ He. rewrite transferGraph_edgeExists in He.
    assert (i = A) by (revert He; nat_cases). subst i.
    rewrite nth_array_set_ne by lia. rewrite HD1. apply Nat.eqb_refl. }
  set (D2 := array_set false D1 B true) in *.
  assert (HD2 : forall i, nth i D2 false = (i =? A) || (i =? B)).
  { intros i. unfold D2. destruct (Nat.eqb_spec i B) as [->|Hne].
    - rewrite nth_array_set_eq. rewrite orb_true_r. reflexivity.
    - rewrite nth_array_set_ne by congruence. rewrite HD1, orb_false_r.
      reflexivity. }
  destruct (for_rangeM_ind
              (fun k st => if k <=? B then st = (D1, t1) else st = (D2, t2))
              0 (numNodes transferGraph)
              (fun st i =>
                 if edgeExists transferGraph A i && negb (nth i (fst st) false)
                 then dfsExplore transferGraph (S fuel) st i (Some A)
                 else Ok st) (D1, t1)) as (st & E & Hst); [lia|reflexivity| |].
  - intros i st Hi Hinv. rewrite transferGraph_edgeExists.
    destruct (Nat.leb_spec i B) as [Hle|Hgt].
    + subst st. cbn [fst]. rewrite HD1.
      destruct (Nat.eq_dec i B) as [->|Hne].
      * replace (S B <=? B) with false by (symmetry; apply Nat.leb_gt; lia).
        replace ((A =? A) && (B =? B) || (A =? B) && (B =? A)) with true
          by (rewrite !Nat.eqb_refl; reflexivity).
        replace (B =? A) with false by (symmetry; apply Nat.eqb_neq; lia).
        simpl andb. cbv iota. exists (D2, t2). split; [exact E2|reflexivity].
      * replace (S i <=? B) with true by (symmetry; apply Nat.leb_le; lia).
        replace ((A =? A) && (i =? B) || (A =? B) && (i =? A)) with false
          by (symmetry; nat_cases).
        exists (D1, t1). split; reflexivity.
    + subst st. cbn [fst].
      replace (S i <=? B) with false by (symmetry; apply Nat.leb_gt; lia).
      replace ((A =? A) && (i =? B) || (A =? B) && (i =? A)) with false
        by (symmetry; nat_cases).
      exists (D2, t2). split; reflexivity.
  - change (numNodes transferGraph) with n in *.
    replace (n <=? B) with false in Hst by (symmetry; apply Nat.leb_gt; lia).
    subst st. rewrite E. cbn [bind fst snd truthy].
    eexists. split; [reflexivity|]. simpl. rewrite Hv2. reflexivity.
Qed.

Lemma transferGraph_groupings fuel :
  exists nodeGroupings,
    nodeGroupingsOf (S (S fuel)) transferGraph = Ok nodeGroupings /\
    filter (fun e => 1 <? length e) nodeGroupings = [[A; B]].
Proof.
  unfold nodeGroupingsOf. rewrite transferGraph_length.
  destruct (for_rangeM_ind
    (fun k (acc : list nat * list (list nat)) =>
       (forall x, In x (fst acc) <-> x < k \/ (x = B /\ A < k)) /\
       filter (fun e => 1 <? length e) (snd acc) =
         (if A <? k then [[A; B]] else []))
    0 n
    (fun acc node =>
       let '(seenNodes, nodeGroupings) := acc in
       if existsb (Nat.eqb node) seenNodes then Ok acc
       else
         traverser <- dfs transferGraph (S (S fuel)) node BasicTraverser ;;
         Ok (seenNodes ++ visitedNodes traverser,
             push nodeGroupings (visitedNodes traverser)))
    ([], [])) as (acc & E & Hseen & Hgroups); [lia| | |].
  - split; [|reflexivity]. intros x. simpl. split; [tauto|lia].
  - intros k [seen groups] Hk [Hseen Hgroups]. cbn [fst snd] in *.
    destruct (existsb (Nat.eqb k) seen) eqn:Ex.
    + apply existsb_exists in Ex. destruct Ex as (x & Hx & Ekx).
      apply Nat.eqb_eq in Ekx. subst x. apply Hseen in Hx.
      assert (k = B) by lia. subst k.
      eexists. split; [reflexivity|]. cbn [fst snd]. split.
      * intros x. rewrite Hseen. lia.
      * rewrite Hgroups. nat_cases.
    + assert (HkB : k <> B).
      { intros ->. assert (Hin : In B seen) by (apply Hseen; lia).
        assert (Ht : existsb (Nat.eqb B) seen = true).
        { apply existsb_exists. exists B. split; [exact Hin|apply Nat.eqb_refl]. }
        congruence. }
      destruct (Nat.eq_dec k A) as [->|HkA].
      * destruct (transferGraph_dfs_pair fuel) as (t & Et & Hv).
        rewrite Et. cbn [bind]. eexists. split; [reflexivity|].
        cbn [fst snd]. rewrite Hv. split.
        -- intros x. rewrite in_app_iff, Hseen. simpl. lia.
        -- unfold push. rewrite filter_app, Hgroups. simpl. nat_cases.
      * destruct (transferGraph_dfs_alone (S fuel) k HkA HkB) as (t & Et & Hv).
        rewrite Et. cbn [bind]. eexists. split; [reflexivity|].
        cbn [fst snd]. rewrite Hv. split.
        -- intros x. rewrite in_app_iff, Hseen. simpl. lia.
        -- unfold push. rewrite filter_app, Hgroups. simpl. rewrite app_nil_r.
           nat_cases.
  - rewrite E. cbn [bind]. exists (snd acc). split; [reflexivity|].
    rewrite Hgroups. nat_cases.
Qed.

End SingleTransfer.

(** ** Transfer edges, read off the cells *)

Lemma In_getTransferEdges {Stop : Type} (g : TransitGraph (Stop := Stop)) r i w :
  i < r -> r < length (G g) ->
  cellOf (G g) r i = Obj transfer w ->
  In (mkEdge transfer r i w) (getTransferEdges g).
Proof.
  intros Hi Hr Hc. unfold getTransferEdges. apply in_flat_map.
  exists r. split; [apply in_seq; lia|]. apply in_flat_map.
  exists i. split; [apply in_seq; lia|].
  unfold cellOf in Hc. rewrite Hc. left. reflexivity.
Qed.

Lemma getTransferEdges_none {Stop : Type} (g : TransitGraph (Stop := Stop)) :
  (forall r i, i < r -> r < length (G g) ->
     is_transfer_cell (cellOf (G g) r i) = false) ->
  getTransferEdges g = [].
Proof.
  intros H. unfold getTransferEdges.
  assert (Hall : forall (l : list nat) (f : nat -> list Edge),
            (forall x, In x l -> f x = []) -> flat_map f l = []).
  { intros l f Hf. induction l as [|x l IH]; [reflexivity|]. simpl.
    rewrite (Hf x (or_introl eq_refl)), IH; [reflexivity|].
    intros y Hy. apply Hf. right. exact Hy. }
  apply Hall. intros r Hr. apply in_seq in Hr.
  apply Hall. intros i Hi. apply in_seq in Hi.
  specialize (H r i ltac:(lia) ltac:(lia)). unfold cellOf in H.
  destruct (cell_at (nth r (G g) []) i) as [| | |[] w]; try reflexivity.
  discriminate H.
Qed.

Lemma unionOf_not_transfer a b :
  is_transfer_cell a = false -> is_transfer_cell b = false ->
  is_transfer_cell (unionOf a b) = false.
Proof.
  destruct a as [| | |[] wa], b as [| | |[] wb]; simpl; intros;
    try discriminate; reflexivity.
Qed.

Lemma unshift_lt lo hi i r : lo < hi -> i < r -> unshift lo hi i < unshift lo hi r.
Proof. intros. unfold unshift. nat_cases. Qed.

(** ** One merge step on a graph with a single transfer edge *)

Section MergeSingleTransfer.
Context {Stop : Type}.
Variable mergeWith : Stop -> Stop -> Stop.
Variable graph : TransitGraph (Stop := Stop).
Variables (A B : nat) (w : Z) (stopA stopB : Stop).
Hypothesis wf : well_formed (G graph) = true.
Hypothesis nodes : numNodes graph = length (G graph).
Hypothesis A_B : A < B.
Hypothesis B_n : B < numNodes graph.
Hypothesis stop_A : nth_error (stops graph) A = Some stopA.
Hypothesis stop_B : nth_error (stops graph) B = Some stopB.
Hypothesis only : getTransferEdges graph = [mkEdge transfer B A w].

Let merged : TransitGraph (Stop := Stop) :=
  mkGraph (numNodes graph - 1) (mergedMatrix A B (G graph))
          (deleteBoth A B (stops graph ++ [mergeWith stopA stopB])).

Lemma mergeStep_single fuel :
  mergeStep mergeWith (S (S fuel)) graph = Ok merged.
Proof.
  unfold mergeStep. rewrite only.
  destruct (transferGraph_groupings A B (numNodes graph) w (stops graph)
              A_B B_n fuel) as (gs & E & Hgs).
  rewrite E. cbn [bind]. rewrite Hgs.
  unfold mergeTop. replace (A <? B) with true by (symmetry; apply Nat.ltb_lt; exact A_B).
  rewrite map_id.
  rewrite (merge_closed_form mergeWith A B (G graph) (stops graph) stopA stopB)
    by (try assumption; rewrite <- nodes; assumption).
  cbn [bind].
  assert (Hwf' : well_formed (mergedMatrix A B (G graph)) = true)
    by (apply mergedMatrix_well_formed; try assumption; rewrite <- nodes; assumption).
  rewrite (newEdgeListOf_ok _ Hwf'). cbn [bind].
  unfold newTransitGraph, merged. f_equal. f_equal.
  replace (numNodes graph - 1) with (length (mergedMatrix A B (G graph)))
    by (rewrite mergedMatrix_length, nodes by (try assumption; lia); reflexivity).
  apply rebuild, Hwf'.
Qed.

(** No cell other than the one of the transfer edge holds a transfer. *)
Lemma only_transfer r i :
  i < r -> r < length (G graph) -> ~ (r = B /\ i = A) ->
  is_transfer_cell (cellOf (G graph) r i) = false.
Proof.
  intros Hi Hr Hne.
  destruct (cellOf (G graph) r i) as [| | |[] w'] eqn:Ec; try reflexivity.
  exfalso. apply Hne.
  assert (Hin := In_getTransferEdges graph r i w' Hi Hr Ec).
  rewrite only in Hin. destruct Hin as [Hin|[]]. inversion Hin. split; reflexivity.
Qed.

Lemma rel_not_transfer u k :
  u < length (G graph) -> k < length (G graph) ->
  (u = A \/ u = B) -> k <> A -> k <> B ->
  is_transfer_cell (rel (G graph) u k) = false.
Proof.
  intros Hu Hk Hab HkA HkB. unfold rel.
  destruct (Nat.ltb_spec k u); [apply only_transfer; lia|].
  destruct (Nat.ltb_spec u k); [apply only_transfer; lia|].
  reflexivity.
Qed.

Lemma merged_no_transfer : getTransferEdges merged = [].
Proof.
  assert (HB : B < length (G graph)) by (rewrite <- nodes; exact B_n).
  apply getTransferEdges_none. unfold merged. simpl G. intros r i Hi Hr.
  rewrite mergedMatrix_length in Hr by assumption.
  rewrite mergedMatrix_cell by assumption.
  assert (Hlt := unshift_lt A B i r A_B Hi).
  destruct (unshift_survivor A B i A_B) as [HiA HiB].
  destruct (unshift_survivor A B r A_B) as [HrA HrB].
  assert (Hr' : unshift A B r <= length (G graph)) by (unfold unshift; nat_cases).
  destruct (Nat.eq_dec (unshift A B r) (length (G graph))) as [E|Hne].
  - rewrite E, unionRow_cell by lia.
    apply unionOf_not_transfer; apply rel_not_transfer; auto; lia.
  - unfold cellOf. rewrite app_nth1 by lia. apply only_transfer; lia.
Qed.

Lemma merged_route k wk :
  k < numNodes graph -> k <> A -> k <> B ->
  relation graph A k = Obj route wk \/ relation graph B k = Obj route wk ->
  relation merged (numNodes graph - 2) (newIndex A B k) = Obj route (-1).
Proof.
  intros Hk HkA HkB Hroute.
  assert (HB : B < length (G graph)) by (rewrite <- nodes; exact B_n).
  assert (Hk' : k < length (G graph)) by (rewrite <- nodes; exact Hk).
  assert (Hidx : newIndex A B k < numNodes graph - 2)
    by (unfold newIndex; nat_cases).
  unfold relation.
  replace (newIndex A B k <? numNodes graph - 2) with true
    by (symmetry; apply Nat.ltb_lt; exact Hidx).
  change (cell_at (nth (numNodes graph - 2) (G merged) []) (newIndex A B k))
    with (cellOf (mergedMatrix A B (G graph)) (numNodes graph - 2) (newIndex A B k)).
  rewrite nodes. rewrite mergedMatrix_union by assumption.
  change (relation graph A k) with (rel (G graph) A k) in Hroute.
  change (relation graph B k) with (rel (G graph) B k) in Hroute.
  apply unionOf_rule.
  - intros [Ea Eb]. rewrite Ea, Eb in Hroute. destruct Hroute; discriminate.
  - apply rel_not_transfer; auto; lia.
  - apply rel_not_transfer; auto; lia.
Qed.

Lemma mergeTransferNodes_single fuel :
  mergeTransferNodes mergeWith (S (S fuel)) graph = Ok (Some merged).
Proof.
  unfold mergeTransferNodes. rewrite only. simpl length. cbn [Nat.eqb].
  cbn [mergeLoop]. rewrite only. simpl length. cbn [Nat.ltb Nat.leb].
  rewrite mergeStep_single. cbn [bind].
  rewrite merged_no_transfer. reflexivity.
Qed.

End MergeSingleTransfer.

(** Six stops; transfers 1 - 2, 3 - 4 and 0 - 5. *)
Definition sixStops : TransitGraph (Stop := nat) :=
  newTransitGraph
    [mkEdge route 0 1 5; mkEdge transfer 1 2 1; mkEdge route 0 3 7;
     mkEdge route 2 4 8; mkEdge transfer 3 4 2; mkEdge route 1 5 9;
     mkEdge transfer 0 5 3] 6 [0; 1; 2; 3; 4; 5].

(** Four stops on a line, the last two joined by the only transfer. *)
Definition lineWithTransfer : TransitGraph (Stop := nat) :=
  newTransitGraph
    [mkEdge route 0 1 1; mkEdge route 1 2 5; mkEdge transfer 2 3 0] 4 [0; 1; 2; 3].

Lemma merge_unions_relations_witness :
  exists m' stops',
    merge Nat.add 1 3 (G sixStops, stops sixStops) = Ok (m', stops') /\
    length m' = 5 /\
    length (nth 4 m' []) = 4 /\
    cellOf m' 4 (newIndex 1 3 0) = Obj route (-1) /\
    cellOf m' 4 (newIndex 1 3 2) = Obj transfer (-1) /\
    stops' = [0; 2; 4; 5; 4].
Proof.
  destruct (merge_unions_relations Nat.add 1 3 (G sixStops) (stops sixStops) 1 3)
    as (m' & stops' & E & Hl & Hrow & Hu & _ & _ & Hs);
    [reflexivity|lia|vm_compute; lia|reflexivity|reflexivity|].
  exists m', stops'. split; [exact E|]. split; [exact Hl|]. split; [exact Hrow|].
  split; [|split; [|exact Hs]].
  - destruct (Hu 0) as (_ & _ & _ & _ & H); [vm_compute; lia|lia|lia|].
    apply H; [intros [H1 _]; discriminate H1|reflexivity|reflexivity].
  - destruct (Hu 2) as (_ & _ & _ & H & _); [vm_compute; lia|lia|lia|].
    apply H. left. reflexivity.
Defined.

(** C2: a graph whose only transfer edge joins [A] and [B] (named so
    that [A < B]) is merged into a graph with one node less and no
    transfer edge, in which the merged node, the last one, has a route
    edge of weight -1 to every node that had a route edge to [A] or to
    [B]; the stops are the surviving stops followed by
    [stops[A].mergeWith(stops[B])].  On the three stops with a route edge
    0 - 1 of weight 5 and a transfer edge 1 - 2 of weight 1 the result is
    two nodes, the route edge of weight -1 between them, and the stops
    [stops[0]] and [stops[1].mergeWith(stops[2])]. *)
Theorem mergeTransferNodes_single_transfer_edge :
  (forall (Stop : Type) (mergeWith : Stop -> Stop -> Stop)
          (graph : TransitGraph (Stop := Stop)) (A B : nat) (w : Z)
          (stopA stopB : Stop) (fuel : nat),
     well_formed (G graph) = true ->
     numNodes graph = length (G graph) ->
     A < B -> B < numNodes graph ->
     nth_error (stops graph) A = Some stopA ->
     nth_error (stops graph) B = Some stopB ->
     getTransferEdges graph = [mkEdge transfer B A w] ->
     2 <= fuel ->
     exists graph',
       mergeTransferNodes mergeWith fuel graph = Ok (Some graph') /\
       numNodes graph' = numNodes graph - 1 /\
       length (G graph') = numNodes graph - 1 /\
       getTransferEdges graph' = [] /\
       stops graph' = deleteBoth A B (stops graph ++ [mergeWith stopA stopB]) /\
       forall k wk,
         k < numNodes graph -> k <> A -> k <> B ->
         relation graph A k = Obj route wk \/ relation graph B k = Obj route wk ->
         createEdge graph' (numNodes graph - 2) (newIndex A B k) =
           Some (mkEdge route (numNodes graph - 2) (newIndex A B k) (-1))) /\
  (forall (Stop : Type) (mergeWith : Stop -> Stop -> Stop) (s0 s1 s2 : Stop)
          (fuel : nat),
     mergeTransferNodes mergeWith (2 + fuel)
       (newTransitGraph [mkEdge route 0 1 5; mkEdge transfer 1 2 1] 3 [s0; s1; s2]) =
     Ok (Some (mkGraph 2 [[]; [Obj route (-1)]] [s0; mergeWith s1 s2]))).
Proof.
  split.
  - intros Stop mergeWith graph A B w stopA stopB fuel
           wf nodes A_B B_n stop_A stop_B only Hfuel.
    destruct fuel as [|[|fuel]]; try lia.
    eexists. split.
    { apply (mergeTransferNodes_single mergeWith graph A B w stopA stopB);
        assumption. }
    split; [reflexivity|].
    split; [simpl G; rewrite mergedMatrix_length, nodes
              by (try assumption; rewrite <- nodes; assumption); reflexivity|].
    split; [apply (merged_no_transfer mergeWith graph A B w stopA stopB);
              assumption|].
    split; [reflexivity|].
    intros k wk Hk HkA HkB Hroute. unfold createEdge.
    rewrite (merged_route mergeWith graph A B w stopA stopB nodes A_B B_n only
               k wk Hk HkA HkB Hroute).
    reflexivity.
  - intros Stop mergeWith s0 s1 s2 fuel. reflexivity.
Qed.

Lemma mergeTransferNodes_single_transfer_edge_witness :
  exists graph',
    mergeTransferNodes Nat.add 2 lineWithTransfer = Ok (Some graph') /\
    numNodes graph' = 3 /\
    getTransferEdges graph' = [] /\
    createEdge graph' 2 (newIndex 2 3 1) = Some (mkEdge route 2 (newIndex 2 3 1) (-1)).
Proof.
  destruct (proj1 mergeTransferNodes_single_transfer_edge nat Nat.add
              lineWithTransfer 2 3 0%Z 2 3 2)
    as (graph' & E & Hn & _ & Ht & _ & Hroute);
    [reflexivity|reflexivity|lia|vm_compute; lia|reflexivity|reflexivity
    |reflexivity|lia|].
  exists graph'. split; [exact E|]. split; [exact Hn|]. split; [exact Ht|].
  apply (Hroute 1 5%Z); [vm_compute; lia|lia|lia|]. left. reflexivity.
Defined.

(** C8: on a graph without transfer edges [mergeTransferNodes] returns
    [undefined], whatever the fuel: neither an exception nor a graph; on
    the store, the call leaves every object as it was. *)
Theorem mergeTransferNodes_nothing_to_merge {Stop : Type}
    (mergeWith : Stop -> Stop -> Stop) (graph : TransitGraph (Stop := Stop))
    (fuel : nat) :
  getTransferEdges graph = [] ->
  mergeTransferNodes mergeWith fuel graph = Ok None /\
  forall (h : store) (l : loc),
    graphOf h l = Ok graph ->
    mergeTransferNodesAt mergeWith fuel h l = Ok (h, None).
Proof.
  intros Hnone. split.
  - unfold mergeTransferNodes. rewrite Hnone. reflexivity.
  - intros h l Hg. unfold mergeTransferNodesAt. rewrite Hg. cbn [bind].
    rewrite Hnone. reflexivity.
Qed.

Lemma mergeTransferNodes_nothing_to_merge_witness :
  mergeTransferNodes Nat.add 0 path3 = Ok None /\
  forall (h : store) (l : loc),
    graphOf h l = Ok path3 ->
    mergeTransferNodesAt Nat.add 0 h l = Ok (h, None).
Proof.
  apply (mergeTransferNodes_nothing_to_merge Nat.add path3 0). reflexivity.
Defined.

(* ------------------------------------------------------------------ *)
(** ** The merge on the store: what is written to *)

Ltac inv_bind H :=
  match type of H with
  | bind ?m _ = Ok _ =>
    let E := fresh "E" in
    destruct m eqn:E; cbn [bind] in H; [|discriminate H|discriminate H]
  end.

(** A property that every successful round keeps holds after a
    successful loop. *)
Lemma for_rangeM_preserves {S : Type} (P : S -> Prop) lo hi
    (body : S -> nat -> result S) (s s' : S) :
  P s ->
  (forall i s s', P s -> body s i = Ok s' -> P s') ->
  for_rangeM lo hi body s = Ok s' ->
  P s'.
Proof.
  intros H0 Hstep. unfold for_rangeM.
  generalize (seq lo (hi - lo)). intros l. revert s H0.
  induction l as [|i l IH]; intros s H0 E; simpl in E.
  - inversion E; subst. exact H0.
  - destruct (body s i) as [s1| |] eqn:E1.
    + apply (IH s1); [apply (Hstep i s s1 H0 E1)|exact E].
    + exfalso. clear -E. induction l as [|j l IHl]; simpl in E;
        [discriminate|auto].
    + exfalso. clear -E. induction l as [|j l IHl]; simpl in E;
        [discriminate|auto].
Qed.

Section StoreFacts.
Context {Stop : Type}.
Variable mergeWith : Stop -> Stop -> Stop.
Implicit Types (h : store (Stop := Stop)) (l : loc) (o : object (Stop := Stop)).

(** [h'] holds every object of [h], unchanged, and possibly new ones
    behind them. *)
Definition extends h h' : Prop := exists ext, h' = h ++ ext.

Lemma extends_refl h : extends h h.
Proof. exists []. rewrite app_nil_r. reflexivity. Qed.

Lemma extends_trans h1 h2 h3 : extends h1 h2 -> extends h2 h3 -> extends h1 h3.
Proof.
  intros [e1 ->] [e2 ->]. exists (e1 ++ e2). rewrite app_assoc. reflexivity.
Qed.

Lemma extends_length h h' : extends h h' -> length h <= length h'.
Proof. intros [e ->]. rewrite length_app. lia. Qed.

Lemma extends_nth_error h h' l :
  extends h h' -> l < length h -> nth_error h' l = nth_error h l.
Proof. intros [e ->] Hl. apply nth_error_app1, Hl. Qed.

Lemma extends_alloc h o : extends h (fst (alloc h o)) /\ snd (alloc h o) = length h.
Proof. split; [exists [o]; reflexivity|reflexivity]. Qed.

Lemma update_length h l o : length (update h l o) = length h.
Proof.
  revert l; induction h as [|x h IH]; intros [|l]; simpl; auto.
Qed.

Lemma nth_error_update_ne h l l' o :
  l <> l' -> nth_error (update h l o) l' = nth_error h l'.
Proof.
  revert l l'; induction h as [|x h IH]; intros [|l] [|l'] H; simpl; auto;
    try lia.
Qed.

Lemma nth_error_update_eq h l o :
  l < length h -> nth_error (update h l o) l = Some o.
Proof.
  revert l; induction h as [|x h IH]; intros [|l] H; simpl in *; try lia; auto.
  apply IH. lia.
Qed.

Lemma update_app_r h ext l o :
  length h <= l -> update (h ++ ext) l o = h ++ update ext (l - length h) o.
Proof.
  revert l; induction h as [|x h IH]; intros l H; simpl in *.
  - rewrite Nat.sub_0_r. reflexivity.
  - destruct l as [|l]; [lia|]. simpl. rewrite IH by lia. reflexivity.
Qed.

(** A write to an object allocated after [h0] leaves [h0] alone. *)
Lemma extends_update h0 h l o :
  extends h0 h -> length h0 <= l -> extends h0 (update h l o).
Proof.
  intros [e ->] Hl. exists (update e (l - length h0) o).
  apply update_app_r, Hl.
Qed.

(** The working matrix [newGraph] and all its rows were allocated after
    [h0]. *)
Definition FreshMatrix h0 h (newGraph : loc) : Prop :=
  extends h0 h /\ length h0 <= newGraph /\
  exists rows, getMatrix h newGraph = Ok rows /\
               Forall (fun r => length h0 <= r) rows.

Lemma getMatrix_update_row h l newGraph cells cells' :
  getRow h l = Ok cells ->
  getMatrix (update h l (ORow cells')) newGraph = getMatrix h newGraph.
Proof.
  intros Hrow. unfold getMatrix, getRow in *.
  destruct (Nat.eq_dec l newGraph) as [->|Hne].
  - destruct (nth_error h newGraph) as [[]|] eqn:E; try discriminate.
    rewrite nth_error_update_eq; [reflexivity|].
    apply nth_error_Some. congruence.
  - rewrite nth_error_update_ne by exact Hne. reflexivity.
Qed.

Lemma rowRef_fresh h0 h newGraph r l :
  FreshMatrix h0 h newGraph -> rowRef h newGraph r = Ok l -> length h0 <= l.
Proof.
  intros (_ & _ & rows & Hm & Hall) H. unfold rowRef in H. rewrite Hm in H.
  cbn [bind] in H. destruct (nth_error rows r) as [l'|] eqn:E; [|discriminate].
  inversion H; subst. rewrite Forall_forall in Hall. apply Hall.
  apply (nth_error_In _ _ E).
Qed.

Lemma update_row_fresh h0 h newGraph l cells cells' :
  FreshMatrix h0 h newGraph -> length h0 <= l -> getRow h l = Ok cells ->
  FreshMatrix h0 (update h l (ORow cells')) newGraph.
Proof.
  intros (He & Hn & rows & Hm & Hall) Hl Hrow. split; [|split; [exact Hn|]].
  - apply extends_update; assumption.
  - exists rows. split; [|exact Hall].
    rewrite (getMatrix_update_row h l newGraph cells cells' Hrow). exact Hm.
Qed.

Lemma writeCellAt_fresh h0 h h' newGraph r i v :
  FreshMatrix h0 h newGraph ->
  writeCellAt h newGraph r i v = Ok h' ->
  FreshMatrix h0 h' newGraph.
Proof.
  intros HF H. unfold writeCellAt in H. inv_bind H. inv_bind H.
  inversion H; subst. eapply update_row_fresh; eauto.
  eapply rowRef_fresh; eauto.
Qed.

Lemma horizontalOverlapAt_fresh h0 h h' lo hi u newGraph :
  FreshMatrix h0 h newGraph ->
  horizontalOverlapAt lo hi u newGraph h = Ok h' ->
  FreshMatrix h0 h' newGraph.
Proof.
  intros HF H. unfold horizontalOverlapAt in H.
  apply (for_rangeM_preserves (fun h => FreshMatrix h0 h newGraph) _ _ _ _ _
           HF) in H; [exact H|].
  clear. intros i h h' HF H. do 4 inv_bind H.
  eapply writeCellAt_fresh; [|exact H]. eapply writeCellAt_fresh; eauto.
Qed.

Lemma horizontalHiOvershootAt_fresh h0 h h' lo hi u newGraph :
  FreshMatrix h0 h newGraph ->
  horizontalHiOvershootAt lo hi u newGraph h = Ok h' ->
  FreshMatrix h0 h' newGraph.
Proof.
  intros HF H. unfold horizontalHiOvershootAt in H. inv_bind H.
  apply (for_rangeM_preserves (fun h => FreshMatrix h0 h newGraph) _ _ _ _ _
           HF) in E.
  - apply (for_rangeM_preserves (fun h => FreshMatrix h0 h newGraph) _ _ _ _ _
             E) in H; [exact H|].
    clear. intros i h h' HF H. eapply writeCellAt_fresh; eauto.
  - clear. intros i h h' HF H. do 2 inv_bind H.
    eapply writeCellAt_fresh; eauto.
Qed.

Lemma verticalOverlapAt_fresh h0 h h' lo hi u newGraph :
  FreshMatrix h0 h newGraph ->
  verticalOverlapAt lo hi u newGraph h = Ok h' ->
  FreshMatrix h0 h' newGraph.
Proof.
  intros HF H. unfold verticalOverlapAt in H.
  apply (for_rangeM_preserves (fun h => FreshMatrix h0 h newGraph) _ _ _ _ _
           HF) in H; [exact H|].
  clear. intros i h h' HF H. do 5 inv_bind H.
  eapply writeCellAt_fresh; [|exact H]. eapply writeCellAt_fresh; [|eauto].
  eapply writeCellAt_fresh; eauto.
Qed.

Lemma verticalLoOvershootAt_fresh h0 h h' lo hi u newGraph :
  FreshMatrix h0 h newGraph ->
  verticalLoOvershootAt lo hi u newGraph h = Ok h' ->
  FreshMatrix h0 h' newGraph.
Proof.
  intros HF H. unfold verticalLoOvershootAt in H.
  apply (for_rangeM_preserves (fun h => FreshMatrix h0 h newGraph) _ _ _ _ _
           HF) in H; [exact H|].
  clear. intros i h h' HF H. do 4 inv_bind H.
  eapply writeCellAt_fresh; [|exact H]. eapply writeCellAt_fresh; eauto.
Qed.

End StoreFacts.

Tactic Notation "inv_bind" hyp(H) "as" ident(x) ident(E) :=
  match type of H with
  | bind ?m _ = Ok _ =>
    destruct m as [x| |] eqn:E; cbn [bind] in H; [|discriminate H|discriminate H]
  end.

Section StoreMerge.
Context {Stop : Type}.
Variable mergeWith : Stop -> Stop -> Stop.
Implicit Types (h : store (Stop := Stop)) (l : loc).

Lemma Forall_splice1 {A : Type} (P : A -> Prop) (a : list A) i :
  Forall P a -> Forall P (splice1 a i).
Proof.
  revert i. induction a as [|x a IH]; intros i H; [destruct i; constructor|].
  inversion H; subst. destruct i as [|i]; simpl; [assumption|].
  constructor; [assumption|apply IH; assumption].
Qed.

Lemma FreshMatrix_set_rows h0 h newGraph rows :
  extends h0 h -> length h0 <= newGraph -> newGraph < length h ->
  Forall (fun r => length h0 <= r) rows ->
  FreshMatrix h0 (update h newGraph (OMatrix rows)) newGraph.
Proof.
  intros He Hn Hl Hall. split; [apply extends_update; assumption|].
  split; [exact Hn|]. exists rows. split; [|exact Hall].
  unfold getMatrix. rewrite nth_error_update_eq by exact Hl. reflexivity.
Qed.

Lemma getMatrix_in_store h l rows : getMatrix h l = Ok rows -> l < length h.
Proof.
  unfold getMatrix. intros H. apply nth_error_Some.
  destruct (nth_error h l); [discriminate|discriminate H].
Qed.

Lemma mergeAt_extends h0 h h' lo hi newGraph newStops :
  FreshMatrix h0 h newGraph -> length h0 <= newStops ->
  mergeAt mergeWith lo hi newGraph newStops h = Ok h' ->
  extends h0 h'.
Proof.
  intros HF Hns H. unfold mergeAt in H. inv_bind H as ss Ess.
  destruct (nth_error ss lo) as [stopLo|]; [|discriminate H].
  destruct (nth_error ss hi) as [stopHi|]; [|discriminate H].
  (* the stop array *)
  set (h1 := update h newStops _) in H.
  assert (HF1 : FreshMatrix h0 h1 newGraph).
  { destruct HF as (He & Hn & rows & Hm & Hall).
    split; [apply extends_update; assumption|]. split; [exact Hn|].
    exists rows. split; [|exact Hall]. unfold h1, getMatrix in *.
    destruct (Nat.eq_dec newStops newGraph) as [->|Hne].
    - unfold getStops in Ess.
      destruct (nth_error h newGraph) as [[]|]; discriminate.
    - rewrite nth_error_update_ne by exact Hne. exact Hm. }
  clearbody h1. clear HF Ess.
  (* the new row *)
  inv_bind H as rows0 Erows. unfold alloc in H. cbv beta iota zeta in H.
  destruct HF1 as (He & Hn & rows & Hm & Hall).
  rewrite Hm in Erows. inversion Erows; subst rows0. clear Erows.
  assert (Hl1 := getMatrix_in_store _ _ _ Hm).
  set (h2 := update (h1 ++ _) newGraph _) in H.
  assert (HF2 : FreshMatrix h0 h2 newGraph).
  { unfold h2. apply FreshMatrix_set_rows.
    - apply (extends_trans _ _ _ He). eexists. reflexivity.
    - exact Hn.
    - rewrite length_app. lia.
    - unfold push. apply Forall_app. split; [exact Hall|].
      constructor; [|constructor]. apply extends_length, He. }
  clearbody h2. clear He Hm Hall Hl1.
  (* the four loops *)
  inv_bind H as h3 E3.
  apply (horizontalOverlapAt_fresh _ _ _ _ _ _ _ HF2) in E3.
  inv_bind H as h4 E4.
  apply (horizontalHiOvershootAt_fresh _ _ _ _ _ _ _ E3) in E4.
  inv_bind H as h5 E5.
  apply (verticalOverlapAt_fresh _ _ _ _ _ _ _ E4) in E5.
  inv_bind H as h6 E6.
  apply (verticalLoOvershootAt_fresh _ _ _ _ _ _ _ E5) in E6.
  (* the splices *)
  inv_bind H as unionRef Eref. inv_bind H as unionRow Erow.
  assert (HF7 := update_row_fresh h0 _ newGraph _ _
                   (splice1 (splice1 unionRow lo) (hi - 1)) E6
                   (rowRef_fresh _ _ _ _ _ E6 Eref) Erow).
  set (h7 := update h6 unionRef _) in *. clearbody h7.
  inv_bind H as rows7 Erows7.
  destruct HF7 as (He7 & _ & rows7' & Hm7 & Hall7).
  rewrite Hm7 in Erows7. inversion Erows7; subst rows7'. clear Erows7.
  assert (HF8 := FreshMatrix_set_rows h0 h7 newGraph
                   (splice1 (splice1 rows7 lo) (hi - 1)) He7 Hn
                   (getMatrix_in_store _ _ _ Hm7)
                   (Forall_splice1 _ _ _ (Forall_splice1 _ _ _ Hall7))).
  set (h8 := update h7 newGraph _) in *. clearbody h8.
  (* the nulls *)
  apply (for_rangeM_preserves (fun h => FreshMatrix h0 h newGraph) _ _ _ _ _
           HF8) in H; [apply H|].
  clear. intros i h h' HF H. inv_bind H as l El. inv_bind H as cells Ec.
  inversion H; subst.
  eapply update_row_fresh; eauto. eapply rowRef_fresh; eauto.
Qed.

Lemma allocRows_extends h m :
  extends h (fst (allocRows h m)).
Proof.
  unfold allocRows.
  assert (H : forall acc : store (Stop := Stop) * list loc,
            extends h (fst acc) ->
            extends h (fst (fold_left (fun acc cells =>
              let '(h, l) := alloc (fst acc) (ORow cells) in
              (h, push (snd acc) l)) m acc))).
  { induction m as [|cells m IH]; intros acc Hacc; [exact Hacc|].
    simpl. apply IH. simpl. apply (extends_trans _ _ _ Hacc).
    eexists. reflexivity. }
  apply H. apply extends_refl.
Qed.

Lemma newTransitGraphAt_extends h edgeList n ss :
  extends h (fst (newTransitGraphAt h edgeList n ss)) /\
  length h <= snd (newTransitGraphAt h edgeList n ss).
Proof.
  unfold newTransitGraphAt.
  assert (H := allocRows_extends h (fold_left storeEdge edgeList (zeroTriangle n))).
  destruct (allocRows h (fold_left storeEdge edgeList (zeroTriangle n)))
    as [h1 rows]. cbn [fst] in H. unfold alloc. cbn [fst snd].
  split.
  - apply (extends_trans _ _ _ H). exists [OMatrix rows; OGraph n (length h1) ss].
    rewrite <- app_assoc. reflexivity.
  - apply extends_length in H. rewrite length_app. simpl. lia.
Qed.

Lemma copyRows_fresh h0 rows :
  forall h h' newGraph,
  FreshMatrix h0 h newGraph ->
  copyRows h rows newGraph = Ok h' ->
  FreshMatrix h0 h' newGraph.
Proof.
  unfold copyRows.
  assert (H : forall (acc : result (store (Stop := Stop))) h' newGraph,
    (forall h, acc = Ok h -> FreshMatrix h0 h newGraph) ->
    fold_left (fun acc rowOfNodes =>
                 h <- acc ;;
                 cells <- getRow h rowOfNodes ;;
                 let '(h, copy) := alloc h (ORow cells) in
                 copied <- getMatrix h newGraph ;;
                 Ok (update h newGraph (OMatrix (push copied copy))))
              rows acc = Ok h' ->
    FreshMatrix h0 h' newGraph).
  { induction rows as [|r rows IH]; intros acc h' newGraph Hacc E; simpl in E.
    - apply Hacc, E.
    - refine (IH _ h' newGraph _ E).
      intros h1 E1. inv_bind E1 as hp Ehp. inv_bind E1 as cells Ecells.
      unfold alloc in E1. cbv beta iota zeta in E1. inv_bind E1 as copied Ecopied.
      inversion E1; subst h1. clear E1.
      destruct (Hacc hp eq_refl) as (He & Hn & rows0 & Hm & Hall).
      assert (Hl := getMatrix_in_store _ _ _ Hm).
      assert (E3 : copied = rows0).
      { unfold getMatrix in *. rewrite nth_error_app1 in Ecopied by exact Hl.
        rewrite Hm in Ecopied. inversion Ecopied. reflexivity. }
      subst copied. apply FreshMatrix_set_rows.
      + apply (extends_trans _ _ _ He). eexists. reflexivity.
      + exact Hn.
      + rewrite length_app. lia.
      + unfold push. apply Forall_app. split; [exact Hall|].
        constructor; [|constructor]. apply extends_length, He. }
  intros h h' newGraph HF E. apply (H (Ok h) h' newGraph); [|exact E].
  intros h1 E1. inversion E1; subst. exact HF.
Qed.

Lemma mergeStepAt_extends fuel h graph h' graph' :
  mergeStepAt mergeWith fuel h graph = Ok (h', graph') ->
  extends h h' /\ length h <= graph'.
Proof.
  intros H. unfold mergeStepAt in H. inv_bind H as ngs Egraph.
  destruct ngs as [[n g] s].
  inv_bind H as graphValue Evalue.
  destruct (newTransitGraphAt_extends h (getTransferEdges graphValue) n s)
    as [He1 _].
  destruct (newTransitGraphAt h (getTransferEdges graphValue) n s)
    as [h1 transferGraph].
  cbn [fst] in He1.
  inv_bind H as transferValue Etransfer. inv_bind H as nodeGroupings Egroups.
  destruct (filter (fun e => 1 <? length e) nodeGroupings)
    as [|[|indexA [|indexB ?]] ?]; try discriminate H.
  unfold alloc in H. cbv beta iota zeta in H.
  inv_bind H as rows Erows. inv_bind H as h2 Ecopy.
  assert (HF : FreshMatrix h (h1 ++ [OMatrix []]) (length h1)).
  { split; [apply (extends_trans _ _ _ He1); eexists; reflexivity|].
    split; [apply extends_length, He1|]. exists []. split; [|constructor].
    unfold getMatrix. rewrite nth_error_app2, Nat.sub_diag by lia. reflexivity. }
  apply (copyRows_fresh _ _ _ _ _ HF) in Ecopy.
  inv_bind H as ss Ess. inv_bind H as h3 Emerge.
  assert (HF' : FreshMatrix h (h2 ++ [OStops ss]) (length h1)).
  { destruct Ecopy as (He & Hn & rows2 & Hm & Hall).
    split; [apply (extends_trans _ _ _ He); eexists; reflexivity|].
    split; [exact Hn|]. exists rows2. split; [|exact Hall].
    unfold getMatrix in *. rewrite nth_error_app1; [exact Hm|].
    apply nth_error_Some. destruct (nth_error h2 (length h1)); discriminate. }
  assert (Hns : length h <= length h2) by (apply extends_length, Ecopy).
  assert (He3 : extends h h3).
  { unfold mergeTopAt in Emerge. destruct (indexA <? indexB);
      eapply mergeAt_extends; eauto. }
  inv_bind H as m Em. inv_bind H as newEdgeList Eedges.
  destruct (newTransitGraphAt_extends h3 newEdgeList (n - 1) (length h2))
    as [He4 Hl4].
  inversion H as [H']. rewrite H' in He4, Hl4. cbn [fst snd] in He4, Hl4. split.
  - apply (extends_trans _ _ _ He3 He4).
  - apply extends_length in He3. lia.
Qed.

Lemma mergeLoopAt_extends fuel :
  forall h graph h' graph',
  mergeLoopAt mergeWith fuel h graph = Ok (h', graph') ->
  extends h h'.
Proof.
  induction fuel as [|fuel IH]; intros h graph h' graph' H; [discriminate H|].
  simpl in H. inv_bind H as graphValue Evalue.
  destruct (0 <? length (getTransferEdges graphValue)).
  - inv_bind H as step Estep. destruct step as [h1 graph1].
    apply mergeStepAt_extends in Estep. apply IH in H.
    apply (extends_trans _ _ _ (proj1 Estep) H).
  - inversion H; subst. apply extends_refl.
Qed.

(** What the holder of a graph reads is not affected by objects
    allocated later. *)
Lemma graphOf_extends h h' l (g : TransitGraph (Stop := Stop)) :
  extends h h' -> graphOf h l = Ok g -> graphOf h' l = Ok g.
Proof.
  intros [ext ->] H.
  assert (Hnth : forall a o, nth_error h a = Some o ->
                             nth_error (h ++ ext) a = Some o).
  { intros a o E. rewrite nth_error_app1; [exact E|].
    apply nth_error_Some. congruence. }
  assert (Hrow : forall a cells, getRow h a = Ok cells ->
                                 getRow (h ++ ext) a = Ok cells).
  { unfold getRow. intros a cells E.
    destruct (nth_error h a) as [o|] eqn:En; [|discriminate].
    rewrite (Hnth _ _ En). exact E. }
  assert (Hrows : forall rows m, rowsOf h rows = Ok m ->
                                 rowsOf (h ++ ext) rows = Ok m).
  { induction rows as [|r rows IH]; intros m E; simpl in *; [exact E|].
    inv_bind E as cells Ecells. inv_bind E as rest Erest.
    rewrite (Hrow _ _ Ecells). cbn [bind].
    rewrite (IH _ eq_refl). exact E. }
  unfold graphOf, getGraph, matrixOf, getMatrix, getStops in *.
  destruct (nth_error h l) as [o|] eqn:E1; [|discriminate].
  rewrite (Hnth _ _ E1). destruct o as [| | |n gl sl]; try discriminate.
  cbn [bind] in *.
  destruct (nth_error h gl) as [o|] eqn:E2; [|discriminate].
  rewrite (Hnth _ _ E2). destruct o as [|rows| |]; try discriminate.
  cbn [bind] in *. inv_bind H as m Em. rewrite (Hrows _ _ Em). cbn [bind].
  destruct (nth_error h sl) as [o|] eqn:E3; [|discriminate].
  rewrite (Hnth _ _ E3). exact H.
Qed.

End StoreMerge.

Lemma newTransitGraphAt_object {Stop : Type} (h : store (Stop := Stop))
    edgeList n ss :
  exists g,
    nth_error (fst (newTransitGraphAt h edgeList n ss))
              (snd (newTransitGraphAt h edgeList n ss)) = Some (OGraph n g ss) /\
    length h <= g.
Proof.
  unfold newTransitGraphAt.
  assert (H := allocRows_extends h (fold_left storeEdge edgeList (zeroTriangle n))).
  destruct (allocRows h (fold_left storeEdge edgeList (zeroTriangle n)))
    as [h1 rows]. cbn [fst] in H. unfold alloc. cbn [fst snd].
  exists (length h1). split; [|apply extends_length, H].
  rewrite nth_error_app2 by (rewrite length_app; simpl; lia).
  rewrite length_app. simpl.
  replace (length h1 + 1 - (length h1 + 1)) with 0 by lia. reflexivity.
Qed.

Lemma mergeStepAt_new_graph {Stop : Type} (mergeWith : Stop -> Stop -> Stop)
    fuel (h : store) graph h' graph' :
  mergeStepAt mergeWith fuel h graph = Ok (h', graph') ->
  exists n g ss,
    nth_error h' graph' = Some (OGraph n g ss) /\
    length h <= g /\ length h <= ss.
Proof.
  intros H. unfold mergeStepAt in H. inv_bind H as ngs Egraph.
  destruct ngs as [[n g] s].
  inv_bind H as graphValue Evalue.
  destruct (newTransitGraphAt_extends h (getTransferEdges graphValue) n s)
    as [He1 _].
  destruct (newTransitGraphAt h (getTransferEdges graphValue) n s)
    as [h1 transferGraph].
  cbn [fst] in He1.
  inv_bind H as transferValue Etransfer. inv_bind H as nodeGroupings Egroups.
  destruct (filter (fun e => 1 <? length e) nodeGroupings)
    as [|[|indexA [|indexB ?]] ?]; try discriminate H.
  unfold alloc in H. cbv beta iota zeta in H.
  inv_bind H as rows Erows. inv_bind H as h2 Ecopy.
  assert (HF : FreshMatrix h (h1 ++ [OMatrix []]) (length h1)).
  { split; [apply (extends_trans _ _ _ He1); eexists; reflexivity|].
    split; [apply extends_length, He1|]. exists []. split; [|constructor].
    unfold getMatrix. rewrite nth_error_app2, Nat.sub_diag by lia. reflexivity. }
  apply (copyRows_fresh _ _ _ _ _ HF) in Ecopy.
  inv_bind H as ss Ess. inv_bind H as h3 Emerge.
  assert (Hns : length h <= length h2) by (apply extends_length, Ecopy).
  assert (He3 : extends h h3).
  { assert (HF' : FreshMatrix h (h2 ++ [OStops ss]) (length h1)).
    { destruct Ecopy as (He & Hn & rows2 & Hm & Hall).
      split; [apply (extends_trans _ _ _ He); eexists; reflexivity|].
      split; [exact Hn|]. exists rows2. split; [|exact Hall].
      unfold getMatrix in *. rewrite nth_error_app1; [exact Hm|].
      apply nth_error_Some. destruct (nth_error h2 (length h1)); discriminate. }
    unfold mergeTopAt in Emerge. destruct (indexA <? indexB);
      eapply mergeAt_extends; eauto. }
  inv_bind H as m Em. inv_bind H as newEdgeList Eedges.
  destruct (newTransitGraphAt_object h3 newEdgeList (n - 1) (length h2))
    as (g' & Hobj & Hg').
  inversion H as [H']. rewrite H' in Hobj. cbn [fst snd] in Hobj.
  exists (n - 1), g', (length h2). split; [exact Hobj|].
  apply extends_length in He3. split; lia.
Qed.

(* ------------------------------------------------------------------ *)
(** ** The merge on the store: the claim *)

(** A store holding [lineWithTransfer]: the stop array at 0, the rows at
    1 to 4, the matrix at 5, the graph at 6. *)
Definition lineStore : store (Stop := nat) :=
  fst (newTransitGraphAt (fst (alloc [] (OStops [0; 1; 2; 3])))
         [mkEdge route 0 1 1; mkEdge route 1 2 5; mkEdge transfer 2 3 0] 4 0).

Definition lineStoreAfter : store (Stop := nat) :=
  Eval vm_compute in
    match mergeStepAt Nat.add 2 lineStore 6 with
    | Ok (h', _) => h'
    | _ => []
    end.

(** C9: an iteration of the merge loop writes to no object that existed
    when it began.  The store it leaves is the store it found followed by
    the objects it allocated: the copied rows, the copied stop array and
    the structures of the new graph, to which alone the splices and the
    null-writes were applied.  The graph that replaces the previous one
    is a new object whose matrix and stop array are new as well, and
    whoever holds a graph of the earlier store, the superseded one
    included, reads from it what was read before.  The same holds across
    all the iterations of a call. *)
Theorem mergeTransferNodes_leaves_previous_graph {Stop : Type}
    (mergeWith : Stop -> Stop -> Stop) (fuel : nat) (h : store (Stop := Stop))
    (graph : loc) (h' : store) (graph' : loc) :
  mergeStepAt mergeWith fuel h graph = Ok (h', graph') ->
  (exists allocated, h' = h ++ allocated) /\
  (forall l, l < length h -> nth_error h' l = nth_error h l) /\
  (forall l g, graphOf h l = Ok g -> graphOf h' l = Ok g) /\
  (exists n g ss,
     nth_error h' graph' = Some (OGraph n g ss) /\
     length h <= graph' /\ length h <= g /\ length h <= ss) /\
  (forall fuel' hr r,
     mergeTransferNodesAt mergeWith fuel' h graph = Ok (hr, r) ->
     (exists allocated, hr = h ++ allocated) /\
     forall l g, graphOf h l = Ok g -> graphOf hr l = Ok g).
Proof.
  intros H.
  destruct (mergeStepAt_extends mergeWith fuel h graph h' graph' H) as [He Hg].
  split; [exact He|].
  split; [intros l Hl; apply extends_nth_error; assumption|].
  split; [intros l g Hv; apply (graphOf_extends h h' l g He Hv)|].
  split.
  { destruct (mergeStepAt_new_graph mergeWith fuel h graph h' graph' H)
      as (n & g & ss & Hobj & Hgl & Hsl).
    exists n, g, ss. repeat split; assumption. }
  intros fuel' hr r Hr. unfold mergeTransferNodesAt in Hr.
  inv_bind Hr as graphValue Evalue.
  assert (Her : extends h hr).
  { destruct (length (getTransferEdges graphValue) =? 0).
    - inversion Hr; subst. apply extends_refl.
    - inv_bind Hr as loopResult Eloop. destruct loopResult as [h1 graph1].
      inversion Hr; subst. apply (mergeLoopAt_extends mergeWith _ _ _ _ _ Eloop). }
  split; [exact Her|].
  intros l g Hv. apply (graphOf_extends h hr l g Her Hv).
Qed.

Lemma mergeTransferNodes_leaves_previous_graph_witness :
  (exists allocated, lineStoreAfter = lineStore ++ allocated) /\
  (forall l, l < length lineStore ->
     nth_error lineStoreAfter l = nth_error lineStore l) /\
  (forall l g, graphOf lineStore l = Ok g -> graphOf lineStoreAfter l = Ok g) /\
  (exists n g ss,
     nth_error lineStoreAfter 24 = Some (OGraph n g ss) /\
     length lineStore <= 24 /\ length lineStore <= g /\ length lineStore <= ss) /\
  (forall fuel' hr r,
     mergeTransferNodesAt Nat.add fuel' lineStore 6 = Ok (hr, r) ->
     (exists allocated, hr = lineStore ++ allocated) /\
     forall l g, graphOf lineStore l = Ok g -> graphOf hr l = Ok g).
Proof.
  apply (mergeTransferNodes_leaves_previous_graph Nat.add 2 lineStore 6
           lineStoreAfter 24).
  vm_compute. reflexivity.
Defined.

(* ------------------------------------------------------------------ *)
(** ** The merge on the store computes the merge on values

    The surgery was first embedded on a matrix taken as a value.  On the
    store the rows of the working matrix are distinct objects, each
    reached through one cell of the matrix only; under that condition
    every step on the store is the step on the value it holds. *)

Lemma for_rangeM_sim {S T : Type} (R : S -> T -> Prop) lo hi
    (f : S -> nat -> result S) (g : T -> nat -> result T) (s s' : S) (t : T) :
  R s t ->
  (forall i s t s', R s t -> f s i = Ok s' -> exists t', g t i = Ok t' /\ R s' t') ->
  for_rangeM lo hi f s = Ok s' ->
  exists t', for_rangeM lo hi g t = Ok t' /\ R s' t'.
Proof.
  intros H0 Hstep. unfold for_rangeM.
  generalize (seq lo (hi - lo)). intros l. revert s t H0.
  induction l as [|i l IH]; intros s t H0 E; simpl in *.
  - inversion E; subst. eauto.
  - destruct (f s i) as [s1| |] eqn:E1.
    + destruct (Hstep i s t s1 H0 E1) as (t1 & E2 & H1). rewrite E2.
      apply (IH s1 t1 H1 E).
    + exfalso. clear -E. induction l as [|j l IHl]; simpl in E;
        [discriminate|auto].
    + exfalso. clear -E. induction l as [|j l IHl]; simpl in E;
        [discriminate|auto].
Qed.

Lemma nth_error_splice1 {A : Type} (a : list A) i j :
  nth_error (splice1 a i) j = if j <? i then nth_error a j else nth_error a (S j).
Proof.
  revert i j. induction a as [|x a IH]; intros i j.
  - destruct (j <? i); destruct i, j; reflexivity.
  - destruct i as [|i]; [reflexivity|]. destruct j as [|j]; [reflexivity|].
    simpl splice1. simpl nth_error. rewrite IH.
    change (S j <? S i) with (j <? i). reflexivity.
Qed.

Lemma nth_splice1 {A : Type} (a : list A) i j d :
  nth j (splice1 a i) d = if j <? i then nth j a d else nth (S j) a d.
Proof.
  destruct (Nat.ltb_spec j i); [apply nth_splice1_lt|apply nth_splice1_ge];
    assumption.
Qed.

Lemma NoDup_splice1 {A : Type} (a : list A) i : NoDup a -> NoDup (splice1 a i).
Proof.
  revert i. induction a as [|x a IH]; intros i H; [destruct i; constructor|].
  inversion H; subst. destruct i as [|i]; simpl; [assumption|].
  constructor; [|apply IH; assumption].
  intros Hin. apply H2. clear -Hin. revert i Hin.
  induction a as [|y a IHa]; intros i Hin; [destruct i; destruct Hin|].
  destruct i as [|i]; simpl in Hin; [right; exact Hin|].
  destruct Hin as [->|Hin]; [left; reflexivity|right; apply (IHa i Hin)].
Qed.

Section StoreSimulation.
Context {Stop : Type}.
Variable mergeWith : Stop -> Stop -> Stop.
Implicit Types (h : store (Stop := Stop)) (l : loc) (m : list (list cell)).

Lemma getRow_in_store h l cells : getRow h l = Ok cells -> l < length h.
Proof.
  unfold getRow. intros H. apply nth_error_Some.
  destruct (nth_error h l); [discriminate|discriminate H].
Qed.

Lemma getRow_update_eq h l cells cells' :
  getRow h l = Ok cells -> getRow (update h l (ORow cells')) l = Ok cells'.
Proof.
  intros H. unfold getRow. rewrite nth_error_update_eq; [reflexivity|].
  apply (getRow_in_store _ _ _ H).
Qed.

Lemma getRow_update_ne h l l' (o : object (Stop := Stop)) :
  l <> l' -> getRow (update h l o) l' = getRow h l'.
Proof. intros H. unfold getRow. rewrite nth_error_update_ne by exact H. reflexivity. Qed.

Lemma getStops_update_row h l ns cells cells' :
  getRow h l = Ok cells ->
  getStops (update h l (ORow cells')) ns = getStops h ns.
Proof.
  intros Hrow. unfold getStops, getRow in *.
  destruct (Nat.eq_dec l ns) as [->|Hne].
  - destruct (nth_error h ns) as [[]|] eqn:E; try discriminate.
    rewrite nth_error_update_eq; [reflexivity|].
    apply nth_error_Some. congruence.
  - rewrite nth_error_update_ne by exact Hne. reflexivity.
Qed.

(** The matrix object at [newGraph] lists the distinct rows [rows], which
    hold the rows of the value [m]; the stop array at [newStops] holds
    [ss]. *)
Definition Holds h (newGraph : loc) (rows : list loc) m
    (newStops : loc) (ss : list Stop) : Prop :=
  getMatrix h newGraph = Ok rows /\
  NoDup rows /\
  length rows = length m /\
  (forall r l, nth_error rows r = Some l -> getRow h l = Ok (nth r m [])) /\
  getStops h newStops = Ok ss.

Section Cells.
Variables (newGraph : loc) (rows : list loc) (newStops : loc) (ss : list Stop).

Lemma readCellAt_sim h m r i c :
  Holds h newGraph rows m newStops ss ->
  readCell m r i = Ok c -> readCellAt h newGraph r i = Ok c.
Proof.
  intros (Hm & _ & Hlen & Hrows & _) H. unfold readCell, row_at in H.
  destruct (nth_error m r) as [row|] eqn:E; [|discriminate H].
  cbn [bind] in H. inversion H; subst c.
  assert (Hr : r < length rows).
  { rewrite Hlen. apply nth_error_Some. congruence. }
  destruct (nth_error rows r) as [l|] eqn:El;
    [|apply nth_error_None in El; lia].
  unfold readCellAt, rowRef. rewrite Hm. cbn [bind]. rewrite El. cbn [bind].
  rewrite (Hrows r l El). cbn [bind].
  rewrite (nth_error_nth _ _ [] E). reflexivity.
Qed.

(** Replacing the content of row [r]. *)
Lemma Holds_set_row h m r l cells' :
  Holds h newGraph rows m newStops ss ->
  nth_error rows r = Some l ->
  Holds (update h l (ORow cells')) newGraph rows (array_set [] m r cells')
        newStops ss.
Proof.
  intros (Hm & Hnd & Hlen & Hrows & Hss) El.
  assert (Hrow := Hrows r l El).
  assert (Hr : r < length m).
  { rewrite <- Hlen. apply nth_error_Some. congruence. }
  split; [rewrite (getMatrix_update_row h l newGraph _ cells' Hrow); exact Hm|].
  split; [exact Hnd|].
  split; [rewrite array_set_length_in by exact Hr; exact Hlen|].
  split; [|rewrite (getStops_update_row h l newStops _ cells' Hrow); exact Hss].
  intros r' l' El'. destruct (Nat.eq_dec r' r) as [->|Hne].
  - assert (l' = l) by congruence. subst l'.
    rewrite nth_array_set_eq. apply (getRow_update_eq _ _ _ _ Hrow).
  - assert (Hll : l <> l').
    { intros ->. apply Hne.
      apply (proj1 (NoDup_nth_error rows) Hnd r' r); [|congruence].
      apply nth_error_Some. congruence. }
    rewrite getRow_update_ne by exact Hll.
    rewrite nth_array_set_ne by congruence. apply Hrows, El'.
Qed.

Lemma writeCellAt_sim h m m' r i v :
  Holds h newGraph rows m newStops ss ->
  writeCell m r i v = Ok m' ->
  exists h', writeCellAt h newGraph r i v = Ok h' /\
             Holds h' newGraph rows m' newStops ss.
Proof.
  intros HH H. assert (HH' := HH). destruct HH' as (Hm & _ & Hlen & Hrows & _).
  unfold writeCell, row_at in H.
  destruct (nth_error m r) as [row|] eqn:E; [|discriminate H].
  cbn [bind] in H. inversion H; subst m'.
  assert (Hr : r < length rows).
  { rewrite Hlen. apply nth_error_Some. congruence. }
  destruct (nth_error rows r) as [l|] eqn:El;
    [|apply nth_error_None in El; lia].
  unfold writeCellAt, rowRef. rewrite Hm. cbn [bind]. rewrite El. cbn [bind].
  rewrite (Hrows r l El). cbn [bind].
  rewrite (nth_error_nth _ _ [] E). eexists. split; [reflexivity|].
  apply Holds_set_row; assumption.
Qed.

Ltac sim_read H x E HH :=
  inv_bind H as x E; rewrite (readCellAt_sim _ _ _ _ _ HH E); cbn [bind].

Ltac sim_merge H x E :=
  inv_bind H as x E; cbn [bind].

Ltac sim_write H x E HH h W HH' :=
  inv_bind H as x E;
  destruct (writeCellAt_sim _ _ _ _ _ _ HH E) as (h & W & HH');
  rewrite W; cbn [bind].

Ltac sim_last H HH :=
  destruct (writeCellAt_sim _ _ _ _ _ _ HH H) as (?h & ?W & ?HH');
  eexists; split; eassumption.

Lemma horizontalOverlap_sim lo hi u h m m' :
  Holds h newGraph rows m newStops ss ->
  horizontalOverlap lo hi u m = Ok m' ->
  exists h', horizontalOverlapAt lo hi u newGraph h = Ok h' /\
             Holds h' newGraph rows m' newStops ss.
Proof.
  intros HH H. unfold horizontalOverlap in H. unfold horizontalOverlapAt.
  refine (for_rangeM_sim (fun m h => Holds h newGraph rows m newStops ss)
            _ _ _ _ _ _ _ HH _ H).
  clear. intros i m h m' HH H.
  sim_read H a Ea HH. sim_read H b Eb HH. sim_merge H c Ec.
  sim_write H m1 E1 HH h1 W1 HH1. sim_last H HH1.
Qed.

Lemma horizontalHiOvershoot_sim lo hi u h m m' :
  Holds h newGraph rows m newStops ss ->
  horizontalHiOvershoot lo hi u m = Ok m' ->
  exists h', horizontalHiOvershootAt lo hi u newGraph h = Ok h' /\
             Holds h' newGraph rows m' newStops ss.
Proof.
  intros HH H. unfold horizontalHiOvershoot in H. unfold horizontalHiOvershootAt.
  inv_bind H as ma Ea.
  assert (Ha : exists ha,
    for_rangeM (lo + 1) hi
      (fun h i =>
         b <- readCellAt h newGraph hi i ;;
         u0 <- mergeEdges b Zero ;;
         writeCellAt h newGraph u i u0) h = Ok ha /\
    Holds ha newGraph rows ma newStops ss).
  { refine (for_rangeM_sim (fun m h => Holds h newGraph rows m newStops ss)
              _ _ _ _ _ _ _ HH _ Ea).
    clear. intros i m h m' HH H.
    sim_read H b Eb HH. sim_merge H c Ec. sim_last H HH. }
  destruct Ha as (ha & Eha & HHa). rewrite Eha. cbn [bind].
  refine (for_rangeM_sim (fun m h => Holds h newGraph rows m newStops ss)
            _ _ _ _ _ _ _ HHa _ H).
  clear. intros i m h m' HH H. sim_last H HH.
Qed.

Lemma verticalOverlap_sim lo hi u h m m' :
  Holds h newGraph rows m newStops ss ->
  verticalOverlap lo hi u m = Ok m' ->
  exists h', verticalOverlapAt lo hi u newGraph h = Ok h' /\
             Holds h' newGraph rows m' newStops ss.
Proof.
  intros HH H. unfold verticalOverlap in H. unfold verticalOverlapAt.
  refine (for_rangeM_sim (fun m h => Holds h newGraph rows m newStops ss)
            _ _ _ _ _ _ _ HH _ H).
  clear. intros i m h m' HH H.
  sim_read H a Ea HH. sim_read H b Eb HH. sim_merge H c Ec.
  sim_write H m1 E1 HH h1 W1 HH1. sim_write H m2 E2 HH1 h2 W2 HH2.
  sim_last H HH2.
Qed.

Lemma verticalLoOvershoot_sim lo hi u h m m' :
  Holds h newGraph rows m newStops ss ->
  verticalLoOvershoot lo hi u m = Ok m' ->
  exists h', verticalLoOvershootAt lo hi u newGraph h = Ok h' /\
             Holds h' newGraph rows m' newStops ss.
Proof.
  intros HH H. unfold verticalLoOvershoot in H. unfold verticalLoOvershootAt.
  refine (for_rangeM_sim (fun m h => Holds h newGraph rows m newStops ss)
            _ _ _ _ _ _ _ HH _ H).
  clear. intros i m h m' HH H.
  sim_read H a Ea HH. sim_read H b Eb HH. sim_merge H c Ec.
  sim_write H m1 E1 HH h1 W1 HH1. sim_last H HH1.
Qed.

End Cells.
End StoreSimulation.

Lemma for_range_simM {S T : Type} (R : S -> T -> Prop) lo hi
    (f : S -> nat -> S) (g : T -> nat -> result T) (s : S) (t : T) :
  R s t ->
  (forall i s t, lo <= i < hi -> R s t -> exists t', g t i = Ok t' /\ R (f s i) t') ->
  exists t', for_rangeM lo hi g t = Ok t' /\ R (for_range lo hi f s) t'.
Proof.
  intros H0 Hstep. unfold for_rangeM, for_range.
  assert (Hin : forall i, In i (seq lo (hi - lo)) -> lo <= i < hi)
    by (intros i Hi; apply in_seq in Hi; lia).
  revert Hin. generalize (seq lo (hi - lo)). intros l. revert s t H0.
  induction l as [|i l IH]; intros s t H0 Hin; simpl.
  - eauto.
  - destruct (Hstep i s t (Hin i (or_introl eq_refl)) H0) as (t1 & E1 & H1).
    rewrite E1. apply (IH _ _ H1). intros j Hj. apply Hin. right. exact Hj.
Qed.

Section StoreMergeSimulation.
Context {Stop : Type}.
Variable mergeWith : Stop -> Stop -> Stop.
Implicit Types (h : store (Stop := Stop)) (l : loc) (m : list (list cell)).

Lemma Holds_rows_in_store h newGraph rows m newStops ss l :
  Holds h newGraph rows m newStops ss -> In l rows -> l < length h.
Proof.
  intros (_ & _ & _ & Hrows & _) Hin.
  apply In_nth_error in Hin. destruct Hin as (r & Er).
  apply (getRow_in_store _ _ _ (Hrows r l Er)).
Qed.

Lemma getStops_in_store h l (ss : list Stop) : getStops h l = Ok ss -> l < length h.
Proof.
  unfold getStops. intros H. apply nth_error_Some.
  destruct (nth_error h l); [discriminate|discriminate H].
Qed.

(** Assigning to the stop array. *)
Lemma Holds_set_stops h newGraph rows m newStops ss ss' :
  Holds h newGraph rows m newStops ss ->
  Holds (update h newStops (OStops ss')) newGraph rows m newStops ss'.
Proof.
  intros (Hm & Hnd & Hlen & Hrows & Hss).
  assert (Hl := getStops_in_store _ _ _ Hss).
  split; [|split; [exact Hnd|split; [exact Hlen|split]]].
  - unfold getMatrix, getStops in *.
    destruct (Nat.eq_dec newStops newGraph) as [->|Hne].
    + destruct (nth_error h newGraph) as [[]|]; discriminate.
    + rewrite nth_error_update_ne by exact Hne. exact Hm.
  - intros r l El. assert (Hrow := Hrows r l El).
    rewrite getRow_update_ne; [exact Hrow|].
    intros ->. unfold getRow, getStops in *.
    destruct (nth_error h l) as [[]|]; discriminate.
  - unfold getStops. rewrite nth_error_update_eq by exact Hl. reflexivity.
Qed.

(** Pushing a freshly allocated row. *)
Lemma Holds_push_row h newGraph rows m newStops ss cells :
  Holds h newGraph rows m newStops ss ->
  Holds (update (h ++ [ORow cells]) newGraph (OMatrix (push rows (length h))))
        newGraph (push rows (length h)) (push m cells) newStops ss.
Proof.
  intros HH. assert (HH' := HH). destruct HH' as (Hm & Hnd & Hlen & Hrows & Hss).
  assert (Hg := getMatrix_in_store _ _ _ Hm).
  assert (Hs := getStops_in_store _ _ _ Hss).
  assert (Hfresh : ~ In (length h) rows).
  { intros Hin. apply (Holds_rows_in_store _ _ _ _ _ _ _ HH) in Hin. lia. }
  unfold push. split; [|split; [|split; [|split]]].
  - unfold getMatrix. rewrite nth_error_update_eq; [reflexivity|].
    rewrite length_app. lia.
  - apply NoDup_app; [exact Hnd|constructor; [intros []|constructor]|].
    intros x Hx [<-|[]]. exact (Hfresh Hx).
  - rewrite !length_app. simpl. lia.
  - intros r l El.
    assert (Hlg : newGraph <> l).
    { intros <-. destruct (Nat.lt_ge_cases r (length rows)) as [Hr|Hr].
      - rewrite nth_error_app1 in El by exact Hr.
        assert (Hrow := Hrows r newGraph El). unfold getRow, getMatrix in *.
        destruct (nth_error h newGraph) as [[]|]; discriminate.
      - rewrite nth_error_app2 in El by exact Hr.
        destruct (r - length rows) as [|k]; simpl in El;
          [inversion El; lia|destruct k; discriminate]. }
    rewrite getRow_update_ne by exact Hlg.
    destruct (Nat.lt_ge_cases r (length rows)) as [Hr|Hr].
    + rewrite nth_error_app1 in El by exact Hr.
      rewrite app_nth1 by lia.
      assert (Hrow := Hrows r l El). unfold getRow in *.
      rewrite nth_error_app1 by (apply (getRow_in_store _ _ _ Hrow)).
      exact Hrow.
    + rewrite nth_error_app2 in El by exact Hr.
      destruct (r - length rows) as [|k] eqn:Ek; simpl in El;
        [|destruct k; discriminate].
      inversion El; subst l. assert (r = length m) by lia. subst r.
      rewrite app_nth2, Nat.sub_diag by lia. simpl.
      unfold getRow. rewrite nth_error_app2, Nat.sub_diag by lia. reflexivity.
  - unfold getStops in *.
    assert (Hne : newGraph <> newStops).
    { intros <-. unfold getMatrix in Hm.
      destruct (nth_error h newGraph) as [[]|]; discriminate. }
    rewrite nth_error_update_ne by exact Hne.
    rewrite nth_error_app1 by exact Hs. exact Hss.
Qed.

(** Splicing a row out of the matrix. *)
Lemma Holds_splice h newGraph rows m newStops ss i :
  Holds h newGraph rows m newStops ss ->
  Holds (update h newGraph (OMatrix (splice1 rows i))) newGraph
        (splice1 rows i) (splice1 m i) newStops ss.
Proof.
  intros (Hm & Hnd & Hlen & Hrows & Hss).
  assert (Hg := getMatrix_in_store _ _ _ Hm).
  assert (Hrow_ne : forall l cells, getRow h l = Ok cells -> newGraph <> l).
  { intros l cells Hrow <-. unfold getRow, getMatrix in *.
    destruct (nth_error h newGraph) as [[]|]; discriminate. }
  split; [|split; [|split; [|split]]].
  - unfold getMatrix. rewrite nth_error_update_eq by exact Hg. reflexivity.
  - apply NoDup_splice1, Hnd.
  - destruct (Nat.lt_ge_cases i (length rows)).
    + rewrite !splice1_length by lia. lia.
    + rewrite !splice1_out by lia. exact Hlen.
  - intros r l El. rewrite nth_error_splice1 in El. rewrite nth_splice1.
    destruct (r <? i).
    + rewrite getRow_update_ne by (apply (Hrow_ne _ _ (Hrows _ _ El))).
      apply Hrows, El.
    + rewrite getRow_update_ne by (apply (Hrow_ne _ _ (Hrows _ _ El))).
      apply Hrows, El.
  - unfold getStops in *.
    assert (Hne : newGraph <> newStops).
    { intros <-. unfold getMatrix in Hm.
      destruct (nth_error h newGraph) as [[]|]; discriminate. }
    rewrite nth_error_update_ne by exact Hne. exact Hss.
Qed.

Lemma update_update h l (o1 o2 : object (Stop := Stop)) :
  update (update h l o1) l o2 = update h l o2.
Proof.
  revert l. induction h as [|x h IH]; intros [|l]; simpl; auto.
  rewrite IH. reflexivity.
Qed.

Lemma Holds_rowRef h newGraph rows m newStops ss r :
  Holds h newGraph rows m newStops ss -> r < length m ->
  exists l, rowRef h newGraph r = Ok l /\ nth_error rows r = Some l /\
            getRow h l = Ok (nth r m []).
Proof.
  intros (Hm & _ & Hlen & Hrows & _) Hr.
  destruct (nth_error rows r) as [l|] eqn:El;
    [|apply nth_error_None in El; lia].
  exists l. unfold rowRef. rewrite Hm. cbn [bind]. rewrite El.
  repeat split. apply Hrows, El.
Qed.

Lemma mergeAt_sim lo hi h newGraph rows m newStops ss m' ss' :
  Holds h newGraph rows m newStops ss ->
  merge mergeWith lo hi (m, ss) = Ok (m', ss') ->
  exists h' rows',
    mergeAt mergeWith lo hi newGraph newStops h = Ok h' /\
    Holds h' newGraph rows' m' newStops ss'.
Proof.
  intros HH H. unfold merge in H. unfold mergeAt.
  rewrite (proj2 (proj2 (proj2 (proj2 HH)))). cbn [bind].
  destruct (nth_error ss lo) as [stopLo|]; [|discriminate H].
  destruct (nth_error ss hi) as [stopHi|]; [|discriminate H].
  (* the stop array *)
  apply (Holds_set_stops _ _ _ _ _ _
           (splice1 (splice1 (push ss (mergeWith stopLo stopHi)) lo) (hi - 1)))
    in HH.
  set (h1 := update h newStops _) in *. clearbody h1.
  (* the new row *)
  rewrite (proj1 HH). cbn [bind]. unfold alloc. cbv beta iota zeta.
  assert (Hlen0 : length rows = length m) by apply HH.
  rewrite Hlen0.
  apply (Holds_push_row _ _ _ _ _ _ (repeat Zero (length m - 1))) in HH.
  assert (Hu : length (push rows (length h1)) =
               length (push m (repeat Zero (length m - 1)))).
  { unfold push. rewrite !length_app. simpl. lia. }
  rewrite Hu. clear Hu Hlen0.
  set (h2 := update (h1 ++ _) newGraph _) in *. clearbody h2.
  set (rows2 := push rows (length h1)) in *. clearbody rows2.
  set (m2 := push m (repeat Zero (length m - 1))) in *.
  set (u := length m2 - 1) in *.
  (* the four loops *)
  inv_bind H as m3 E3.
  destruct (horizontalOverlap_sim _ _ _ _ _ _ _ _ _ _ HH E3) as (h3 & W3 & HH3).
  rewrite W3. cbn [bind].
  inv_bind H as m4 E4.
  destruct (horizontalHiOvershoot_sim _ _ _ _ _ _ _ _ _ _ HH3 E4) as (h4 & W4 & HH4).
  rewrite W4. cbn [bind].
  inv_bind H as m5 E5.
  destruct (verticalOverlap_sim _ _ _ _ _ _ _ _ _ _ HH4 E5) as (h5 & W5 & HH5).
  rewrite W5. cbn [bind].
  inv_bind H as m6 E6.
  destruct (verticalLoOvershoot_sim _ _ _ _ _ _ _ _ _ _ HH5 E6) as (h6 & W6 & HH6).
  rewrite W6. cbn [bind].
  (* the splices *)
  inv_bind H as unionRow Eu. unfold row_at in Eu.
  destruct (nth_error m6 u) as [row|] eqn:Erow; [|discriminate Eu].
  inversion Eu; subst row. clear Eu.
  assert (Hur : u < length m6) by (apply nth_error_Some; congruence).
  destruct (Holds_rowRef _ _ _ _ _ _ u HH6 Hur) as (lu & Eref & Elu & Egetu).
  rewrite Eref. cbn [bind]. rewrite Egetu. cbn [bind].
  rewrite (nth_error_nth _ _ [] Erow).
  apply (Holds_set_row _ _ _ _ _ _ u lu
           (splice1 (splice1 unionRow lo) (hi - 1))) in HH6; [|exact Elu].
  set (h7 := update h6 lu _) in *. clearbody h7.
  set (m7 := array_set [] m6 u _) in *.
  rewrite (proj1 HH6). cbn [bind].
  apply (Holds_splice _ _ _ _ _ _ lo) in HH6.
  apply (Holds_splice _ _ _ _ _ _ (hi - 1)) in HH6.
  rewrite update_update in HH6.
  set (rows8 := splice1 (splice1 rows2 lo) (hi - 1)) in *.
  set (m8 := splice1 (splice1 m7 lo) (hi - 1)) in *.
  set (h9 := update h7 newGraph (OMatrix rows8)) in *. clearbody h9.
  (* the nulls *)
  inversion H as [[Hm' Hss']]. clear H.
  replace (length rows8) with (length m8) by (symmetry; apply HH6).
  destruct (for_range_simM
              (fun m h => Holds h newGraph rows8 m newStops
                 (splice1 (splice1 (push ss (mergeWith stopLo stopHi)) lo) (hi - 1)))
              0 (length m8 - 1)
              (fun newGraph0 i =>
                 array_set [] newGraph0 i (removeNulls (nth i newGraph0 [])))
              (fun h i =>
                 l <- rowRef h newGraph i ;;
                 cells <- getRow h l ;;
                 Ok (update h l (ORow (removeNulls cells))))
              m8 h9 HH6) as (h' & Eh' & HH').
  - intros i mi hi0 Hi HHi.
    assert (Hlen : length mi = length m8).
    { destruct HHi as (_ & _ & Hl1 & _). destruct HH6 as (_ & _ & Hl2 & _).
      congruence. }
    destruct (Holds_rowRef _ _ _ _ _ _ i HHi ltac:(lia)) as (l & Eref' & El & Eget).
    rewrite Eref'. cbn [bind]. rewrite Eget. cbn [bind].
    eexists. split; [reflexivity|]. apply Holds_set_row; assumption.
  - exists h', rows8. split; [exact Eh'|exact HH'].
Qed.

End StoreMergeSimulation.

Section StoreStepSimulation.
Context {Stop : Type}.
Variable mergeWith : Stop -> Stop -> Stop.
Implicit Types (h : store (Stop := Stop)) (l : loc) (m : list (list cell)).

Lemma rowsOf_Forall2 h rows m :
  rowsOf h rows = Ok m <-> Forall2 (fun l cells => getRow h l = Ok cells) rows m.
Proof.
  revert m. induction rows as [|l rows IH]; intros m; simpl.
  - split; [intros H; inversion H; constructor|intros H; inversion H; reflexivity].
  - split.
    + intros H. inv_bind H as cells Ec. inv_bind H as rest Er.
      inversion H; subst. constructor; [exact Ec|]. apply IH. reflexivity.
    + intros H. inversion H as [|? cells ? rest Ec Hrest]; subst.
      rewrite Ec. cbn [bind]. apply IH in Hrest. rewrite Hrest. reflexivity.
Qed.

Lemma Holds_matrixOf h newGraph rows m newStops (ss : list Stop) :
  Holds h newGraph rows m newStops ss -> matrixOf h newGraph = Ok m.
Proof.
  intros (Hm & _ & Hlen & Hrows & _). unfold matrixOf. rewrite Hm. cbn [bind].
  apply rowsOf_Forall2. clear Hm. revert m Hlen Hrows.
  induction rows as [|l rows IH]; intros [|cells m] Hlen Hrows;
    simpl in Hlen; try discriminate; constructor.
  - apply (Hrows 0 l eq_refl).
  - apply IH; [lia|]. intros r l' El. apply (Hrows (S r) l' El).
Qed.

(** Allocating a stop array behind the working matrix. *)
Lemma Holds_alloc_stops h newGraph rows m oldStops (ss ss' : list Stop) :
  Holds h newGraph rows m oldStops ss ->
  Holds (h ++ [OStops ss']) newGraph rows m (length h) ss'.
Proof.
  intros (Hm & Hnd & Hlen & Hrows & _).
  split; [|split; [exact Hnd|split; [exact Hlen|split]]].
  - unfold getMatrix in *.
    rewrite nth_error_app1 by (apply (getMatrix_in_store _ _ _ Hm)). exact Hm.
  - intros r l El. assert (Hrow := Hrows r l El). unfold getRow in *.
    rewrite nth_error_app1 by (apply (getRow_in_store _ _ _ Hrow)). exact Hrow.
  - unfold getStops. rewrite nth_error_app2, Nat.sub_diag by lia. reflexivity.
Qed.

Lemma copyRows_sim oldRows :
  forall oldCells h newGraph rows m stopsAt (ss : list Stop),
  Forall2 (fun l cells => getRow h l = Ok cells) oldRows oldCells ->
  Holds h newGraph rows m stopsAt ss ->
  exists h' rows',
    copyRows h oldRows newGraph = Ok h' /\
    Holds h' newGraph rows' (m ++ oldCells) stopsAt ss.
Proof.
  unfold copyRows.
  induction oldRows as [|r oldRows IH];
    intros oldCells h newGraph rows m stopsAt ss Hold HH;
    inversion Hold as [|? cells ? rest Ec Hrest]; subst; simpl.
  - exists h, rows. rewrite app_nil_r. split; [reflexivity|exact HH].
  - rewrite Ec. cbn [bind]. unfold alloc. cbv beta iota zeta.
    assert (Hm := proj1 HH).
    assert (Hg := getMatrix_in_store _ _ _ Hm).
    assert (Em : getMatrix (h ++ [ORow cells]) newGraph = Ok rows).
    { unfold getMatrix in *. rewrite nth_error_app1 by exact Hg. exact Hm. }
    rewrite Em. cbn [bind].
    assert (HH1 := Holds_push_row _ _ _ _ _ _ cells HH).
    set (h1 := update (h ++ [ORow cells]) newGraph _) in *.
    assert (Hrest1 : Forall2 (fun l cells => getRow h1 l = Ok cells) oldRows rest).
    { clear -Hrest Hm. revert Hrest. apply Forall2_impl. intros l c Hrow.
      unfold h1. rewrite getRow_update_ne.
      - unfold getRow in *.
        rewrite nth_error_app1 by (apply (getRow_in_store _ _ _ Hrow)). exact Hrow.
      - intros <-. unfold getRow, getMatrix in *.
        destruct (nth_error h newGraph) as [[]|]; discriminate. }
    destruct (IH rest h1 newGraph _ _ stopsAt ss Hrest1 HH1) as (h' & rows' & E & HH').
    exists h', rows'. split; [exact E|].
    unfold push in HH'. rewrite <- app_assoc in HH'. exact HH'.
Qed.

Lemma allocRows_spec h m :
  allocRows h m = (h ++ map ORow m, seq (length h) (length m)).
Proof.
  unfold allocRows.
  assert (H : forall (acc : list loc) (h0 : store (Stop := Stop)),
    fold_left (fun acc cells =>
       let '(h, l) := alloc (fst acc) (ORow cells) in (h, push (snd acc) l))
      m (h0, acc) =
    (h0 ++ map ORow m, acc ++ seq (length h0) (length m))).
  { induction m as [|cells m IH]; intros acc h0; simpl.
    - rewrite !app_nil_r. reflexivity.
    - rewrite IH. unfold push. rewrite <- !app_assoc, length_app. simpl.
      rewrite Nat.add_1_r. reflexivity. }
  apply (H [] h).
Qed.

Lemma rows_after_alloc m : forall h (tail : store (Stop := Stop)),
  Forall2 (fun l cells => getRow (h ++ map ORow m ++ tail) l = Ok cells)
          (seq (length h) (length m)) m.
Proof.
  induction m as [|cells m IH]; intros h tail; simpl; constructor.
  - unfold getRow. rewrite nth_error_app2, Nat.sub_diag by lia. reflexivity.
  - specialize (IH (h ++ [ORow cells]) tail).
    rewrite <- app_assoc, length_app in IH. simpl in IH.
    rewrite Nat.add_1_r in IH. exact IH.
Qed.

Lemma newTransitGraphAt_sim h edgeList n stopsAt (ss : list Stop) :
  getStops h stopsAt = Ok ss ->
  graphOf (fst (newTransitGraphAt h edgeList n stopsAt))
          (snd (newTransitGraphAt h edgeList n stopsAt)) =
  Ok (newTransitGraph edgeList n ss).
Proof.
  intros Hss. unfold newTransitGraphAt, newTransitGraph.
  set (m := fold_left storeEdge edgeList (zeroTriangle n)).
  rewrite allocRows_spec. unfold alloc. cbn [fst snd].
  set (h1 := h ++ map ORow m).
  unfold graphOf, getGraph.
  rewrite nth_error_app2, Nat.sub_diag by lia. cbn [nth_error bind].
  unfold matrixOf, getMatrix.
  rewrite nth_error_app1 by (rewrite length_app; simpl; lia).
  rewrite nth_error_app2, Nat.sub_diag by lia. cbn [nth_error bind].
  assert (Hrows : rowsOf ((h1 ++ [OMatrix (seq (length h) (length m))]) ++
                          [OGraph n (length h1) stopsAt])
                         (seq (length h) (length m)) = Ok m).
  { apply rowsOf_Forall2. unfold h1. rewrite <- !app_assoc.
    apply rows_after_alloc. }
  rewrite Hrows. cbn [bind].
  unfold getStops in *.
  assert (Hs : stopsAt < length h).
  { apply nth_error_Some. destruct (nth_error h stopsAt); discriminate. }
  rewrite nth_error_app1 by (rewrite length_app; unfold h1; rewrite length_app; lia).
  rewrite nth_error_app1 by (unfold h1; rewrite length_app; lia).
  unfold h1. rewrite nth_error_app1 by exact Hs.
  destruct (nth_error h stopsAt) as [[]|]; try discriminate.
  inversion Hss; subst. reflexivity.
Qed.

(** A merge step on the store takes the graph held at [graph] to the
    graph that the step on values computes from it. *)
Theorem mergeStepAt_refines_mergeStep fuel h graph
    (g g' : TransitGraph (Stop := Stop)) :
  graphOf h graph = Ok g ->
  mergeStep mergeWith fuel g = Ok g' ->
  exists h' graph',
    mergeStepAt mergeWith fuel h graph = Ok (h', graph') /\
    graphOf h' graph' = Ok g'.
Proof.
  intros Hg H. unfold mergeStepAt. rewrite Hg.
  unfold graphOf in Hg. inv_bind Hg as ngs Egraph. destruct ngs as [[n gl] sl].
  inv_bind Hg as m Em. inv_bind Hg as ss Ess. inversion Hg; subst g. clear Hg.
  cbn [bind]. unfold mergeStep in H. cbn [numNodes G stops] in H.
  (* the transfer graph *)
  assert (Ht := newTransitGraphAt_sim h (getTransferEdges (mkGraph n m ss)) n sl ss Ess).
  destruct (newTransitGraphAt_extends h (getTransferEdges (mkGraph n m ss)) n sl)
    as [He1 _].
  destruct (newTransitGraphAt h (getTransferEdges (mkGraph n m ss)) n sl)
    as [h1 transferGraph].
  cbn [fst snd] in Ht, He1. rewrite Ht. cbn [bind].
  inv_bind H as nodeGroupings Egroups. cbn [bind].
  destruct (filter (fun e => 1 <? length e) nodeGroupings)
    as [|[|indexA [|indexB ?]] ?]; try discriminate H.
  (* the copies *)
  unfold alloc. cbv beta iota zeta.
  unfold matrixOf in Em. inv_bind Em as oldRows Eold.
  assert (Hnth1 : forall a o, nth_error h a = Some o ->
                              nth_error (h1 ++ [OMatrix []]) a = Some o).
  { intros a o E. destruct He1 as [ext ->]. rewrite <- app_assoc.
    rewrite nth_error_app1; [exact E|]. apply nth_error_Some. congruence. }
  assert (Eold1 : getMatrix (h1 ++ [OMatrix []]) gl = Ok oldRows).
  { unfold getMatrix in *. destruct (nth_error h gl) as [o|] eqn:E; [|discriminate].
    rewrite (Hnth1 _ _ E). exact Eold. }
  rewrite Eold1. cbn [bind].
  assert (Hold : Forall2 (fun l cells => getRow (h1 ++ [OMatrix []]) l = Ok cells)
                         oldRows m).
  { apply rowsOf_Forall2 in Em. revert Em. apply Forall2_impl. intros a c Hrow.
    unfold getRow in *. destruct (nth_error h a) as [o|] eqn:E; [|discriminate].
    rewrite (Hnth1 _ _ E). exact Hrow. }
  assert (Ess1 : getStops (h1 ++ [OMatrix []]) sl = Ok ss).
  { unfold getStops in *. destruct (nth_error h sl) as [o|] eqn:E; [|discriminate].
    rewrite (Hnth1 _ _ E). exact Ess. }
  assert (HH0 : Holds (h1 ++ [OMatrix []]) (length h1) [] [] sl ss).
  { split; [|split; [constructor|split; [reflexivity|split; [|exact Ess1]]]].
    - unfold getMatrix. rewrite nth_error_app2, Nat.sub_diag by lia. reflexivity.
    - intros r a El. destruct r; discriminate El. }
  destruct (copyRows_sim oldRows m _ _ _ _ _ _ Hold HH0) as (h2 & rows2 & Ec & HH2).
  rewrite Ec. cbn [bind]. simpl app in HH2.
  rewrite (proj2 (proj2 (proj2 (proj2 HH2)))). cbn [bind].
  apply (Holds_alloc_stops _ _ _ _ _ _ ss) in HH2.
  (* the surgery *)
  rewrite map_id in H.
  inv_bind H as merged Emerged. destruct merged as [m' ss'].
  assert (Hsim : exists h3 rows3,
    mergeTopAt mergeWith indexA indexB (length h1) (length h2)
               (h2 ++ [OStops ss]) = Ok h3 /\
    Holds h3 (length h1) rows3 m' (length h2) ss').
  { unfold mergeTop in Emerged. unfold mergeTopAt.
    destruct (indexA <? indexB); eapply mergeAt_sim; eauto. }
  destruct Hsim as (h3 & rows3 & E3 & HH3). rewrite E3. cbn [bind].
  (* the new graph *)
  rewrite (Holds_matrixOf _ _ _ _ _ _ HH3). cbn [bind].
  inv_bind H as newEdgeList Eedges. inversion H; subst g'. clear H. cbn [bind].
  assert (Hn := newTransitGraphAt_sim h3 newEdgeList (n - 1) (length h2) ss'
                  (proj2 (proj2 (proj2 (proj2 HH3))))).
  destruct (newTransitGraphAt h3 newEdgeList (n - 1) (length h2)) as [h4 graph4].
  exists h4, graph4. split; [reflexivity|exact Hn].
Qed.

End StoreStepSimulation.

Section StoreLoopSimulation.
Context {Stop : Type}.
Variable mergeWith : Stop -> Stop -> Stop.

Lemma mergeLoopAt_refines_mergeLoop fuel :
  forall (h : store (Stop := Stop)) graph (g g' : TransitGraph (Stop := Stop)),
  graphOf h graph = Ok g ->
  mergeLoop mergeWith fuel g = Ok g' ->
  exists h' graph',
    mergeLoopAt mergeWith fuel h graph = Ok (h', graph') /\
    graphOf h' graph' = Ok g'.
Proof.
  induction fuel as [|fuel IH]; intros h graph g g' Hg H; [discriminate H|].
  cbn [mergeLoop] in H. cbn [mergeLoopAt]. rewrite Hg. cbn [bind].
  destruct (0 <? length (getTransferEdges g)).
  - inv_bind H as g1 E1.
    destruct (mergeStepAt_refines_mergeStep mergeWith _ _ _ _ _ Hg E1)
      as (h1 & graph1 & Es & Hg1).
    rewrite Es. cbn [bind]. exact (IH _ _ _ _ Hg1 H).
  - inversion H; subst g'. exists h, graph. split; [reflexivity|exact Hg].
Qed.

(** X13: the merge carried out on the store, through working copies
    whose rows are shared by reference and written in place, computes
    the merge carried out on values: from a store holding the graph it
    returns [None], leaving the store as it was, exactly when the merge
    on values does, and otherwise the address of a graph equal to the
    result of the merge on values. *)
Theorem mergeTransferNodesAt_refines_mergeTransferNodes fuel
    (h : store (Stop := Stop)) graph (g : TransitGraph (Stop := Stop)) r :
  graphOf h graph = Ok g ->
  mergeTransferNodes mergeWith fuel g = Ok r ->
  match r with
  | None => mergeTransferNodesAt mergeWith fuel h graph = Ok (h, None)
  | Some g' =>
    exists h' graph',
      mergeTransferNodesAt mergeWith fuel h graph = Ok (h', Some graph') /\
      graphOf h' graph' = Ok g'
  end.
Proof.
  intros Hg H. unfold mergeTransferNodes in H. unfold mergeTransferNodesAt.
  rewrite Hg. cbn [bind].
  destruct (length (getTransferEdges g) =? 0).
  - inversion H; subst r. reflexivity.
  - inv_bind H as g' E. inversion H; subst r.
    destruct (mergeLoopAt_refines_mergeLoop _ _ _ _ _ Hg E) as (h' & graph' & El & Hg').
    exists h', graph'. rewrite El. cbn [bind]. split; [reflexivity|exact Hg'].
Qed.

End StoreLoopSimulation.

(* ================================================================== *)
(** * Further properties of the algorithms *)

(* ------------------------------------------------------------------ *)
(** ** Depth-first search: the nodes it visits *)

Lemma filter_length_mono {A : Type} (p q : A -> bool) (l : list A) :
  (forall x, In x l -> p x = true -> q x = true) ->
  length (filter p l) <= length (filter q l).
Proof.
  induction l as [|a l IH]; intros H; simpl; [lia|].
  assert (IH' := IH (fun x Hx => H x (or_intror Hx))).
  destruct (p a) eqn:Ep.
  - rewrite (H a (or_introl eq_refl) Ep). simpl. lia.
  - destruct (q a); simpl; lia.
Qed.

Lemma filter_length_lt {A : Type} (p q : A -> bool) (l : list A) (x : A) :
  (forall y, In y l -> p y = true -> q y = true) ->
  In x l -> p x = false -> q x = true ->
  length (filter p l) < length (filter q l).
Proof.
  induction l as [|a l IH]; intros H Hin Hp Hq; simpl; [contradiction|].
  assert (Hmono := filter_length_mono p q l (fun y Hy => H y (or_intror Hy))).
  destruct Hin as [->|Hin].
  - rewrite Hp, Hq. simpl. lia.
  - assert (IH' := IH (fun y Hy => H y (or_intror Hy)) Hin Hp Hq).
    destruct (p a) eqn:Ep.
    + rewrite (H a (or_introl eq_refl) Ep). simpl. lia.
    + destruct (q a); simpl; lia.
Qed.

Lemma marked_array_set (D : list bool) (i v : nat) :
  nth v (array_set false D i true) false = true <->
  v = i \/ nth v D false = true.
Proof.
  destruct (Nat.eq_dec i v) as [->|Hne].
  - rewrite nth_array_set_eq. tauto.
  - rewrite nth_array_set_ne by exact Hne. split; [tauto|].
    intros [->|H]; [contradiction|exact H].
Qed.

Section DfsFacts.
Context {Stop : Type}.
Variable graph : TransitGraph (Stop := Stop).

(** What the loop of [dfsExplore] can find from [u]: it looks at the
    indices below [numNodes]. *)
Definition neighbour (u v : nat) : Prop :=
  v < numNodes graph /\ edgeExists graph u v = true.

Inductive connected (start : nat) : nat -> Prop :=
| connected_here : connected start start
| connected_step v w : connected start v -> neighbour v w -> connected start w.

Lemma connected_trans u v w : connected u v -> connected v w -> connected u w.
Proof.
  intros Huv Hvw. induction Hvw as [|x y _ IH Hxy]; [exact Huv|].
  apply (connected_step u x y IH Hxy).
Qed.

(** The nodes of the graph not flagged in [D]. *)
Definition unmarked (D : list bool) : nat :=
  length (filter (fun i => negb (nth i D false)) (seq 0 (numNodes graph))).

Lemma unmarked_le D : unmarked D <= numNodes graph.
Proof.
  unfold unmarked.
  assert (H := filter_length_le (fun i => negb (nth i D false))
                                (seq 0 (numNodes graph))).
  rewrite length_seq in H. exact H.
Qed.

Lemma unmarked_mono D D' :
  (forall v, nth v D false = true -> nth v D' false = true) ->
  unmarked D' <= unmarked D.
Proof.
  intros H. apply filter_length_mono. intros x _ Hx.
  destruct (nth x D false) eqn:E; [|reflexivity].
  rewrite (H x E) in Hx. exact Hx.
Qed.

Lemma unmarked_set D i :
  i < numNodes graph -> nth i D false = false ->
  unmarked (array_set false D i true) < unmarked D.
Proof.
  intros Hi Hf. apply (filter_length_lt _ _ _ i).
  - intros y _ Hy. destruct (nth y D false) eqn:E; [|reflexivity].
    rewrite (proj2 (marked_array_set D i y) (or_intror E)) in Hy. exact Hy.
  - apply in_seq. lia.
  - rewrite nth_array_set_eq. reflexivity.
  - rewrite Hf. reflexivity.
Qed.

(** What a call of [dfsExplore] on [node] has done when it returns
    [D'], having visited the nodes [new] in that order. *)
Definition Explored (D : list bool) (node : nat) (D' : list bool)
    (new : list nat) : Prop :=
  NoDup new /\
  (forall v, nth v D' false = true <-> nth v D false = true \/ In v new) /\
  (forall v, In v new -> nth v D false = false) /\
  (forall v, In v new -> connected node v) /\
  (forall v w, In v new -> neighbour v w -> nth w D' false = true).

(** The node visited right after [node]: the first neighbour of [node]
    that was not flagged. *)
Definition FirstFound (D : list bool) (node : nat) (upto : nat)
    (rest : list nat) : Prop :=
  match rest with
  | [] => forall w, w < upto -> neighbour node w ->
                    nth w D false = true \/ w = node
  | b :: _ => neighbour node b /\ nth b D false = false /\ b <> node /\
              forall w, w < b -> neighbour node w ->
                        nth w D false = true \/ w = node
  end.

Lemma dfsExplore_explores fuel :
  forall D t node parent,
  unmarked (array_set false D node true) < fuel ->
  nth node D false = false ->
  exists D' t' rest,
    dfsExplore graph fuel (D, t) node parent = Ok (D', t') /\
    visitedNodes t' = visitedNodes t ++ node :: rest /\
    Explored D node D' (node :: rest) /\
    FirstFound D node (numNodes graph) rest.
Proof.
  induction fuel as [|fuel IH]; intros D t node parent Hfuel Hnode; [lia|].
  rewrite dfsExplore_S. cbn [fst snd].
  set (D1 := array_set false D node true) in *.
  set (t1 := visitNode node
               (if truthy parent
                then visit (createEdge graph (valueOf parent) node) t else t)).
  assert (Ht1 : visitedNodes t1 = visitedNodes t ++ [node]).
  { unfold t1. destruct (truthy parent); reflexivity. }
  pose (Inv := fun (i : nat) (st : dfsState) =>
    exists rest,
      visitedNodes (snd st) = visitedNodes t ++ node :: rest /\
      NoDup (node :: rest) /\
      (forall v, nth v (fst st) false = true <->
                 nth v D false = true \/ In v (node :: rest)) /\
      (forall v, In v (node :: rest) -> nth v D false = false) /\
      (forall v, In v (node :: rest) -> connected node v) /\
      (forall v w, In v rest -> neighbour v w -> nth w (fst st) false = true) /\
      (forall w, w < i -> neighbour node w -> nth w (fst st) false = true) /\
      FirstFound D node i rest).
  destruct (for_rangeM_ind Inv 0 (numNodes graph)
              (fun st i =>
                 if edgeExists graph node i && negb (nth i (fst st) false)
                 then dfsExplore graph fuel st i (Some node)
                 else Ok st) (D1, t1)) as (st' & E & HI); [lia| | |].
  - (* the invariant holds before the loop *)
    exists []. cbn [fst snd]. rewrite Ht1.
    split; [reflexivity|].
    split; [constructor; [intros []|constructor]|].
    split.
    { intros v. unfold D1. rewrite marked_array_set. simpl. intuition. }
    split; [intros v [<-|[]]; exact Hnode|].
    split; [intros v [<-|[]]; constructor|].
    split; [intros v w []|].
    split; [intros w Hw; lia|].
    intros w Hw. lia.
  - (* one round *)
    intros i [Dc tc] Hi (rest & Hv & Hnd & Hmarks & Hun & Hconn & Hclosed & Hpre & Hfirst).
    cbn [fst snd] in *.
    destruct (edgeExists graph node i) eqn:Ee; cbn [andb].
    + destruct (nth i Dc false) eqn:Ei; cbn [negb].
      * (* already flagged *)
        exists (Dc, tc). split; [reflexivity|]. exists rest. cbn [fst snd].
        repeat (split; [assumption|]). split.
        -- intros w Hw Hn. destruct (Nat.eq_dec w i) as [->|]; [exact Ei|].
           apply Hpre; [lia|exact Hn].
        -- destruct rest as [|b rest']; [|exact Hfirst]. simpl in *.
           intros w Hw Hn. destruct (Nat.eq_dec w i) as [->|].
           ++ apply Hmarks in Ei. destruct Ei as [Ei|[Ei|[]]]; auto.
           ++ apply Hfirst; [lia|exact Hn].
      * (* a recursive call *)
        assert (Hmono : forall v, nth v D1 false = true -> nth v Dc false = true).
        { intros v Hm. apply Hmarks. unfold D1 in Hm.
          apply marked_array_set in Hm. destruct Hm as [->|Hm]; [right; left|left];
            auto. }
        destruct (IH Dc tc i (Some node)) as (D2 & t2 & rest2 & E2 & Hv2 & Hex2 & _).
        { assert (H1 := unmarked_set Dc i ltac:(lia) Ei).
          assert (H2 := unmarked_mono D1 Dc Hmono). lia. }
        { exact Ei. }
        destruct Hex2 as (Hnd2 & Hmarks2 & Hun2 & Hconn2 & Hclosed2).
        exists (D2, t2). split; [exact E2|].
        exists (rest ++ i :: rest2). cbn [fst snd].
        split; [rewrite Hv2, Hv, <- app_assoc; reflexivity|].
        split.
        { change (node :: rest ++ i :: rest2) with ((node :: rest) ++ i :: rest2).
          apply NoDup_app; [exact Hnd|exact Hnd2|].
          intros a Ha Ha2. apply Hun2 in Ha2.
          assert (Hm : nth a Dc false = true) by (apply Hmarks; right; exact Ha).
          congruence. }
        split.
        { intros v. rewrite Hmarks2, Hmarks.
          change (node :: rest ++ i :: rest2) with ((node :: rest) ++ i :: rest2).
          rewrite in_app_iff. tauto. }
        split.
        { intros v Hin.
          change (node :: rest ++ i :: rest2) with ((node :: rest) ++ i :: rest2) in Hin.
          apply in_app_iff in Hin. destruct Hin as [Hin|Hin]; [apply Hun, Hin|].
          apply Hun2 in Hin. destruct (nth v D false) eqn:Ev; [|reflexivity].
          assert (Hm : nth v Dc false = true) by (apply Hmarks; left; exact Ev).
          congruence. }
        split.
        { intros v Hin.
          change (node :: rest ++ i :: rest2) with ((node :: rest) ++ i :: rest2) in Hin.
          apply in_app_iff in Hin. destruct Hin as [Hin|Hin]; [apply Hconn, Hin|].
          apply (connected_trans node i v); [|apply Hconn2, Hin].
          apply (connected_step node node i); [constructor|].
          split; [lia|exact Ee]. }
        split.
        { intros v w Hin Hn. apply in_app_iff in Hin. destruct Hin as [Hin|Hin].
          - apply Hmarks2. left. apply (Hclosed v w Hin Hn).
          - apply (Hclosed2 v w Hin Hn). }
        split.
        { intros w Hw Hn. destruct (Nat.eq_dec w i) as [->|].
          - apply Hmarks2. right. left. reflexivity.
          - apply Hmarks2. left. apply Hpre; [lia|exact Hn]. }
        destruct rest as [|b rest']; [|exact Hfirst]. simpl in Hfirst |- *.
        assert (Hi_D : nth i D false = false /\ i <> node).
        { split.
          - destruct (nth i D false) eqn:Ev; [|reflexivity].
            assert (Hm : nth i Dc false = true) by (apply Hmarks; left; exact Ev).
            congruence.
          - intros ->.
            assert (Hm : nth node Dc false = true)
              by (apply Hmarks; right; left; reflexivity).
            congruence. }
        split; [split; [lia|exact Ee]|].
        split; [apply Hi_D|]. split; [apply Hi_D|].
        intros w Hw Hn. apply Hfirst; [exact Hw|exact Hn].
    + (* no edge *)
      exists (Dc, tc). split; [reflexivity|]. exists rest. cbn [fst snd].
      repeat (split; [assumption|]). split.
      * intros w Hw Hn. destruct (Nat.eq_dec w i) as [->|].
        -- destruct Hn as [_ Hn]. congruence.
        -- apply Hpre; [lia|exact Hn].
      * destruct rest as [|b rest']; [|exact Hfirst]. simpl in *.
        intros w Hw Hn. destruct (Nat.eq_dec w i) as [->|].
        -- destruct Hn as [_ Hn]. congruence.
        -- apply Hfirst; [lia|exact Hn].
  - (* after the loop *)
    destruct st' as [D' t']. cbn [fst snd] in *.
    destruct HI as (rest & Hv & Hnd & Hmarks & Hun & Hconn & Hclosed & Hpre & Hfirst).
    cbn [fst snd] in *. eexists D', _, rest.
    unfold dfsState in E. rewrite E. cbn [bind fst snd].
    split; [reflexivity|].
    split; [destruct (truthy parent); exact Hv|].
    split; [|exact Hfirst].
    split; [exact Hnd|]. split; [exact Hmarks|]. split; [exact Hun|].
    split; [exact Hconn|].
    intros v w [<-|Hin] Hn.
    + apply Hpre; [apply Hn|exact Hn].
    + apply (Hclosed v w Hin Hn).
Qed.

(** What the traverser is told between the entry and the return of a
    call, as far as edges go. *)
Definition visits (evs : list Event) : nat := length (filter isVisit evs).
Definition leaves (evs : list Event) : nat := length (filter isLeave evs).

Definition namesEdge (e : Event) : bool :=
  match e with
  | EvVisit None | EvLeave None => false
  | _ => true
  end.

Lemma visits_app a b : visits (a ++ b) = visits a + visits b.
Proof. unfold visits. rewrite filter_app, length_app. reflexivity. Qed.

Lemma leaves_app a b : leaves (a ++ b) = leaves a + leaves b.
Proof. unfold leaves. rewrite filter_app, length_app. reflexivity. Qed.

Lemma edgeExists_sym u v : edgeExists graph u v = edgeExists graph v u.
Proof.
  unfold edgeExists, relation.
  destruct (Nat.ltb_spec v u), (Nat.ltb_spec u v); try reflexivity; lia.
Qed.

Lemma createEdge_exists u v :
  edgeExists graph u v = true -> createEdge graph u v <> None.
Proof.
  unfold edgeExists, createEdge. destruct (relation graph u v); discriminate.
Qed.

Lemma dfsExplore_events fuel :
  forall D t node parent D' t',
  dfsExplore graph fuel (D, t) node parent = Ok (D', t') ->
  (truthy parent = true -> edgeExists graph (valueOf parent) node = true) ->
  exists rest evs,
    visitedNodes t' = visitedNodes t ++ node :: rest /\
    events t' = events t ++ evs /\
    visits evs = leaves evs /\
    forallb namesEdge evs = true /\
    (~ In 0 (node :: rest) ->
     visits evs = length rest + (if truthy parent then 1 else 0)).
Proof.
  induction fuel as [|fuel IH]; intros D t node parent D' t' E Hparent;
    [discriminate E|].
  rewrite dfsExplore_S in E. cbn [fst snd] in E.
  set (D1 := array_set false D node true) in *.
  set (t1 := visitNode node
               (if truthy parent
                then visit (createEdge graph (valueOf parent) node) t else t)) in *.
  inv_bind E as st' Eloop. inversion E; subst D' t'. clear E.
  pose (Inv := fun (i : nat) (st : dfsState) =>
    exists rest evs,
      visitedNodes (snd st) = visitedNodes t1 ++ rest /\
      events (snd st) = events t1 ++ evs /\
      visits evs = leaves evs /\
      forallb namesEdge evs = true /\
      (node <> 0 -> ~ In 0 rest -> visits evs = length rest)).
  assert (HI : Inv (numNodes graph) st').
  { apply (for_rangeM_inv Inv 0 (numNodes graph)
             (fun st i =>
                if edgeExists graph node i && negb (nth i (fst st) false)
                then dfsExplore graph fuel st i (Some node)
                else Ok st) (D1, t1) st'); [lia| | |exact Eloop].
    - exists [], []. cbn [fst snd]. rewrite !app_nil_r. repeat split; auto.
    - intros i [Dc tc] [D2 t2] Hi (rest & evs & Hv & He & Hbal & Hnames & Hcount) Ebody.
      cbn [fst snd] in *.
      destruct (edgeExists graph node i && negb (nth i Dc false)) eqn:Ec.
      + apply andb_prop in Ec. destruct Ec as [Ee _].
        destruct (IH Dc tc i (Some node) D2 t2 Ebody)
          as (rest2 & evs2 & Hv2 & He2 & Hbal2 & Hnames2 & Hcount2).
        { intros _. simpl. exact Ee. }
        exists (rest ++ i :: rest2), (evs ++ evs2). cbn [fst snd].
        split; [rewrite Hv2, Hv, <- app_assoc; reflexivity|].
        split; [rewrite He2, He, <- app_assoc; reflexivity|].
        split; [rewrite visits_app, leaves_app; lia|].
        split; [rewrite forallb_app, Hnames, Hnames2; reflexivity|].
        intros Hn0 Hno. rewrite visits_app, length_app.
        rewrite Hcount; [|exact Hn0|intros H; apply Hno, in_app_iff; left; exact H].
        rewrite Hcount2; [|intros H; apply Hno, in_app_iff; right; exact H].
        simpl. destruct node; [contradiction|]. simpl. lia.
      + inversion Ebody; subst D2 t2. exists rest, evs. repeat split; assumption. }
  destruct st' as [D' t']. destruct HI as (rest & evs & Hv & He & Hbal & Hnames & Hcount).
  cbn [fst snd] in *.
  assert (Hv1 : visitedNodes t1 = visitedNodes t ++ [node]).
  { unfold t1. destruct (truthy parent); reflexivity. }
  exists rest.
  destruct (truthy parent) eqn:Etp.
  - exists ([EvVisit (createEdge graph (valueOf parent) node); EvVisitNode node]
            ++ evs ++ [EvLeave (createEdge graph node (valueOf parent))]).
    split; [simpl; rewrite Hv, Hv1, <- app_assoc; reflexivity|].
    split.
    { simpl. rewrite He. unfold t1. simpl. unfold push.
      rewrite <- !app_assoc. reflexivity. }
    split.
    { rewrite visits_app, leaves_app, visits_app, leaves_app.
      unfold visits at 1 3, leaves at 1 3. simpl. lia. }
    split.
    { rewrite forallb_app, forallb_app, Hnames. simpl.
      assert (H1 := createEdge_exists _ _ (Hparent eq_refl)).
      assert (H2 : createEdge graph node (valueOf parent) <> None).
      { apply createEdge_exists. rewrite edgeExists_sym. apply Hparent, eq_refl. }
      destruct (createEdge graph (valueOf parent) node); [|contradiction].
      destruct (createEdge graph node (valueOf parent)); [|contradiction].
      reflexivity. }
    intros Hno. rewrite visits_app, visits_app.
    unfold visits at 1 3. simpl. rewrite Hcount.
    + lia.
    + intros ->. apply Hno. left. reflexivity.
    + intros H. apply Hno. right. exact H.
  - exists (EvVisitNode node :: evs).
    split; [rewrite Hv, Hv1, <- app_assoc; reflexivity|].
    split.
    { rewrite He. unfold t1. simpl. unfold push. rewrite <- app_assoc. reflexivity. }
    split; [exact Hbal|]. split; [exact Hnames|].
    intros Hno. change (visits (EvVisitNode node :: evs)) with (visits evs).
    rewrite Hcount.
    + lia.
    + intros ->. apply Hno. left. reflexivity.
    + intros H. apply Hno. right. exact H.
Qed.

End DfsFacts.

Section DfsRun.
Context {Stop : Type}.
Variable graph : TransitGraph (Stop := Stop).

Lemma connected_marked (D' : list bool) (new : list nat) node :
  In node new ->
  (forall v w, In v new -> neighbour graph v w -> nth w D' false = true) ->
  (forall v, nth v D' false = true -> In v new) ->
  forall v, connected graph node v -> In v new.
Proof.
  intros Hnode Hclosed Hmarks v Hc.
  induction Hc as [|v w _ IH Hn]; [exact Hnode|].
  apply Hmarks, (Hclosed v w IH Hn).
Qed.

(** A whole run of [dfs]. *)
Lemma dfs_run fuel node traverser :
  numNodes graph < fuel ->
  exists traverser' rest evs,
    dfs graph fuel node traverser = Ok traverser' /\
    visitedNodes traverser' = visitedNodes traverser ++ node :: rest /\
    NoDup (node :: rest) /\
    (forall v, In v (node :: rest) <-> connected graph node v) /\
    FirstFound graph (repeat false (numNodes graph)) node (numNodes graph) rest /\
    events traverser' =
      events traverser ++ evs ++
      [EvSummary (stationsVisited (length (visitedNodes traverser')))] /\
    visits evs = leaves evs /\
    forallb namesEdge evs = true /\
    (~ In 0 (node :: rest) -> visits evs = length rest).
Proof.
  intros Hfuel. unfold dfs.
  set (D := repeat false (numNodes graph)).
  assert (HD : forall v, nth v D false = false).
  { intros v. unfold D. apply nth_repeat. }
  destruct (dfsExplore_explores graph fuel D traverser node None)
    as (D' & t' & rest & E & Hv & Hex & Hfirst).
  { assert (H := unmarked_le graph (array_set false D node true)). lia. }
  { apply HD. }
  destruct (dfsExplore_events graph fuel D traverser node None D' t' E)
    as (rest' & evs & Hv' & He & Hbal & Hnames & Hcount).
  { intros H. discriminate H. }
  assert (rest' = rest).
  { rewrite Hv in Hv'. apply app_inv_head in Hv'. congruence. }
  subst rest'.
  destruct Hex as (Hnd & Hmarks & _ & Hconn & Hclosed).
  rewrite E. cbn [bind snd].
  eexists _, rest, evs. split; [reflexivity|]. cbn [visitedNodes events summary].
  split; [exact Hv|]. split; [exact Hnd|]. split.
  { intros v. split; [apply Hconn|].
    apply (connected_marked D' (node :: rest) node);
      [left; reflexivity|exact Hclosed|].
    intros w Hw. apply Hmarks in Hw. destruct Hw as [Hw|Hw]; [|exact Hw].
    rewrite HD in Hw. discriminate Hw. }
  split; [exact Hfirst|]. split.
  { rewrite He. unfold push. rewrite <- app_assoc. reflexivity. }
  split; [exact Hbal|]. split; [exact Hnames|].
  intros Hno. rewrite (Hcount Hno). simpl. lia.
Qed.

End DfsRun.

(** Four stops: stop 0 stands alone, the route 1 - 2 - 3 passes the
    others. *)
Definition lonerAndLine : TransitGraph (Stop := nat) :=
  newTransitGraph [mkEdge route 1 2 4; mkEdge route 2 3 6] 4 [0; 1; 2; 3].

(** X1: a depth-first search returns; it visits the starting node first
    and then, once each, exactly the nodes a chain of edges leads to from
    the starting node; the summary that ends the run counts the nodes the
    traverser has been shown. *)
Theorem dfs_visits_connected_nodes {Stop : Type}
    (graph : TransitGraph (Stop := Stop)) (fuel node : nat)
    (traverser : Traverser) :
  numNodes graph < fuel ->
  exists traverser' rest evs,
    dfs graph fuel node traverser = Ok traverser' /\
    visitedNodes traverser' = visitedNodes traverser ++ node :: rest /\
    NoDup (node :: rest) /\
    (forall v, In v (node :: rest) <-> connected graph node v) /\
    events traverser' =
      events traverser ++ evs ++
      [EvSummary (stationsVisited
                    (length (visitedNodes traverser) + S (length rest)))].
Proof.
  intros Hfuel.
  destruct (dfs_run graph fuel node traverser Hfuel)
    as (t' & rest & evs & E & Hv & Hnd & Hconn & _ & He & _).
  exists t', rest, evs. repeat (split; [assumption|]).
  rewrite He, Hv, length_app. reflexivity.
Qed.

Lemma dfs_visits_connected_nodes_witness :
  exists traverser' rest evs,
    dfs lonerAndLine 5 2 BasicTraverser = Ok traverser' /\
    visitedNodes traverser' = visitedNodes BasicTraverser ++ 2 :: rest /\
    NoDup (2 :: rest) /\
    (forall v, In v (2 :: rest) <-> connected lonerAndLine 2 v) /\
    events traverser' =
      events BasicTraverser ++ evs ++
      [EvSummary (stationsVisited
                    (length (visitedNodes BasicTraverser) + S (length rest)))].
Proof.
  apply (dfs_visits_connected_nodes lonerAndLine 5 2 BasicTraverser).
  vm_compute. lia.
Defined.

(** X2: between its entry and its summary a depth-first search reports
    as many edges left as edges visited, each of them an edge of the
    graph; when node 0 is not among the nodes visited, it reports one
    visited edge for every node visited after the starting node. *)
Theorem dfs_reports_tree_edges {Stop : Type}
    (graph : TransitGraph (Stop := Stop)) (fuel node : nat)
    (traverser : Traverser) :
  numNodes graph < fuel ->
  exists traverser' rest evs,
    dfs graph fuel node traverser = Ok traverser' /\
    visitedNodes traverser' = visitedNodes traverser ++ node :: rest /\
    events traverser' =
      events traverser ++ evs ++
      [EvSummary (stationsVisited (length (visitedNodes traverser')))] /\
    visits evs = leaves evs /\
    forallb namesEdge evs = true /\
    (~ connected graph node 0 ->
     visits evs = length rest /\ leaves evs = length rest).
Proof.
  intros Hfuel.
  destruct (dfs_run graph fuel node traverser Hfuel)
    as (t' & rest & evs & E & Hv & Hnd & Hconn & _ & He & Hbal & Hnames & Hcount).
  exists t', rest, evs. repeat (split; [assumption|]).
  intros Hno. assert (H : visits evs = length rest).
  { apply Hcount. intros Hin. apply Hno, Hconn, Hin. }
  split; [exact H|]. rewrite <- Hbal. exact H.
Qed.

Lemma dfs_reports_tree_edges_witness :
  exists traverser' rest evs,
    dfs lonerAndLine 5 2 BasicTraverser = Ok traverser' /\
    visitedNodes traverser' = visitedNodes BasicTraverser ++ 2 :: rest /\
    events traverser' =
      events BasicTraverser ++ evs ++
      [EvSummary (stationsVisited (length (visitedNodes traverser')))] /\
    visits evs = leaves evs /\
    forallb namesEdge evs = true /\
    (~ connected lonerAndLine 2 0 ->
     visits evs = length rest /\ leaves evs = length rest).
Proof.
  apply (dfs_reports_tree_edges lonerAndLine 5 2 BasicTraverser).
  vm_compute. lia.
Defined.

(* ------------------------------------------------------------------ *)
(** ** The groupings of the transfer graph *)

Section Groupings.
Context {Stop : Type}.
Variable g : TransitGraph (Stop := Stop).
Hypothesis nodes_rows : numNodes g = length (G g).

Lemma connected_lt u v : u < numNodes g -> connected g u v -> v < numNodes g.
Proof. intros Hu Hc. destruct Hc as [|x y _ [Hy _]]; assumption. Qed.

Lemma connected_sym u v : u < numNodes g -> connected g u v -> connected g v u.
Proof.
  intros Hu Hc. induction Hc as [|x y Hux IH [Hy He]]; [constructor|].
  apply (connected_trans g y x u); [|exact IH].
  apply (connected_step g y y x); [constructor|].
  split; [apply (connected_lt u x Hu Hux)|].
  rewrite edgeExists_sym. exact He.
Qed.

(** A grouping, given the nodes [seen] when its search started: the
    nodes connected to its first node, which no smaller unseen node
    precedes. *)
Definition Grouping (seen : list nat) (grp : list nat) : Prop :=
  exists s rest,
    grp = s :: rest /\ s < numNodes g /\
    (forall v, In v grp <-> connected g s v) /\
    (forall v, v < s -> In v seen) /\
    (forall v, In v seen -> ~ In v grp) /\
    FirstFound g (repeat false (numNodes g)) s (numNodes g) rest.

Fixpoint Groupings (seen : list nat) (groups : list (list nat)) : Prop :=
  match groups with
  | [] => True
  | grp :: more => Grouping seen grp /\ Groupings (seen ++ grp) more
  end.

Lemma Groupings_snoc groups : forall seen grp,
  Groupings seen groups -> Grouping (seen ++ concat groups) grp ->
  Groupings seen (groups ++ [grp]).
Proof.
  induction groups as [|x groups IH]; intros seen grp H Hg; simpl in *.
  - rewrite app_nil_r in Hg. split; [exact Hg|exact I].
  - destruct H as [Hx H]. split; [exact Hx|].
    apply IH; [exact H|]. rewrite <- app_assoc. exact Hg.
Qed.

Lemma nodeGroupingsOf_run fuel :
  numNodes g < fuel ->
  exists groups,
    nodeGroupingsOf fuel g = Ok groups /\
    NoDup (concat groups) /\
    (forall v, In v (concat groups) <-> v < numNodes g) /\
    Groupings [] groups.
Proof.
  intros Hfuel. unfold nodeGroupingsOf.
  pose (Inv := fun (i : nat) (acc : list nat * list (list nat)) =>
    fst acc = concat (snd acc) /\
    NoDup (fst acc) /\
    (forall v, v < i -> In v (fst acc)) /\
    (forall v, In v (fst acc) -> v < numNodes g) /\
    (forall v w, In v (fst acc) -> connected g v w -> In w (fst acc)) /\
    Groupings [] (snd acc)).
  destruct (for_rangeM_ind Inv 0 (length (G g))
    (fun acc node =>
       let '(seenNodes, nodeGroupings) := acc in
       if existsb (Nat.eqb node) seenNodes then Ok acc
       else
         traverser <- dfs g fuel node BasicTraverser ;;
         Ok (seenNodes ++ visitedNodes traverser,
             push nodeGroupings (visitedNodes traverser)))
    ([], [])) as (acc & E & HI); [lia| | |].
  - unfold Inv. simpl. repeat split; try constructor; try tauto. intros v Hv. lia.
  - intros i [seen groups] Hi (Hcat & Hnd & Hpre & Hlt & Hclosed & Hgr).
    cbn [fst snd] in *.
    destruct (existsb (Nat.eqb i) seen) eqn:Ex.
    + exists (seen, groups). split; [reflexivity|].
      unfold Inv. cbn [fst snd]. repeat (split; [assumption|]).
      split; [|split; [|split]]; try assumption.
      intros v Hv. destruct (Nat.eq_dec v i) as [->|]; [|apply Hpre; lia].
      apply existsb_exists in Ex. destruct Ex as (x & Hx & Ee).
      apply Nat.eqb_eq in Ee. subst x. exact Hx.
    + destruct (dfs_run g fuel i BasicTraverser Hfuel)
        as (t' & rest & evs & Ed & Hv & Hnd' & Hconn & Hfirst & _).
      rewrite Ed. cbn [bind]. simpl in Hv. rewrite Hv.
      eexists. split; [reflexivity|]. unfold Inv. cbn [fst snd].
      assert (Hi_unseen : ~ In i seen).
      { intros Hin.
        assert (Ht : existsb (Nat.eqb i) seen = true).
        { apply existsb_exists. exists i. split; [exact Hin|apply Nat.eqb_refl]. }
        congruence. }
      assert (Hi_n : i < numNodes g) by lia.
      assert (Hdisj : forall a, In a seen -> ~ In a (i :: rest)).
      { intros a Ha Ha'. apply Hconn in Ha'. apply Hi_unseen.
        apply (Hclosed a i Ha). apply connected_sym; assumption. }
      split.
      { unfold push. rewrite concat_app. simpl. rewrite app_nil_r, Hcat.
        reflexivity. }
      split; [apply NoDup_app; assumption|].
      split.
      { intros v Hv'. apply in_app_iff.
        destruct (Nat.eq_dec v i) as [->|]; [right; left; reflexivity|].
        left. apply Hpre. lia. }
      split.
      { intros v Hin. apply in_app_iff in Hin. destruct Hin as [Hin|Hin].
        - apply Hlt, Hin.
        - apply (connected_lt i v Hi_n), Hconn, Hin. }
      split.
      { intros v w Hin Hc. apply in_app_iff. apply in_app_iff in Hin.
        destruct Hin as [Hin|Hin].
        - left. apply (Hclosed v w Hin Hc).
        - right. apply Hconn. apply (connected_trans g i v w); [|exact Hc].
          apply Hconn, Hin. }
      apply Groupings_snoc; [exact Hgr|].
      exists i, rest. split; [reflexivity|]. split; [exact Hi_n|].
      split; [exact Hconn|]. simpl. rewrite <- Hcat.
      split; [intros v Hv'; apply Hpre, Hv'|]. split; [exact Hdisj|exact Hfirst].
  - destruct acc as [seen groups]. rewrite E. cbn [bind snd].
    destruct HI as (Hcat & Hnd & Hpre & Hlt & _ & Hgr). cbn [fst snd] in *.
    exists groups. split; [reflexivity|]. rewrite <- Hcat.
    split; [exact Hnd|]. split; [|exact Hgr].
    intros v. split; [apply Hlt|]. intros Hv. apply Hpre. lia.
Qed.

Lemma Groupings_Forall groups : forall seen,
  Groupings seen groups ->
  Forall (fun grp => exists s rest,
            grp = s :: rest /\
            (forall v, In v grp <-> connected g s v) /\
            (forall v, In v grp -> s <= v)) groups.
Proof.
  induction groups as [|grp groups IH]; intros seen H; constructor.
  - destruct H as [(s & rest & -> & Hs & Hconn & Hpre & Hdisj & _) _].
    exists s, rest. split; [reflexivity|]. split; [exact Hconn|].
    intros v Hv. destruct (Nat.le_gt_cases s v) as [|Hlt]; [assumption|].
    exfalso. apply (Hdisj v (Hpre v Hlt) Hv).
  - apply (IH (seen ++ grp)). apply H.
Qed.

End Groupings.

(** X3: the searches that [mergeTransferNodes] runs over a graph split
    its nodes into groupings: every node lies in exactly one of them, and
    a grouping holds, after its least node, exactly the nodes a chain of
    edges connects to it. *)
Theorem nodeGroupings_are_components {Stop : Type}
    (g : TransitGraph (Stop := Stop)) (fuel : nat) :
  numNodes g = length (G g) ->
  numNodes g < fuel ->
  exists groups,
    nodeGroupingsOf fuel g = Ok groups /\
    NoDup (concat groups) /\
    (forall v, In v (concat groups) <-> v < numNodes g) /\
    Forall (fun grp => exists s rest,
              grp = s :: rest /\
              (forall v, In v grp <-> connected g s v) /\
              (forall v, In v grp -> s <= v)) groups.
Proof.
  intros Hrows Hfuel.
  destruct (nodeGroupingsOf_run g Hrows fuel Hfuel) as (groups & E & Hnd & Hall & Hgr).
  exists groups. repeat (split; [assumption|]).
  apply (Groupings_Forall g groups [] Hgr).
Qed.

Lemma nodeGroupings_are_components_witness :
  exists groups,
    nodeGroupingsOf 5 lonerAndLine = Ok groups /\
    NoDup (concat groups) /\
    (forall v, In v (concat groups) <-> v < numNodes lonerAndLine) /\
    Forall (fun grp => exists s rest,
              grp = s :: rest /\
              (forall v, In v grp <-> connected lonerAndLine s v) /\
              (forall v, In v grp -> s <= v)) groups.
Proof.
  apply (nodeGroupings_are_components lonerAndLine 5).
  - reflexivity.
  - vm_compute. lia.
Defined.

(* ------------------------------------------------------------------ *)
(** ** Breadth-first search: the nodes it discovers *)

(** The nodes a sequence of calls adds to [visitedNodes]. *)
Definition nodesOf (evs : list Event) : list nat :=
  flat_map (fun e => match e with EvVisitNode n => [n] | _ => [] end) evs.

Lemma nodesOf_app a b : nodesOf (a ++ b) = nodesOf a ++ nodesOf b.
Proof. apply flat_map_app. Qed.

Section BfsReach.
Context {Stop : Type}.
Variable graph : TransitGraph (Stop := Stop).
Hypothesis nodes_rows : numNodes graph = length (G graph).

Lemma bfsScan_visited node Q D t :
  exists evs,
    events (snd (bfsScan graph node (Q, D, t))) = events t ++ evs /\
    visitedNodes (snd (bfsScan graph node (Q, D, t))) =
      visitedNodes t ++ nodesOf evs.
Proof.
  unfold bfsScan.
  apply (for_range_ind (fun (_ : nat) (st : bfsState) =>
    exists evs, events (snd st) = events t ++ evs /\
                visitedNodes (snd st) = visitedNodes t ++ nodesOf evs)); [lia| |].
  - exists []. simpl. rewrite !app_nil_r. split; reflexivity.
  - intros i [[Q1 D1] t1] _ (evs & He & Hv). cbn [fst snd] in *.
    destruct (edgeExists graph node i && negb (nth i D1 false)).
    + exists (evs ++ [EvVisit (createEdge graph node i); EvVisitNode node]).
      cbn [snd]. simpl. unfold push. rewrite He, Hv, nodesOf_app. simpl.
      rewrite <- !app_assoc. split; reflexivity.
    + exists evs. split; assumption.
Qed.

Lemma nodesOf_scanEvents node found :
  nodesOf (scanEvents graph node found) = repeat node (length found).
Proof.
  induction found as [|i found IH]; [reflexivity|]. simpl. f_equal. exact IH.
Qed.

Lemma length_nodesOf_runEvents rounds :
  length (nodesOf (runEvents graph rounds)) = length (concat (map snd rounds)).
Proof.
  induction rounds as [|r rounds IH]; [reflexivity|].
  unfold runEvents in *. simpl. rewrite nodesOf_app, !length_app, IH.
  rewrite nodesOf_scanEvents, repeat_length. reflexivity.
Qed.

Variable startingNode : nat.

(** The state of the loop: the flagged nodes are the starting node and
    the nodes [found]; a flagged node that has left the queue has all its
    neighbours flagged. *)
Definition BfsInv (Q : list nat) (D : list bool) (found : list nat) : Prop :=
  (forall v, nth v D false = true <-> v = startingNode \/ In v found) /\
  NoDup found /\ ~ In startingNode found /\
  (forall v, In v found -> connected graph startingNode v) /\
  (forall q, In q Q -> nth q D false = true) /\
  (forall v w, nth v D false = true -> ~ In v Q -> neighbour graph v w ->
     nth w D false = true).

Lemma discovered_NoDup node D : NoDup (discovered graph node D).
Proof. unfold discovered. apply NoDup_filter, seq_NoDup. Qed.

Lemma In_discovered node D i :
  In i (discovered graph node D) <->
  neighbour graph node i /\ nth i D false = false.
Proof.
  unfold discovered, neighbour. rewrite filter_In, in_seq, andb_true_iff.
  rewrite negb_true_iff, nodes_rows. intuition lia.
Qed.

Lemma BfsInv_scan node Q D D' found :
  BfsInv (node :: Q) D found ->
  (forall j, j < length (G graph) ->
     nth j D' false = nth j D false || edgeExists graph node j) ->
  (forall j, length (G graph) <= j -> nth j D' false = nth j D false) ->
  BfsInv (Q ++ discovered graph node D) D' (found ++ discovered graph node D).
Proof.
  intros (Hmarks & Hnd & Hstart & Hconn & HQ & Hclosed) Hlt Hge.
  assert (HD' : forall v, nth v D' false = true <->
                          nth v D false = true \/ In v (discovered graph node D)).
  { intros v. rewrite In_discovered. unfold neighbour. rewrite nodes_rows.
    destruct (Nat.lt_ge_cases v (length (G graph))) as [Hv|Hv].
    - rewrite (Hlt v Hv). rewrite orb_true_iff.
      destruct (nth v D false); intuition congruence.
    - rewrite (Hge v Hv). intuition lia. }
  assert (Hnode : nth node D false = true) by (apply HQ; left; reflexivity).
  split.
  { intros v. rewrite HD', Hmarks, in_app_iff. tauto. }
  split.
  { apply NoDup_app; [exact Hnd|apply discovered_NoDup|].
    intros a Ha Ha'. apply In_discovered in Ha'. destruct Ha' as [_ Ha'].
    assert (nth a D false = true) by (apply Hmarks; right; exact Ha).
    congruence. }
  split.
  { intros Hin. apply in_app_iff in Hin. destruct Hin as [Hin|Hin];
      [exact (Hstart Hin)|].
    apply In_discovered in Hin. destruct Hin as [_ Hin].
    assert (nth startingNode D false = true) by (apply Hmarks; left; reflexivity).
    congruence. }
  split.
  { intros v Hin. apply in_app_iff in Hin. destruct Hin as [Hin|Hin];
      [apply Hconn, Hin|].
    apply In_discovered in Hin. destruct Hin as [Hn _].
    apply (connected_step graph startingNode node v); [|exact Hn].
    apply Hmarks in Hnode. destruct Hnode as [->|Hnode];
      [constructor|apply Hconn, Hnode]. }
  split.
  { intros q Hin. apply HD'. apply in_app_iff in Hin.
    destruct Hin as [Hin|Hin]; [left; apply HQ; right; exact Hin|right; exact Hin]. }
  intros v w Hv Hq Hn. apply HD'.
  apply HD' in Hv. destruct Hv as [Hv|Hv];
    [|exfalso; apply Hq, in_app_iff; right; exact Hv].
  destruct (Nat.eq_dec v node) as [->|Hne].
  - destruct (nth w D false) eqn:Ew; [left; reflexivity|].
    right. apply In_discovered. split; assumption.
  - left. apply (Hclosed v w Hv); [|exact Hn].
    intros [Heq|Hin]; [congruence|]. apply Hq, in_app_iff. left. exact Hin.
Qed.

Lemma bfsScan_above node Q D t j :
  length (G graph) <= j ->
  nth j (snd (fst (bfsScan graph node (Q, D, t)))) false = nth j D false.
Proof.
  intros Hj. unfold bfsScan.
  apply (for_range_ind (fun (k : nat) (st : bfsState) =>
    nth j (snd (fst st)) false = nth j D false)); [lia|reflexivity|].
  intros i [[Q1 D1] t1] Hi H. cbn [fst snd] in *.
  destruct (edgeExists graph node i && negb (nth i D1 false)); [|exact H].
  cbn [fst snd]. rewrite nth_array_set_ne by lia. exact H.
Qed.

Lemma bfsLoop_reach fuel :
  forall Q D traverser found,
  2 * length (unseen graph D) + length Q < fuel ->
  BfsInv Q D found ->
  exists traverser' rounds,
    bfsLoop graph fuel (Q, D, traverser) = Ok traverser' /\
    events traverser' =
      events traverser ++ runEvents graph rounds ++
      [EvSummary (stationsVisited (length (visitedNodes traverser')))] /\
    visitedNodes traverser' =
      visitedNodes traverser ++ nodesOf (runEvents graph rounds) /\
    NoDup (found ++ concat (map snd rounds)) /\
    (forall v, In v (found ++ concat (map snd rounds)) <->
               connected graph startingNode v /\ v <> startingNode) /\
    (forall pre r post, rounds = pre ++ r :: post ->
       In (fst r) Q \/ In (fst r) (concat (map snd pre))).
Proof.
  induction fuel as [|fuel IH]; intros Q D traverser found Hfuel HI; [lia|].
  destruct Q as [|node Q'].
  - exists (summary (stationsVisited (length (visitedNodes traverser))) traverser), [].
    simpl. rewrite !app_nil_r.
    destruct HI as (Hmarks & Hnd & Hstart & Hconn & _ & Hclosed).
    split; [reflexivity|]. split; [reflexivity|]. split; [reflexivity|].
    split; [exact Hnd|].
    split; [|intros [|x pre] r post H; discriminate H].
    intros v. split.
    + intros Hin. split; [apply Hconn, Hin|]. intros ->. exact (Hstart Hin).
    + intros [Hc Hne].
      assert (Hm : nth v D false = true).
      { induction Hc as [|x y _ IHc Hn].
        - apply Hmarks. left. reflexivity.
        - apply (Hclosed x y); [|intros []|exact Hn].
          destruct (Nat.eq_dec x startingNode) as [->|Hx];
            [apply Hmarks; left; reflexivity|apply IHc, Hx]. }
      apply Hmarks in Hm. destruct Hm as [Hm|Hm]; [contradiction|exact Hm].
  - simpl bfsLoop.
    destruct (bfsScan_spec graph node Q' D traverser) as (D' & t' & E & HE & HD).
    destruct (bfsScan_visited node Q' D traverser) as (evs & HE2 & HV).
    assert (Habove := fun j => bfsScan_above node Q' D traverser j).
    rewrite E in HE2, HV, Habove. cbn [fst snd] in HE2, HV, Habove.
    rewrite E.
    assert (evs = scanEvents graph node (discovered graph node D)).
    { rewrite HE in HE2. apply app_inv_head in HE2. congruence. }
    subst evs.
    assert (Hm := bfsScan_measure graph node D D' HD).
    destruct (IH (Q' ++ discovered graph node D) D' t'
                 (found ++ discovered graph node D))
      as (t'' & rounds & E' & HE' & HV' & Hnd' & Hall' & Hearlier).
    { rewrite length_app. simpl in Hfuel. lia. }
    { apply BfsInv_scan; assumption. }
    exists t'', ((node, discovered graph node D) :: rounds).
    split; [exact E'|]. split.
    { rewrite HE', HE. unfold runEvents. simpl. rewrite <- !app_assoc. reflexivity. }
    split.
    { rewrite HV', HV. unfold runEvents. simpl.
      rewrite nodesOf_app, <- !app_assoc. reflexivity. }
    simpl. rewrite app_assoc. split; [exact Hnd'|]. split; [exact Hall'|].
    intros [|x pre] r post H; simpl in H; inversion H; subst.
    + left. left. reflexivity.
    + destruct (Hearlier pre r post eq_refl) as [Hin|Hin].
      * apply in_app_iff in Hin. destruct Hin as [Hin|Hin].
        -- left. right. exact Hin.
        -- right. simpl. apply in_app_iff. left. exact Hin.
      * right. simpl. apply in_app_iff. right. exact Hin.
Qed.

End BfsReach.

(** X4: a breadth-first search returns; the neighbours its scans
    discover are, once each, exactly the nodes other than the starting
    node that a chain of edges connects to it; the node a scan starts
    from is the starting node or a node discovered by an earlier scan;
    and the summary counts the starting node and one station per
    discovered node. *)
Theorem bfs_discovers_connected_nodes {Stop : Type}
    (graph : TransitGraph (Stop := Stop)) (fuel startingNode : nat)
    (traverser : Traverser) :
  numNodes graph = length (G graph) ->
  2 * length (G graph) + 2 <= fuel ->
  exists traverser' rounds,
    bfs graph fuel startingNode traverser = Ok traverser' /\
    events traverser' =
      events traverser ++ [EvVisitNode startingNode] ++
      flat_map (fun r =>
        flat_map (fun i => [EvVisit (createEdge graph (fst r) i); EvVisitNode (fst r)])
                 (snd r)) rounds ++
      [EvSummary (stationsVisited
         (length (visitedNodes traverser) + 1 + length (concat (map snd rounds))))] /\
    NoDup (concat (map snd rounds)) /\
    (forall v, In v (concat (map snd rounds)) <->
               connected graph startingNode v /\ v <> startingNode) /\
    (forall pre r post, rounds = pre ++ r :: post ->
       fst r = startingNode \/ In (fst r) (concat (map snd pre))).
Proof.
  intros Hrows Hfuel. unfold bfs.
  set (D := array_set false (repeat false (numNodes graph)) startingNode true).
  destruct (bfsLoop_reach graph Hrows startingNode fuel (push [] startingNode) D
              (visitNode startingNode traverser) [])
    as (t' & rounds & E & HE & HV & Hnd & Hall & Hearlier).
  { unfold unseen. simpl.
    assert (H := filter_length_le (fun i => negb (nth i D false))
                                  (seq 0 (length (G graph)))).
    rewrite length_seq in H. lia. }
  { assert (HD : forall v, nth v D false = true <-> v = startingNode).
    { intros v. unfold D. rewrite marked_array_set, nth_repeat.
      intuition congruence. }
    split; [intros v; rewrite HD; simpl; tauto|].
    split; [constructor|]. split; [intros []|]. split; [intros v []|].
    split.
    - intros q [<-|[]]. apply HD. reflexivity.
    - intros v w Hv Hq. exfalso. apply Hq. left. symmetry. apply HD, Hv. }
  exists t', rounds. split; [exact E|].
  split; [|split; [exact Hnd|split; [exact Hall|]]].
  2:{ intros pre r post H. destruct (Hearlier pre r post H) as [[Hin|[]]|Hin];
        [left; symmetry; exact Hin|right; exact Hin]. }
  rewrite HE, HV. simpl. unfold push. rewrite <- !app_assoc.
  rewrite !length_app, length_nodesOf_runEvents. simpl.
  replace (length (visitedNodes traverser) + 1 + length (concat (map snd rounds)))
    with (length (visitedNodes traverser) + S (length (concat (map snd rounds))))
    by lia.
  reflexivity.
Qed.

Lemma bfs_discovers_connected_nodes_witness :
  exists traverser' rounds,
    bfs lonerAndLine 10 2 BasicTraverser = Ok traverser' /\
    events traverser' =
      events BasicTraverser ++ [EvVisitNode 2] ++
      flat_map (fun r =>
        flat_map (fun i => [EvVisit (createEdge lonerAndLine (fst r) i);
                            EvVisitNode (fst r)])
                 (snd r)) rounds ++
      [EvSummary (stationsVisited
         (length (visitedNodes BasicTraverser) + 1 +
          length (concat (map snd rounds))))] /\
    NoDup (concat (map snd rounds)) /\
    (forall v, In v (concat (map snd rounds)) <->
               connected lonerAndLine 2 v /\ v <> 2) /\
    (forall pre r post, rounds = pre ++ r :: post ->
       fst r = 2 \/ In (fst r) (concat (map snd pre))).
Proof.
  apply (bfs_discovers_connected_nodes lonerAndLine 10 2 BasicTraverser).
  - reflexivity.
  - vm_compute. lia.
Defined.

(* ------------------------------------------------------------------ *)
(** ** Dijkstra: the path that is reported *)

Section Trails.
Context {Stop : Type}.
Variable graph : TransitGraph (Stop := Stop).




(** The backward walk never collects an edge that leaves node 0. *)
Lemma backwardWalk_origins P i collected :
  backwardWalk graph P i collected ->
  Forall (fun e => forall edge, e = Some edge -> origin edge <> 0) collected.
Proof.
  induction 1 as [|i p path Ep Hp _ IH]; constructor; [|exact IH].
  intros edge E. unfold createEdge in E.
  destruct (relation graph p i); try discriminate E.
  inversion E; subst edge. exact Hp.
Qed.

End Trails.

Section DijkstraTree.
Context {Stop : Type}.
Variable graph : TransitGraph (Stop := Stop).
Local Abbreviation N := (graph_length graph).

Hypothesis nonneg :
  forall u v, edgeExists graph u v = true -> (0 <= getWeight graph u v)%Z.

Variable start : nat.
Hypothesis start_in : start < N.







End DijkstraTree.

(** X5: whatever the graph, the edges that [dijkstra] passes to [visit]
    never include one that leaves node 0: the backward walk stops at the
    first node whose cell of [P] holds 0, be it the sentinel or the index
    of node 0. *)
Theorem dijkstra_reports_no_edge_from_node_0 {Stop : Type}
    (graph : TransitGraph (Stop := Stop)) (fuel start finish : nat)
    (traverser traverser' : Traverser) (logged : LogLine) :
  dijkstra graph fuel start finish traverser = Ok (logged, traverser') ->
  exists path d,
    events traverser' =
      events traverser ++ map EvVisit path ++ [EvSummary (pathLength d)] /\
    Forall (fun e => forall edge, e = Some edge -> origin edge <> 0) path.
Proof.
  intros E. unfold dijkstra in E. inv_bind E as path Ew.
  inversion E; subst logged traverser'. clear E.
  destruct (walkBack_sound graph fuel _ _ _ _ Ew) as (collected & -> & Hw).
  change ([] ++ collected) with collected.
  eexists (rev collected), _.
  destruct (events_visit_all (rev collected) traverser) as [E1 _].
  split.
  - simpl. rewrite E1. unfold push. rewrite <- app_assoc. reflexivity.
  - apply Forall_rev. apply (backwardWalk_origins graph _ _ _ Hw).
Qed.

Lemma dijkstra_reports_no_edge_from_node_0_witness :
  exists path d,
    events (mkTraverser []
              [EvVisit (Some (mkEdge route 1 2 1)); EvSummary (pathLength (Fin 6))]) =
      events BasicTraverser ++ map EvVisit path ++ [EvSummary (pathLength d)] /\
    Forall (fun e => forall edge, e = Some edge -> origin edge <> 0) path.
Proof.
  apply (dijkstra_reports_no_edge_from_node_0 path3 4 0 2 BasicTraverser _
           (PathLengthBetween 0 2 (Fin 6))).
  reflexivity.
Defined.



Section DijkstraOutside.
Context {Stop : Type}.
Variable graph : TransitGraph (Stop := Stop).

Lemma dijkstraLoop_nothing_to_select k st :
  (forall i, i < graph_length graph -> nth i (dS st) Infinity = Infinity) ->
  dijkstraLoop graph k st = st.
Proof.
  intros Hall. destruct k as [|k]; [reflexivity|]. simpl.
  assert (Hsel := selectMin_spec graph (dS st) (dD st) (minIndex st)).
  destruct (selectMin graph (dS st) (dD st) (minIndex st)) as [m u].
  cbn [fst snd] in Hsel.
  destruct Hsel as [[-> _]|(du & _ & Hu & Eu & _)]; [reflexivity|].
  rewrite (Hall u Hu) in Eu. discriminate Eu.
Qed.

End DijkstraOutside.

(** X7: started from an index that is not a node of the graph,
    [dijkstra] selects nothing, logs that there is no path to the target
    and reports no edge; the summary carries [Infinity]. *)
Theorem dijkstra_start_outside_graph {Stop : Type}
    (graph : TransitGraph (Stop := Stop)) (fuel start finish : nat)
    (traverser : Traverser) :
  graph_length graph <= start ->
  finish < graph_length graph ->
  dijkstra graph (S fuel) start finish traverser =
    Ok (NoPathBetween start finish, summary (pathLength Infinity) traverser).
Proof.
  intros Hs Hf. unfold dijkstra.
  assert (Hall : forall i, i < graph_length graph ->
            nth i (dS (dijkstraInit graph start)) Infinity = Infinity).
  { intros i Hi. unfold dijkstraInit. cbn [dS].
    rewrite nth_array_set_ne by lia. apply nth_repeat. }
  rewrite (dijkstraLoop_nothing_to_select graph _ _ Hall).
  rewrite (Hall finish Hf). cbn [is_MAX].
  unfold dijkstraInit. cbn [dP]. simpl walkBack.
  rewrite (nth_error_nth' _ 0) by (rewrite repeat_length; exact Hf).
  rewrite nth_repeat. reflexivity.
Qed.

Lemma dijkstra_start_outside_graph_witness :
  dijkstra path3 1 7 2 BasicTraverser =
    Ok (NoPathBetween 7 2, summary (pathLength Infinity) BasicTraverser).
Proof.
  apply (dijkstra_start_outside_graph path3 0 7 2 BasicTraverser).
  - vm_compute. lia.
  - vm_compute. lia.
Defined.

(* ------------------------------------------------------------------ *)
(** ** Merging transfer nodes: any number of transfer edges *)

Lemma flat_map_ext_In {A B : Type} (f g : A -> list B) (l : list A) :
  (forall x, In x l -> f x = g x) -> flat_map f l = flat_map g l.
Proof.
  induction l as [|x l IH]; intros H; [reflexivity|]. simpl.
  rewrite (H x (or_introl eq_refl)), IH; [reflexivity|].
  intros y Hy. apply H. right. exact Hy.
Qed.

Lemma two_members {A : Type} (l : list A) (x y : A) :
  In x l -> In y l -> x <> y -> 1 < length l.
Proof.
  destruct l as [|a [|b l]]; simpl; intros Hx Hy Hne; [contradiction| |lia].
  destruct Hx as [<-|[]], Hy as [<-|[]]. congruence.
Qed.

Lemma filter_first {A : Type} (f : A -> bool) (l : list A) (x : A) (more : list A) :
  filter f l = x :: more ->
  exists pre post, l = pre ++ x :: post /\ forallb (fun y => negb (f y)) pre = true /\
                   f x = true.
Proof.
  induction l as [|a l IH]; intros H; simpl in H; [discriminate H|].
  destruct (f a) eqn:Ea.
  - inversion H; subst a more. exists [], l. repeat split. exact Ea.
  - destruct (IH H) as (pre & post & -> & Hpre & Hx).
    exists (a :: pre), post. simpl. rewrite Ea, Hpre. repeat split. exact Hx.
Qed.

(** The cells of the transfer graph: the transfer edges alone. *)
Definition transferOnly (c : cell) : cell :=
  match c with
  | Obj transfer _ => c
  | _ => Zero
  end.

Definition transferPart (m : list (list cell)) : list (list cell) :=
  map (map transferOnly) m.

Lemma transferPart_row m r :
  nth r (transferPart m) [] = map transferOnly (nth r m []).
Proof.
  unfold transferPart. change (@nil cell) with (map transferOnly []) at 1.
  apply map_nth.
Qed.

Lemma cellOf_transferPart m r i :
  i < rowLen m r ->
  cellOf (transferPart m) r i = transferOnly (cellOf m r i).
Proof.
  intros Hi. unfold cellOf, cell_at, rowLen in *. rewrite transferPart_row.
  rewrite (nth_indep _ Undefined (transferOnly Undefined))
    by (rewrite length_map; exact Hi).
  apply map_nth.
Qed.

Lemma transferPart_well_formed m :
  well_formed m = true -> well_formed (transferPart m) = true.
Proof.
  intros wf. assert (Hwf := well_formed_spec m wf).
  unfold well_formed. apply forallb_forall. intros r Hr. apply in_seq in Hr.
  unfold transferPart in Hr. rewrite length_map in Hr.
  rewrite transferPart_row, length_map.
  apply andb_true_intro. split.
  - apply Nat.eqb_eq. apply (Hwf r). lia.
  - apply forallb_forall. intros c Hc. apply in_map_iff in Hc.
    destruct Hc as (c0 & <- & _). destruct c0 as [| | |[] w]; reflexivity.
Qed.

Section TransferGraph.
Context {Stop : Type}.
Variable g : TransitGraph (Stop := Stop).
Hypothesis wf : well_formed (G g) = true.
Hypothesis nodes_rows : numNodes g = length (G g).

Lemma edgesOf_transferPart :
  edgesOf (transferPart (G g)) = getTransferEdges g.
Proof.
  assert (Hwf := well_formed_spec _ wf).
  unfold edgesOf, getTransferEdges, transferPart. rewrite length_map.
  apply flat_map_ext_In. intros i Hi. apply in_seq in Hi.
  apply flat_map_ext_In. intros j Hj. apply in_seq in Hj.
  fold (transferPart (G g)). rewrite cellOf_transferPart
    by (rewrite (proj1 (Hwf i ltac:(lia))); lia).
  unfold cellOf. destruct (cell_at (nth i (G g) []) j) as [| | |[] w]; reflexivity.
Qed.

Definition transferGraphOf : TransitGraph (Stop := Stop) :=
  newTransitGraph (getTransferEdges g) (numNodes g) (stops g).

Lemma transferGraphOf_eq :
  transferGraphOf = mkGraph (numNodes g) (transferPart (G g)) (stops g).
Proof.
  unfold transferGraphOf, newTransitGraph. f_equal.
  rewrite <- edgesOf_transferPart, nodes_rows.
  replace (length (G g)) with (length (transferPart (G g)))
    by (unfold transferPart; apply length_map).
  apply rebuild, transferPart_well_formed, wf.
Qed.

(** A transfer cell lies inside the matrix. *)
Lemma transfer_in_range u v :
  is_transfer_cell (relation g u v) = true ->
  u < numNodes g /\ v < numNodes g /\ u <> v.
Proof.
  assert (Hwf := well_formed_spec _ wf).
  unfold relation, cell_at. rewrite nodes_rows.
  assert (Hcell : forall r i, is_transfer_cell (nth i (nth r (G g) []) Undefined) = true ->
                              i < r /\ r < length (G g)).
  { intros r i H.
    destruct (Nat.lt_ge_cases r (length (G g))) as [Hr|Hr].
    - split; [|exact Hr].
      destruct (Nat.lt_ge_cases i r) as [|Hi]; [assumption|].
      rewrite nth_overflow in H; [discriminate H|].
      fold (rowLen (G g) r). rewrite (proj1 (Hwf r Hr)). exact Hi.
    - rewrite (nth_overflow (G g)) in H by exact Hr.
      destruct i; discriminate H. }
  destruct (Nat.ltb_spec v u).
  - intros Ht. apply Hcell in Ht. lia.
  - destruct (Nat.ltb_spec u v); [|discriminate].
    intros Ht. apply Hcell in Ht. lia.
Qed.

Lemma transferGraphOf_edgeExists u v :
  edgeExists transferGraphOf u v = is_transfer_cell (relation g u v).
Proof.
  assert (Hwf := well_formed_spec _ wf).
  rewrite transferGraphOf_eq. unfold edgeExists, relation. cbn [G].
  assert (Hcell : forall r i,
    match cell_at (nth r (transferPart (G g)) []) i with
    | Obj _ _ => true | _ => false end =
    is_transfer_cell (cell_at (nth r (G g) []) i)).
  { intros r i. unfold cell_at. rewrite transferPart_row.
    destruct (Nat.lt_ge_cases i (length (nth r (G g) []))) as [Hi|Hi].
    - rewrite (nth_indep _ Undefined (transferOnly Undefined))
        by (rewrite length_map; exact Hi).
      rewrite map_nth.
      destruct (nth i (nth r (G g) []) Undefined) as [| | |[] w]; reflexivity.
    - rewrite !nth_overflow; [reflexivity|exact Hi|rewrite length_map; exact Hi]. }
  destruct (v <? u); [apply Hcell|]. destruct (u <? v); [apply Hcell|reflexivity].
Qed.

Lemma getTransferEdges_some :
  getTransferEdges g <> [] ->
  exists r i, i < r /\ r < numNodes g /\ is_transfer_cell (relation g r i) = true.
Proof.
  intros Hne. destruct (getTransferEdges g) as [|e l] eqn:E; [congruence|].
  assert (Hin : In e (getTransferEdges g)) by (rewrite E; left; reflexivity).
  unfold getTransferEdges in Hin. apply in_flat_map in Hin.
  destruct Hin as (r & Hr & Hin). apply in_seq in Hr.
  apply in_flat_map in Hin. destruct Hin as (i & Hi & Hin). apply in_seq in Hi.
  exists r, i. split; [lia|]. split; [lia|].
  unfold relation. replace (i <? r) with true by (symmetry; apply Nat.ltb_lt; lia).
  destruct (cell_at (nth r (G g) []) i) as [| | |[] w]; try contradiction.
  reflexivity.
Qed.

End TransferGraph.

Section MergeStepGeneral.
Context {Stop : Type}.
Variable mergeWith : Stop -> Stop -> Stop.
Variable g : TransitGraph (Stop := Stop).
Hypothesis wf : well_formed (G g) = true.
Hypothesis nodes_rows : numNodes g = length (G g).
Hypothesis stops_rows : length (G g) <= length (stops g).
Hypothesis some_transfer : getTransferEdges g <> [].

Lemma Groupings_In (tg : TransitGraph (Stop := Stop)) groups : forall seen grp,
  Groupings tg seen groups -> In grp groups ->
  exists seen', Grouping tg seen' grp.
Proof.
  induction groups as [|x groups IH]; intros seen grp H Hin; [destruct Hin|].
  destruct Hin as [<-|Hin].
  - exists seen. apply H.
  - apply (IH (seen ++ x) grp); [apply H|exact Hin].
Qed.

Lemma Groupings_split (tg : TransitGraph (Stop := Stop)) pre : forall seen x post,
  Groupings tg seen (pre ++ x :: post) -> Grouping tg (seen ++ concat pre) x.
Proof.
  induction pre as [|y pre IH]; intros seen x post H; simpl in *.
  - rewrite app_nil_r. apply H.
  - rewrite app_assoc. apply (IH (seen ++ y) x post). apply H.
Qed.

Lemma mergeStep_general fuel :
  numNodes g < fuel ->
  exists a b stopA stopB,
    a < b /\ b < numNodes g /\
    is_transfer_cell (relation g a b) = true /\
    (forall x y, x < a -> is_transfer_cell (relation g x y) = false) /\
    (forall y, y < b -> is_transfer_cell (relation g a y) = false) /\
    nth_error (stops g) a = Some stopA /\
    nth_error (stops g) b = Some stopB /\
    mergeStep mergeWith fuel g =
      Ok (mkGraph (numNodes g - 1) (mergedMatrix a b (G g))
                  (deleteBoth a b (stops g ++ [mergeWith stopA stopB]))).
Proof.
  intros Hfuel.
  set (tg := transferGraphOf g).
  assert (Htg : numNodes tg = length (G tg)).
  { unfold tg. rewrite (transferGraphOf_eq g wf nodes_rows). cbn [numNodes G].
    unfold transferPart. rewrite length_map. exact nodes_rows. }
  assert (Hn : numNodes tg = numNodes g) by reflexivity.
  assert (Hedge : forall u v, edgeExists tg u v = is_transfer_cell (relation g u v)).
  { intros u v. apply (transferGraphOf_edgeExists g wf nodes_rows). }
  assert (Hnb : forall u v, is_transfer_cell (relation g u v) = true ->
                            neighbour tg u v).
  { intros u v H. split; [|rewrite Hedge; exact H].
    rewrite Hn. apply (transfer_in_range g wf nodes_rows u v H). }
  assert (Hself : forall u, is_transfer_cell (relation g u u) = false).
  { intros u. unfold relation. rewrite Nat.ltb_irrefl. reflexivity. }
  destruct (nodeGroupingsOf_run tg Htg fuel ltac:(rewrite Hn; exact Hfuel))
    as (groups & Egroups & Hnd & Hall & Hgr).
  (* some grouping has two nodes *)
  destruct (getTransferEdges_some g nodes_rows some_transfer) as (r & i & Hir & Hr & Hri).
  assert (Hbig : exists grp, In grp groups /\ 1 < length grp).
  { assert (Hin : In r (concat groups)) by (apply Hall; rewrite Hn; exact Hr).
    apply in_concat in Hin. destruct Hin as (grp & Hgrp & Hin).
    exists grp. split; [exact Hgrp|].
    destruct (Groupings_In tg groups [] grp Hgr Hgrp)
      as (seen' & s & rest & -> & _ & Hconn & _).
    apply (two_members _ r i); [exact Hin| |lia].
    apply Hconn. apply (connected_step tg s r i); [apply Hconn, Hin|].
    apply Hnb, Hri. }
  destruct (filter (fun e => 1 <? length e) groups) as [|x more] eqn:Ef.
  { exfalso. destruct Hbig as (grp & Hgrp & Hlen).
    assert (Hin : In grp (filter (fun e => 1 <? length e) groups)).
    { apply filter_In. split; [exact Hgrp|]. apply Nat.ltb_lt. exact Hlen. }
    rewrite Ef in Hin. exact Hin. }
  destruct (filter_first _ _ _ _ Ef) as (pre & post & -> & Hpre & Hx).
  apply Nat.ltb_lt in Hx.
  destruct (Groupings_split tg pre [] x post Hgr)
    as (a & rest & -> & Ha & Hconn & Hsmall & Hdisj & Hfirst).
  simpl in Hsmall, Hdisj.
  destruct rest as [|b rest]; [simpl in Hx; lia|].
  destruct Hfirst as ((Hb & Hab) & _ & Hne & Hleast).
  rewrite Hn in Ha, Hb. rewrite Hedge in Hab.
  assert (Hlt : a < b).
  { destruct (Nat.lt_trichotomy a b) as [|[|Hgt]]; [assumption|congruence|].
    exfalso. apply (Hdisj b (Hsmall b Hgt)). right. left. reflexivity. }
  destruct (nth_error (stops g) a) as [stopA|] eqn:EA.
  2:{ apply nth_error_None in EA. lia. }
  destruct (nth_error (stops g) b) as [stopB|] eqn:EB.
  2:{ apply nth_error_None in EB. lia. }
  exists a, b, stopA, stopB.
  split; [exact Hlt|]. split; [exact Hb|]. split; [exact Hab|].
  split.
  { (* the nodes before [a] stand alone in their groupings *)
    intros x y Hxa. destruct (is_transfer_cell (relation g x y)) eqn:Et;
      [exfalso|reflexivity].
    assert (Hin := Hsmall x Hxa). apply in_concat in Hin.
    destruct Hin as (grp & Hgrp & Hin).
    assert (Hshort : (1 <? length grp) = false).
    { rewrite forallb_forall in Hpre. apply negb_true_iff, Hpre, Hgrp. }
    apply Nat.ltb_ge in Hshort.
    destruct (Groupings_In tg (pre ++ (a :: b :: rest) :: post) [] grp Hgr)
      as (seen' & s & rest' & -> & _ & Hconn' & _).
    { apply in_app_iff. left. exact Hgrp. }
    assert (Hy : In y (s :: rest')).
    { apply Hconn'. apply (connected_step tg s x y); [apply Hconn', Hin|].
      apply Hnb, Et. }
    assert (x <> y) by (intros ->; rewrite Hself in Et; discriminate Et).
    assert (H2 := two_members _ x y Hin Hy H). lia. }
  split.
  { intros y Hyb. destruct (is_transfer_cell (relation g a y)) eqn:Et;
      [exfalso|reflexivity].
    destruct (Hleast y Hyb (Hnb a y Et)) as [Hm| ->].
    - rewrite nth_repeat in Hm. discriminate Hm.
    - rewrite Hself in Et. discriminate Et. }
  split; [exact EA|]. split; [exact EB|].
  unfold mergeStep. fold (transferGraphOf g). fold tg.
  rewrite Egroups. cbn [bind]. rewrite Ef. rewrite map_id.
  unfold mergeTop. replace (a <? b) with true by (symmetry; apply Nat.ltb_lt; exact Hlt).
  rewrite (merge_closed_form mergeWith a b (G g) (stops g) stopA stopB wf Hlt
             ltac:(lia) EA EB).
  cbn [bind].
  assert (Hwf' : well_formed (mergedMatrix a b (G g)) = true)
    by (apply mergedMatrix_well_formed; [exact wf|exact Hlt|lia]).
  rewrite (newEdgeListOf_ok _ Hwf'). cbn [bind].
  unfold newTransitGraph. do 2 f_equal.
  replace (numNodes g - 1) with (length (mergedMatrix a b (G g)))
    by (rewrite mergedMatrix_length; [lia|exact Hlt|lia]).
  apply rebuild, Hwf'.
Qed.

End MergeStepGeneral.

(** X8: on a graph with a transfer edge, one pass of the loop of
    [mergeTransferNodes] merges the lowest-numbered node that has a
    transfer edge with the lowest-numbered node it has a transfer edge
    to: the graph that replaces the old one has one node less, its matrix
    is the old one with the rows and columns of the two nodes replaced by
    a last row for the merged node, and the merged stop comes last. *)
Theorem mergeStep_merges_first_transfer_pair {Stop : Type}
    (mergeWith : Stop -> Stop -> Stop) (g : TransitGraph (Stop := Stop))
    (fuel : nat) :
  well_formed (G g) = true ->
  numNodes g = length (G g) ->
  length (G g) <= length (stops g) ->
  getTransferEdges g <> [] ->
  numNodes g < fuel ->
  exists a b stopA stopB,
    a < b /\ b < numNodes g /\
    is_transfer_cell (relation g a b) = true /\
    (forall x y, x < a -> is_transfer_cell (relation g x y) = false) /\
    (forall y, y < b -> is_transfer_cell (relation g a y) = false) /\
    nth_error (stops g) a = Some stopA /\
    nth_error (stops g) b = Some stopB /\
    mergeStep mergeWith fuel g =
      Ok (mkGraph (numNodes g - 1) (mergedMatrix a b (G g))
                  (deleteBoth a b (stops g ++ [mergeWith stopA stopB]))).
Proof.
  intros wf Hrows Hstops Hsome Hfuel.
  apply (mergeStep_general mergeWith g wf Hrows Hstops Hsome fuel Hfuel).
Qed.

Lemma mergeStep_merges_first_transfer_pair_witness :
  exists a b stopA stopB,
    a < b /\ b < numNodes sixStops /\
    is_transfer_cell (relation sixStops a b) = true /\
    (forall x y, x < a -> is_transfer_cell (relation sixStops x y) = false) /\
    (forall y, y < b -> is_transfer_cell (relation sixStops a y) = false) /\
    nth_error (stops sixStops) a = Some stopA /\
    nth_error (stops sixStops) b = Some stopB /\
    mergeStep Nat.add 7 sixStops =
      Ok (mkGraph (numNodes sixStops - 1) (mergedMatrix a b (G sixStops))
                  (deleteBoth a b (stops sixStops ++ [Nat.add stopA stopB]))).
Proof.
  apply (mergeStep_merges_first_transfer_pair Nat.add sixStops 7).
  - reflexivity.
  - reflexivity.
  - vm_compute. lia.
  - vm_compute. discriminate.
  - vm_compute. lia.
Defined.

Section MergeLoopGeneral.
Context {Stop : Type}.
Variable mergeWith : Stop -> Stop -> Stop.

Lemma mergeLoop_general fuel :
  forall g : TransitGraph (Stop := Stop),
  well_formed (G g) = true ->
  numNodes g = length (G g) ->
  length (G g) <= length (stops g) ->
  numNodes g < fuel ->
  exists g',
    mergeLoop mergeWith fuel g = Ok g' /\
    well_formed (G g') = true /\
    numNodes g' = length (G g') /\
    getTransferEdges g' = [] /\
    numNodes g' <= numNodes g /\
    (getTransferEdges g <> [] -> 1 <= numNodes g' < numNodes g) /\
    length (stops g') + numNodes g = length (stops g) + numNodes g'.
Proof.
  induction fuel as [|fuel IH]; intros g wf Hrows Hstops Hfuel; [lia|].
  cbn [mergeLoop].
  destruct (getTransferEdges g) as [|e l] eqn:Et.
  - exists g. split; [reflexivity|]. split; [exact wf|]. split; [exact Hrows|].
    split; [exact Et|]. split; [lia|]. split; [|lia].
    intros Hne. congruence.
  - cbn [length Nat.ltb Nat.leb].
    destruct (mergeStep_general mergeWith g wf Hrows Hstops
                ltac:(rewrite Et; discriminate) (S fuel) Hfuel)
      as (a & b & stopA & stopB & Hab & Hb & _ & _ & _ & EA & EB & Estep).
    rewrite Estep. cbn [bind].
    set (g1 := mkGraph (numNodes g - 1) (mergedMatrix a b (G g))
                       (deleteBoth a b (stops g ++ [mergeWith stopA stopB]))).
    assert (Hlen1 : length (G g1) = numNodes g - 1).
    { unfold g1. cbn [G]. rewrite mergedMatrix_length; [lia|exact Hab|lia]. }
    assert (Hstops1 : length (stops g1) = length (stops g) - 1).
    { unfold g1. cbn [stops]. rewrite length_deleteBoth by exact Hab.
      rewrite length_app. simpl.
      replace (a <? length (stops g) + 1) with true
        by (symmetry; apply Nat.ltb_lt; lia).
      replace (b <? length (stops g) + 1) with true
        by (symmetry; apply Nat.ltb_lt; lia).
      lia. }
    destruct (IH g1) as (g' & E' & wf' & Hrows' & Hnone' & Hle' & Hlt' & Hs').
    { unfold g1. cbn [G]. apply mergedMatrix_well_formed; [exact wf|exact Hab|lia]. }
    { rewrite Hlen1. reflexivity. }
    { rewrite Hlen1, Hstops1. lia. }
    { unfold g1. cbn [numNodes]. lia. }
    exists g'. split; [exact E'|]. split; [exact wf'|]. split; [exact Hrows'|].
    split; [exact Hnone'|].
    change (numNodes g1) with (numNodes g - 1) in *.
    split; [lia|]. split.
    + intros _. split; [|lia].
      destruct (getTransferEdges g1) as [|e1 l1] eqn:Et1.
      * (* the loop stops at once on [g1] *)
        destruct fuel as [|fuel']; [lia|]. cbn [mergeLoop] in E'.
        rewrite Et1 in E'. simpl in E'. inversion E'; subst g'. simpl. lia.
      * assert (H := Hlt' ltac:(discriminate)). lia.
    + rewrite Hstops1 in Hs'. lia.
Qed.

End MergeLoopGeneral.

(** X9: on a graph with transfer edges, whatever their number,
    [mergeTransferNodes] returns a graph: it has no transfer edge left
    and fewer nodes, at least one; row [i] of its matrix holds [i] cells,
    and it has lost as many stops as nodes. *)
Theorem mergeTransferNodes_merges_every_transfer {Stop : Type}
    (mergeWith : Stop -> Stop -> Stop) (g : TransitGraph (Stop := Stop))
    (fuel : nat) :
  well_formed (G g) = true ->
  numNodes g = length (G g) ->
  length (G g) <= length (stops g) ->
  getTransferEdges g <> [] ->
  numNodes g < fuel ->
  exists g',
    mergeTransferNodes mergeWith fuel g = Ok (Some g') /\
    getTransferEdges g' = [] /\
    well_formed (G g') = true /\
    numNodes g' = length (G g') /\
    1 <= numNodes g' < numNodes g /\
    length (stops g') + numNodes g = length (stops g) + numNodes g'.
Proof.
  intros wf Hrows Hstops Hsome Hfuel.
  destruct (mergeLoop_general mergeWith fuel g wf Hrows Hstops Hfuel)
    as (g' & E & wf' & Hrows' & Hnone & _ & Hlt & Hs).
  exists g'. unfold mergeTransferNodes.
  destruct (getTransferEdges g) as [|e l] eqn:Et; [congruence|].
  cbn [length Nat.eqb]. rewrite E. cbn [bind].
  split; [reflexivity|]. split; [exact Hnone|]. split; [exact wf'|].
  split; [exact Hrows'|]. split; [apply Hlt; discriminate|exact Hs].
Qed.

Lemma mergeTransferNodes_merges_every_transfer_witness :
  exists g',
    mergeTransferNodes Nat.add 7 sixStops = Ok (Some g') /\
    getTransferEdges g' = [] /\
    well_formed (G g') = true /\
    numNodes g' = length (G g') /\
    1 <= numNodes g' < numNodes sixStops /\
    length (stops g') + numNodes sixStops = length (stops sixStops) + numNodes g'.
Proof.
  apply (mergeTransferNodes_merges_every_transfer Nat.add sixStops 7).
  - reflexivity.
  - reflexivity.
  - vm_compute. lia.
  - vm_compute. discriminate.
  - vm_compute. lia.
Defined.

(* ------------------------------------------------------------------ *)
(** ** Page Rank: what is reported *)

Section PageRankReport.
Context {Stop : Type}.
Variable graph : TransitGraph (Stop := Stop).
Local Abbreviation N := (graph_length graph).

(** The number of edges of a node, as the divisor [updateRank] uses. *)
Definition degreeOf (i : nat) : Q :=
  inject_Z (Z.of_nat (nth i (outgoingEdgeCounts graph) 0)).

Lemma degreeOf_nonneg i : (0 <= degreeOf i)%Q.
Proof. unfold degreeOf, Qle. simpl. lia. Qed.

Lemma quotient_nonneg (d : Q * nat) :
  (0 <= fst d)%Q -> (0 <= fst d / inject_Z (Z.of_nat (snd d)))%Q.
Proof.
  intros H. unfold Qdiv. apply Qmult_le_0_compat; [exact H|].
  apply Qinv_le_0_compat. unfold Qle. simpl. lia.
Qed.

Lemma sum_nonneg (l : list (Q * nat)) : forall acc,
  (0 <= acc)%Q -> (forall d, In d l -> (0 <= fst d)%Q) ->
  (0 <= fold_left (fun s d => s + fst d / inject_Z (Z.of_nat (snd d))) l acc)%Q.
Proof.
  induction l as [|d l IH]; intros acc Hacc H; simpl; [exact Hacc|].
  apply IH.
  - rewrite <- (Qplus_0_l 0). apply Qplus_le_compat; [exact Hacc|].
    apply quotient_nonneg, H. left. reflexivity.
  - intros d' Hd'. apply H. right. exact Hd'.
Qed.

Lemma updateRank_nonneg ranks node :
  (forall j, (0 <= nth j ranks 0)%Q) -> (0 <= updateRank graph ranks node)%Q.
Proof.
  intros H. unfold updateRank.
  assert (E : (1 - damping == 0)%Q) by reflexivity.
  unfold Qdiv at 1. rewrite E, Qmult_0_l, Qplus_0_l.
  apply Qmult_le_0_compat; [unfold damping, Qle; simpl; lia|].
  apply sum_nonneg; [apply Qle_refl|].
  intros d Hd. unfold divisions in Hd. apply in_map_iff in Hd.
  destruct Hd as (incoming & <- & _). simpl. apply H.
Qed.

Lemma sweep_nonneg ranks :
  (forall j, (0 <= nth j ranks 0)%Q) -> forall j, (0 <= nth j (sweep graph ranks) 0)%Q.
Proof.
  intros H. unfold sweep.
  apply (for_range_ind (fun (_ : nat) (r : list Q) =>
           forall j, (0 <= nth j r 0)%Q)); [lia|exact H|].
  intros i r _ Hr j. destruct (Nat.eq_dec i j) as [->|Hne].
  - rewrite nth_array_set_eq. apply updateRank_nonneg, Hr.
  - rewrite nth_array_set_ne by exact Hne. apply Hr.
Qed.





End PageRankReport.

(** X10: [pageRank] tells the traverser two things, the ranks to
    record and a summary of the same ranks; there is one rank per node,
    and no rank is negative. *)
Theorem pageRank_reports_ranks {Stop : Type}
    (graph : TransitGraph (Stop := Stop)) (traverser : Traverser) :
  exists ranks,
    pageRank graph traverser =
      mkTraverser (visitedNodes traverser)
        (events traverser ++ [EvRecordRanks ranks; EvSummary (statsRanks ranks)]) /\
    length ranks = graph_length graph /\
    forall i, (0 <= nth i ranks 0)%Q.
Proof.
  exists (propagate graph (repeat initialRank (graph_length graph))).
  split; [|split].
  - unfold pageRank, summary, recordRanks, push. cbn [visitedNodes events].
    rewrite <- app_assoc. reflexivity.
  - apply propagate_length, repeat_length.
  - unfold propagate. generalize iterations. intros k.
    induction k as [|k IH]; simpl.
    + intros i. destruct (Nat.lt_ge_cases i (graph_length graph)) as [Hi|Hi].
      * rewrite nth_repeat_lt by exact Hi. unfold initialRank, Qle. simpl. lia.
      * rewrite nth_overflow by (rewrite repeat_length; exact Hi). apply Qle_refl.
    + apply sweep_nonneg, IH.
Qed.




(* ------------------------------------------------------------------ *)
(** ** The loop that removes the nulls, as it is written *)

Definition countNulls (row : list cell) : nat := length (filter is_null row).

Lemma indexOfNull_none row : indexOfNull row = None -> removeNulls row = row.
Proof.
  induction row as [|c row IH]; intros H; [reflexivity|]. simpl in *.
  destruct (is_null c); [discriminate H|]. simpl. f_equal. apply IH.
  destruct (indexOfNull row); [discriminate H|reflexivity].
Qed.

Lemma indexOfNull_some row : forall i,
  indexOfNull row = Some i ->
  removeNulls (splice1 row i) = removeNulls row /\
  S (countNulls (splice1 row i)) = countNulls row /\
  nth i row Undefined = Null /\
  forall j, j < i -> nth j row Undefined <> Null.
Proof.
  unfold countNulls.
  induction row as [|c row IH]; intros i H; [discriminate H|]. simpl in H.
  destruct (is_null c) eqn:Ec.
  - inversion H; subst i. simpl. rewrite Ec. simpl.
    destruct c; try discriminate Ec. repeat split. intros j Hj. lia.
  - destruct (indexOfNull row) as [k|] eqn:Ek; [|discriminate H].
    inversion H; subst i. destruct (IH k eq_refl) as (H1 & H2 & H3 & H4).
    simpl. rewrite Ec. simpl. rewrite H1, <- H2. repeat split; [exact H3|].
    intros [|j] Hj; [intros E; rewrite E in Ec; discriminate Ec|].
    apply H4. lia.
Qed.

(** X12: the loop [while (row.indexOf(null) !== -1)
    row.splice(row.indexOf(null), 1)] ends after one splice per [null] of
    the row, each removing the first [null] left, and leaves the cells
    that are not [null] in their order. *)
Theorem removeNulls_while_loop (fuel : nat) (row : list cell) :
  countNulls row < fuel ->
  removeNullsWhile fuel row = Ok (removeNulls row) /\
  removeNullsWhile (countNulls row) row = OutOfFuel /\
  countNulls (removeNulls row) = 0 /\
  (forall i, indexOfNull row = Some i ->
     nth i row Undefined = Null /\
     (forall j, j < i -> nth j row Undefined <> Null) /\
     removeNullsWhile fuel row = removeNullsWhile (fuel - 1) (splice1 row i)).
Proof.
  intros Hfuel. split; [|split; [|split]].
  - revert row Hfuel. induction fuel as [|fuel IH]; intros row Hfuel; [lia|].
    simpl. destruct (indexOfNull row) as [i|] eqn:Ei.
    + destruct (indexOfNull_some row i Ei) as (H1 & H2 & _).
      rewrite IH by lia. rewrite H1. reflexivity.
    + rewrite (indexOfNull_none row Ei). reflexivity.
  - clear Hfuel. remember (countNulls row) as k eqn:Ek. revert row Ek.
    induction k as [|k IH]; intros row Ek; [reflexivity|].
    simpl. destruct (indexOfNull row) as [i|] eqn:Ei.
    + destruct (indexOfNull_some row i Ei) as (_ & H2 & _). apply IH. lia.
    + exfalso. assert (H := indexOfNull_none row Ei).
      unfold countNulls, removeNulls in *.
      assert (Hlen : length (filter (fun c => negb (is_null c)) row) +
                     length (filter is_null row) = length row).
      { clear. induction row as [|c row IH]; [reflexivity|]. simpl.
        destruct (is_null c); simpl; lia. }
      rewrite H in Hlen. lia.
  - clear Hfuel. unfold countNulls, removeNulls.
    induction row as [|c row IH]; [reflexivity|].
    simpl. destruct (is_null c) eqn:Ec; simpl; [exact IH|].
    rewrite Ec. exact IH.
  - intros i Ei. destruct (indexOfNull_some row i Ei) as (_ & _ & H3 & H4).
    split; [exact H3|]. split; [exact H4|].
    destruct fuel as [|fuel]; [lia|]. simpl. rewrite Ei, Nat.sub_0_r. reflexivity.
Qed.

Lemma removeNulls_while_loop_witness :
  removeNullsWhile 3 [Null; Obj route 4; Null; Zero] =
    Ok (removeNulls [Null; Obj route 4; Null; Zero]) /\
  removeNullsWhile (countNulls [Null; Obj route 4; Null; Zero])
                   [Null; Obj route 4; Null; Zero] = OutOfFuel /\
  countNulls (removeNulls [Null; Obj route 4; Null; Zero]) = 0 /\
  (forall i, indexOfNull [Null; Obj route 4; Null; Zero] = Some i ->
     nth i [Null; Obj route 4; Null; Zero] Undefined = Null /\
     (forall j, j < i -> nth j [Null; Obj route 4; Null; Zero] Undefined <> Null) /\
     removeNullsWhile 3 [Null; Obj route 4; Null; Zero] =
       removeNullsWhile (3 - 1) (splice1 [Null; Obj route 4; Null; Zero] i)).
Proof.
  apply (removeNulls_while_loop 3 [Null; Obj route 4; Null; Zero]).
  vm_compute. lia.
Defined.

(* ------------------------------------------------------------------ *)
(** ** The edge list of the new graph *)



(* ------------------------------------------------------------------ *)
(** ** The merge on the store and the merge on values: an instance *)

Definition lineMerged : option (TransitGraph (Stop := nat)) :=
  Eval vm_compute in
    match mergeTransferNodes Nat.add 5 lineWithTransfer with
    | Ok r => r
    | _ => None
    end.

Lemma mergeTransferNodesAt_refines_mergeTransferNodes_witness :
  match lineMerged with
  | None => mergeTransferNodesAt Nat.add 5 lineStore 6 = Ok (lineStore, None)
  | Some g' =>
    exists h' graph',
      mergeTransferNodesAt Nat.add 5 lineStore 6 = Ok (h', Some graph') /\
      graphOf h' graph' = Ok g'
  end.
Proof.
  apply (mergeTransferNodesAt_refines_mergeTransferNodes Nat.add 5 lineStore 6
           lineWithTransfer lineMerged).
  - vm_compute. reflexivity.
  - vm_compute. reflexivity.
Defined.

(* ------------------------------------------------------------------ *)
(** ** Dijkstra: the two directions *)

Section WalkReversal.
Context {Stop : Type}.
Variable graph : TransitGraph (Stop := Stop).

Lemma relation_sym u v : relation graph u v = relation graph v u.
Proof.
  unfold relation.
  destruct (Nat.ltb_spec v u), (Nat.ltb_spec u v); try reflexivity; lia.
Qed.







End WalkReversal.



(* ------------------------------------------------------------------ *)
(** ** Merging transfer nodes: one node per grouping *)

Lemma is_transfer_unionOf x y :
  is_transfer_cell (unionOf x y) = is_transfer_cell x || is_transfer_cell y.
Proof. destruct x as [| | |[] wx], y as [| | |[] wy]; reflexivity. Qed.

Section Representatives.
Context {Stop : Type}.

(** Whether two nodes are joined by a transfer edge. *)
Definition transferBetween (g : TransitGraph (Stop := Stop)) (u v : nat) : bool :=
  is_transfer_cell (relation g u v).

(** One node out of every set of nodes that transfer edges connect. *)
Definition Representatives (g : TransitGraph (Stop := Stop)) (reps : list nat)
    : Prop :=
  NoDup reps /\
  (forall s, In s reps -> s < numNodes g) /\
  (forall v, v < numNodes g ->
     exists s, In s reps /\ connected (transferGraphOf g) s v) /\
  (forall s1 s2, In s1 reps -> In s2 reps ->
     connected (transferGraphOf g) s1 s2 -> s1 = s2).

Variable g : TransitGraph (Stop := Stop).
Hypothesis wf : well_formed (G g) = true.
Hypothesis nodes_rows : numNodes g = length (G g).

Lemma neighbour_transfer v w :
  neighbour (transferGraphOf g) v w <->
  w < numNodes g /\ transferBetween g v w = true.
Proof.
  unfold neighbour, transferBetween.
  rewrite (transferGraphOf_edgeExists g wf nodes_rows). reflexivity.
Qed.

Lemma transferBetween_sym u v : transferBetween g u v = transferBetween g v u.
Proof. unfold transferBetween. rewrite relation_sym. reflexivity. Qed.

Lemma transferBetween_irrefl u : transferBetween g u u = false.
Proof. unfold transferBetween, relation. rewrite Nat.ltb_irrefl. reflexivity. Qed.

Lemma transfer_step u v :
  transferBetween g u v = true -> connected (transferGraphOf g) u v.
Proof.
  intros H. apply (connected_step _ u u v); [constructor|].
  apply neighbour_transfer. split; [|exact H].
  apply (transfer_in_range g wf nodes_rows u v H).
Qed.

(** The groupings name one representative each. *)
Lemma Groupings_representatives groups : forall seen,
  Groupings (transferGraphOf g) seen groups ->
  NoDup (map (hd 0) groups) /\
  (forall s, In s (map (hd 0) groups) -> s < numNodes g /\ ~ In s seen) /\
  (forall v, In v (concat groups) ->
     exists s, In s (map (hd 0) groups) /\ connected (transferGraphOf g) s v) /\
  (forall s1 s2, In s1 (map (hd 0) groups) -> In s2 (map (hd 0) groups) ->
     connected (transferGraphOf g) s1 s2 -> s1 = s2).
Proof.
  induction groups as [|grp groups IH]; intros seen H.
  - simpl. repeat split; try constructor; intros; contradiction.
  - destruct H as [(s & rest & -> & Hs & Hconn & _ & Hdisj & _) H].
    destruct (IH _ H) as (Hnd & Hin & Hcover & Hsep). clear IH.
    change (numNodes (transferGraphOf g)) with (numNodes g) in Hs.
    assert (Hlater : forall s2, In s2 (map (hd 0) groups) ->
                       ~ connected (transferGraphOf g) s s2).
    { intros s2 H2 Hc. destruct (Hin s2 H2) as [_ Hno]. apply Hno.
      apply in_app_iff. right. apply Hconn, Hc. }
    simpl. split; [|split; [|split]].
    + constructor; [|exact Hnd]. intros H2. apply (Hlater s H2). constructor.
    + intros s' [<-|H2].
      * split; [exact Hs|]. intros Hseen. apply (Hdisj s Hseen). left. reflexivity.
      * destruct (Hin s' H2) as [Hlt Hno]. split; [exact Hlt|].
        intros Hseen. apply Hno, in_app_iff. left. exact Hseen.
    + intros v Hv. change (In v ((s :: rest) ++ concat groups)) in Hv.
      apply in_app_iff in Hv. destruct Hv as [Hv|Hv].
      * exists s. split; [left; reflexivity|apply Hconn, Hv].
      * destruct (Hcover v Hv) as (s' & Hs' & Hc).
        exists s'. split; [right; exact Hs'|exact Hc].
    + intros s1 s2 [<-|H1] [<-|H2] Hc; try reflexivity.
      * exfalso. apply (Hlater s2 H2 Hc).
      * exfalso. apply (Hlater s1 H1).
        apply connected_sym; [apply (Hin s1 H1)|exact Hc].
      * apply (Hsep s1 s2 H1 H2 Hc).
Qed.

Lemma nodeGroupings_representatives fuel :
  numNodes g < fuel ->
  exists groups reps,
    nodeGroupingsOf fuel (transferGraphOf g) = Ok groups /\
    Representatives g reps /\ length reps = length groups.
Proof.
  intros Hfuel.
  assert (Htg : numNodes (transferGraphOf g) = length (G (transferGraphOf g))).
  { rewrite (transferGraphOf_eq g wf nodes_rows). cbn [numNodes G].
    unfold transferPart. rewrite length_map. exact nodes_rows. }
  destruct (nodeGroupingsOf_run (transferGraphOf g) Htg fuel Hfuel)
    as (groups & E & _ & Hall & Hgr).
  destruct (Groupings_representatives groups [] Hgr) as (Hnd & Hin & Hcover & Hsep).
  exists groups, (map (hd 0) groups). split; [exact E|].
  split; [|apply length_map].
  split; [exact Hnd|]. split; [intros s Hs; apply (Hin s Hs)|].
  split; [|exact Hsep].
  intros v Hv. apply Hcover, Hall. exact Hv.
Qed.

(** Without transfer edges every node is its own representative. *)
Lemma no_transfer_between :
  getTransferEdges g = [] -> forall u v, transferBetween g u v = false.
Proof.
  intros Hnone u v. destruct (transferBetween g u v) eqn:E; [exfalso|reflexivity].
  assert (Hsym := E). rewrite transferBetween_sym in Hsym.
  assert (Hcell : forall r i, i < r -> transferBetween g r i = true -> False).
  { intros r i Hir Ht.
    destruct (transfer_in_range g wf nodes_rows r i Ht) as (Hr & _ & _).
    unfold transferBetween, relation in Ht.
    replace (i <? r) with true in Ht by (symmetry; apply Nat.ltb_lt; exact Hir).
    destruct (cell_at (nth r (G g) []) i) as [| | |[] w] eqn:Ec; try discriminate Ht.
    assert (Hin := In_getTransferEdges g r i w Hir ltac:(lia) Ec).
    rewrite Hnone in Hin. exact Hin. }
  destruct (transfer_in_range g wf nodes_rows u v E) as (_ & _ & Hne).
  destruct (Nat.lt_trichotomy u v) as [H|[H|H]]; [|contradiction|].
  - apply (Hcell v u H Hsym).
  - apply (Hcell u v H E).
Qed.

Lemma Representatives_no_transfer reps :
  getTransferEdges g = [] -> Representatives g reps -> length reps = numNodes g.
Proof.
  intros Hnone (Hnd & Hlt & Hcover & _).
  assert (Hsame : forall u v, connected (transferGraphOf g) u v -> u = v).
  { intros u v Hc. induction Hc as [|x y _ IH Hn]; [reflexivity|].
    apply neighbour_transfer in Hn. destruct Hn as [_ Hn].
    rewrite (no_transfer_between Hnone) in Hn. discriminate Hn. }
  apply Nat.le_antisymm.
  - apply (Nat.le_trans _ (length (seq 0 (numNodes g))));
      [|rewrite length_seq; lia].
    apply NoDup_incl_length; [exact Hnd|].
    intros s Hs. apply in_seq. specialize (Hlt s Hs). lia.
  - apply (Nat.le_trans _ (length (seq 0 (numNodes g))));
      [rewrite length_seq; lia|].
    apply NoDup_incl_length; [apply seq_NoDup|].
    intros v Hv. apply in_seq in Hv.
    destruct (Hcover v ltac:(lia)) as (s & Hs & Hc).
    rewrite <- (Hsame s v Hc). exact Hs.
Qed.

End Representatives.

Section MergeKeepsRepresentatives.
Context {Stop : Type}.
Variable g : TransitGraph (Stop := Stop).
Hypothesis wf : well_formed (G g) = true.
Hypothesis nodes_rows : numNodes g = length (G g).
Variables (a b : nat) (ss' : list Stop).
Hypothesis a_b : a < b.
Hypothesis b_n : b < numNodes g.
Hypothesis a_b_transfer : transferBetween g a b = true.

Definition mergedGraph : TransitGraph (Stop := Stop) :=
  mkGraph (numNodes g - 1) (mergedMatrix a b (G g)) ss'.

(** Where an old node ends, and an old node that ends at a new one. *)
Definition newNode (k : nat) : nat :=
  if (k =? a) || (k =? b) then numNodes g - 2 else newIndex a b k.

Definition oldNode (k : nat) : nat :=
  if k =? numNodes g - 2 then a else unshift a b k.

Lemma mergedGraph_wf : well_formed (G mergedGraph) = true.
Proof. apply mergedMatrix_well_formed; [exact wf|exact a_b|lia]. Qed.

Lemma mergedGraph_rows : numNodes mergedGraph = length (G mergedGraph).
Proof.
  unfold mergedGraph. cbn [numNodes G].
  rewrite mergedMatrix_length; [lia|exact a_b|lia].
Qed.

Lemma newNode_lt k : k < numNodes g -> newNode k < numNodes g - 1.
Proof. intros H. unfold newNode, newIndex. nat_cases. Qed.

Lemma newNode_survivor k :
  k < numNodes g -> k <> a -> k <> b ->
  newNode k < numNodes g - 2 /\ unshift a b (newNode k) = k.
Proof.
  intros H Ha Hb. unfold newNode.
  replace ((k =? a) || (k =? b)) with false
    by (symmetry; apply orb_false_intro; apply Nat.eqb_neq; assumption).
  split; [unfold newIndex; nat_cases|apply unshift_newIndex; assumption].
Qed.

Lemma newNode_merged k : k = a \/ k = b -> newNode k = numNodes g - 2.
Proof.
  intros [->| ->]; unfold newNode; rewrite Nat.eqb_refl;
    [reflexivity|rewrite orb_true_r; reflexivity].
Qed.

Lemma newNode_oldNode k :
  k < numNodes g - 1 -> oldNode k < numNodes g /\ newNode (oldNode k) = k.
Proof.
  intros H. unfold oldNode. destruct (Nat.eqb_spec k (numNodes g - 2)) as [->|Hne].
  - split; [lia|]. apply newNode_merged. left. reflexivity.
  - destruct (unshift_survivor a b k a_b) as [Ha Hb].
    assert (Hlt : unshift a b k < numNodes g) by (unfold unshift; nat_cases).
    split; [exact Hlt|]. unfold newNode.
    replace ((unshift a b k =? a) || (unshift a b k =? b)) with false
      by (symmetry; apply orb_false_intro; apply Nat.eqb_neq; assumption).
    apply newIndex_unshift, a_b.
Qed.

Lemma newNode_same x y :
  x < numNodes g -> y < numNodes g -> newNode x = newNode y ->
  x = y \/ (x = a \/ x = b) /\ (y = a \/ y = b).
Proof.
  intros Hx Hy H.
  destruct (Nat.eq_dec x a) as [Hxa|Hxa], (Nat.eq_dec y a) as [Hya|Hya];
    try (right; split; left; assumption).
  - destruct (Nat.eq_dec y b) as [Hyb|Hyb]; [right; split; [left|right]; assumption|].
    exfalso. rewrite (newNode_merged x (or_introl Hxa)) in H.
    destruct (newNode_survivor y Hy Hya Hyb) as [Hlt _]. lia.
  - destruct (Nat.eq_dec x b) as [Hxb|Hxb]; [right; split; [right|left]; assumption|].
    exfalso. rewrite (newNode_merged y (or_introl Hya)) in H.
    destruct (newNode_survivor x Hx Hxa Hxb) as [Hlt _]. lia.
  - destruct (Nat.eq_dec x b) as [Hxb|Hxb], (Nat.eq_dec y b) as [Hyb|Hyb].
    + right. split; right; assumption.
    + exfalso. rewrite (newNode_merged x (or_intror Hxb)) in H.
      destruct (newNode_survivor y Hy Hya Hyb) as [Hlt _]. lia.
    + exfalso. rewrite (newNode_merged y (or_intror Hyb)) in H.
      destruct (newNode_survivor x Hx Hxa Hxb) as [Hlt _]. lia.
    + left. destruct (newNode_survivor x Hx Hxa Hxb) as [_ <-].
      destruct (newNode_survivor y Hy Hya Hyb) as [_ <-].
      rewrite H. reflexivity.
Qed.

(** The transfer edges of the merged graph. *)
Lemma merged_transfer_below u v :
  v < u -> u < numNodes g - 1 ->
  transferBetween mergedGraph u v =
    if u =? numNodes g - 2
    then transferBetween g a (unshift a b v) || transferBetween g b (unshift a b v)
    else transferBetween g (unshift a b u) (unshift a b v).
Proof.
  intros Hvu Hu. unfold transferBetween at 1. unfold relation, mergedGraph. cbn [G].
  replace (v <? u) with true by (symmetry; apply Nat.ltb_lt; exact Hvu).
  change (cell_at (nth u (mergedMatrix a b (G g)) []) v)
    with (cellOf (mergedMatrix a b (G g)) u v).
  rewrite (mergedMatrix_cell a b (G g) a_b).
  assert (Hv' : unshift a b v < unshift a b u) by (apply unshift_lt; assumption).
  destruct (Nat.eqb_spec u (numNodes g - 2)) as [->|Hne].
  - replace (unshift a b (numNodes g - 2)) with (length (G g))
      by (unfold unshift; rewrite <- nodes_rows; nat_cases).
    rewrite unionRow_cell; [|exact a_b|lia|].
    + apply is_transfer_unionOf.
    + unfold unshift. rewrite <- nodes_rows. nat_cases.
  - assert (Hu' : unshift a b u < length (G g))
      by (unfold unshift; rewrite <- nodes_rows; nat_cases).
    unfold cellOf. rewrite app_nth1 by exact Hu'.
    unfold transferBetween, relation.
    replace (unshift a b v <? unshift a b u) with true
      by (symmetry; apply Nat.ltb_lt; exact Hv').
    reflexivity.
Qed.

Lemma edge_preserved_below v w :
  v < numNodes g -> w < numNodes g -> transferBetween g v w = true ->
  newNode w < newNode v ->
  transferBetween mergedGraph (newNode v) (newNode w) = true.
Proof.
  intros Hv Hw Ht Hlt.
  rewrite (merged_transfer_below _ _ Hlt (newNode_lt v Hv)).
  assert (Hw' := newNode_lt w Hw).
  assert (Hwa : w <> a /\ w <> b).
  { split; intros ->.
    - rewrite (newNode_merged a (or_introl eq_refl)) in Hlt.
      assert (H := newNode_lt v Hv). lia.
    - rewrite (newNode_merged b (or_intror eq_refl)) in Hlt.
      assert (H := newNode_lt v Hv). lia. }
  destruct (newNode_survivor w Hw (proj1 Hwa) (proj2 Hwa)) as [Hwlt Ew].
  rewrite Ew.
  destruct (Nat.eqb_spec (newNode v) (numNodes g - 2)) as [E|Hne].
  - destruct (Nat.eq_dec v a) as [->|Hva]; [rewrite Ht; reflexivity|].
    destruct (Nat.eq_dec v b) as [->|Hvb]; [rewrite Ht; apply orb_true_r|].
    destruct (newNode_survivor v Hv Hva Hvb) as [Hvlt _]. lia.
  - destruct (Nat.eq_dec v a) as [->|Hva];
      [rewrite (newNode_merged a (or_introl eq_refl)) in Hne; congruence|].
    destruct (Nat.eq_dec v b) as [->|Hvb];
      [rewrite (newNode_merged b (or_intror eq_refl)) in Hne; congruence|].
    destruct (newNode_survivor v Hv Hva Hvb) as [_ ->]. exact Ht.
Qed.

Lemma edge_preserved v w :
  v < numNodes g -> w < numNodes g -> transferBetween g v w = true ->
  newNode v = newNode w \/ transferBetween mergedGraph (newNode v) (newNode w) = true.
Proof.
  intros Hv Hw Ht.
  destruct (Nat.lt_trichotomy (newNode v) (newNode w)) as [H|[H|H]].
  - right. rewrite (transferBetween_sym mergedGraph).
    apply edge_preserved_below; [exact Hw|exact Hv| |exact H].
    rewrite (transferBetween_sym g). exact Ht.
  - left. exact H.
  - right. apply edge_preserved_below; assumption.
Qed.

Lemma merged_pair_connected x y :
  (x = a \/ x = b) -> (y = a \/ y = b) -> connected (transferGraphOf g) x y.
Proof.
  assert (Hab := transfer_step g wf nodes_rows a b a_b_transfer).
  assert (Hba : connected (transferGraphOf g) b a).
  { apply (transfer_step g wf nodes_rows).
    rewrite (transferBetween_sym g). exact a_b_transfer. }
  intros [->| ->] [->| ->]; try assumption; constructor.
Qed.

Lemma edge_reflected_below v w :
  v < numNodes g -> w < numNodes g ->
  newNode w < newNode v ->
  transferBetween mergedGraph (newNode v) (newNode w) = true ->
  connected (transferGraphOf g) v w.
Proof.
  intros Hv Hw Hlt Ht.
  rewrite (merged_transfer_below _ _ Hlt (newNode_lt v Hv)) in Ht.
  assert (Hwa : w <> a /\ w <> b).
  { split; intros ->.
    - rewrite (newNode_merged a (or_introl eq_refl)) in Hlt.
      assert (H := newNode_lt v Hv). lia.
    - rewrite (newNode_merged b (or_intror eq_refl)) in Hlt.
      assert (H := newNode_lt v Hv). lia. }
  destruct (newNode_survivor w Hw (proj1 Hwa) (proj2 Hwa)) as [Hwlt Ew].
  rewrite Ew in Ht.
  destruct (Nat.eqb_spec (newNode v) (numNodes g - 2)) as [E|Hne].
  - assert (Hva : v = a \/ v = b).
    { destruct (Nat.eq_dec v a) as [|Hva]; [left; assumption|].
      destruct (Nat.eq_dec v b) as [|Hvb]; [right; assumption|].
      destruct (newNode_survivor v Hv Hva Hvb) as [Hvlt _]. lia. }
    apply orb_prop in Ht. destruct Ht as [Ht|Ht].
    + apply (connected_trans _ v a w);
        [apply merged_pair_connected; [exact Hva|left; reflexivity]|].
      apply (transfer_step g wf nodes_rows), Ht.
    + apply (connected_trans _ v b w);
        [apply merged_pair_connected; [exact Hva|right; reflexivity]|].
      apply (transfer_step g wf nodes_rows), Ht.
  - destruct (Nat.eq_dec v a) as [->|Hva];
      [rewrite (newNode_merged a (or_introl eq_refl)) in Hne; congruence|].
    destruct (Nat.eq_dec v b) as [->|Hvb];
      [rewrite (newNode_merged b (or_intror eq_refl)) in Hne; congruence|].
    destruct (newNode_survivor v Hv Hva Hvb) as [_ Ev]. rewrite Ev in Ht.
    apply (transfer_step g wf nodes_rows), Ht.
Qed.

Lemma edge_reflected v w :
  v < numNodes g -> w < numNodes g ->
  transferBetween mergedGraph (newNode v) (newNode w) = true ->
  connected (transferGraphOf g) v w.
Proof.
  intros Hv Hw Ht.
  destruct (Nat.lt_trichotomy (newNode v) (newNode w)) as [H|[H|H]].
  - apply connected_sym; [exact Hw|].
    apply edge_reflected_below; [exact Hw|exact Hv|exact H|].
    rewrite (transferBetween_sym mergedGraph). exact Ht.
  - rewrite H, transferBetween_irrefl in Ht. discriminate Ht.
  - apply edge_reflected_below; assumption.
Qed.

Lemma connected_preserved x y :
  x < numNodes g -> connected (transferGraphOf g) x y ->
  connected (transferGraphOf mergedGraph) (newNode x) (newNode y).
Proof.
  intros Hx Hc. induction Hc as [|v w Hxv IH Hn]; [constructor|].
  apply (neighbour_transfer g wf nodes_rows) in Hn. destruct Hn as [Hw Ht].
  assert (Hv := connected_lt (transferGraphOf g) x v Hx Hxv).
  change (numNodes (transferGraphOf g)) with (numNodes g) in Hv.
  destruct (edge_preserved v w Hv Hw Ht) as [E|E].
  - rewrite <- E. exact IH.
  - apply (connected_step _ _ (newNode v) (newNode w) IH).
    apply (neighbour_transfer mergedGraph mergedGraph_wf mergedGraph_rows).
    split; [apply newNode_lt, Hw|exact E].
Qed.

Lemma connected_reflected x' y' :
  connected (transferGraphOf mergedGraph) x' y' ->
  x' < numNodes g - 1 ->
  forall x y, x < numNodes g -> y < numNodes g ->
    newNode x = x' -> newNode y = y' ->
    connected (transferGraphOf g) x y.
Proof.
  intros Hc Hx'. induction Hc as [|v' w' Hxv IH Hn]; intros x y Hx Hy Ex Ey.
  - destruct (newNode_same x y Hx Hy ltac:(congruence)) as [->|[H1 H2]];
      [constructor|apply merged_pair_connected; assumption].
  - apply (neighbour_transfer mergedGraph mergedGraph_wf mergedGraph_rows) in Hn.
    destruct Hn as [Hw' Ht].
    assert (Hv' : v' < numNodes g - 1).
    { apply (connected_lt (transferGraphOf mergedGraph) x' v'); [exact Hx'|exact Hxv]. }
    destruct (newNode_oldNode v' Hv') as [Hv Ev].
    apply (connected_trans _ x (oldNode v') y); [apply IH; assumption|].
    apply edge_reflected; [exact Hv|exact Hy|]. rewrite Ev, Ey. exact Ht.
Qed.

Lemma Representatives_merge reps :
  Representatives g reps ->
  Representatives mergedGraph (map newNode reps) /\
  length (map newNode reps) = length reps.
Proof.
  intros (Hnd & Hlt & Hcover & Hsep). split; [|apply length_map].
  split; [|split; [|split]].
  - apply NoDup_map_NoDup_ForallPairs; [|exact Hnd].
    intros s1 s2 H1 H2 E.
    destruct (newNode_same s1 s2 (Hlt s1 H1) (Hlt s2 H2) E) as [|[Ha Hb]];
      [assumption|].
    apply (Hsep s1 s2 H1 H2). apply merged_pair_connected; assumption.
  - intros s' Hs'. apply in_map_iff in Hs'. destruct Hs' as (s & <- & Hs).
    apply newNode_lt, Hlt, Hs.
  - intros v' Hv'. change (numNodes mergedGraph) with (numNodes g - 1) in Hv'.
    destruct (newNode_oldNode v' Hv') as [Hv Ev].
    destruct (Hcover (oldNode v') Hv) as (s & Hs & Hc).
    exists (newNode s). split; [apply in_map, Hs|].
    rewrite <- Ev. apply connected_preserved; [apply Hlt, Hs|exact Hc].
  - intros s1' s2' H1 H2 Hc.
    apply in_map_iff in H1. destruct H1 as (s1 & <- & H1).
    apply in_map_iff in H2. destruct H2 as (s2 & <- & H2).
    f_equal. apply (Hsep s1 s2 H1 H2).
    apply (connected_reflected (newNode s1) (newNode s2) Hc);
      [apply newNode_lt, Hlt, H1|apply Hlt, H1|apply Hlt, H2|reflexivity|reflexivity].
Qed.

End MergeKeepsRepresentatives.

Section MergeLoopRepresentatives.
Context {Stop : Type}.
Variable mergeWith : Stop -> Stop -> Stop.

Lemma mergeLoop_representatives fuel :
  forall (g g' : TransitGraph (Stop := Stop)) reps,
  well_formed (G g) = true ->
  numNodes g = length (G g) ->
  length (G g) <= length (stops g) ->
  numNodes g < fuel ->
  mergeLoop mergeWith fuel g = Ok g' ->
  Representatives g reps ->
  exists reps', Representatives g' reps' /\ length reps' = length reps.
Proof.
  induction fuel as [|fuel IH]; intros g g' reps wf Hrows Hstops Hfuel E Hreps;
    [lia|].
  cbn [mergeLoop] in E.
  destruct (getTransferEdges g) as [|e l] eqn:Et.
  - simpl in E. inversion E; subst g'. exists reps. split; [exact Hreps|reflexivity].
  - cbn [length Nat.ltb Nat.leb] in E.
    destruct (mergeStep_general mergeWith g wf Hrows Hstops
                ltac:(rewrite Et; discriminate) (S fuel) Hfuel)
      as (a & b & stopA & stopB & Hab & Hb & Ht & _ & _ & EA & EB & Estep).
    rewrite Estep in E. cbn [bind] in E.
    set (ss' := deleteBoth a b (stops g ++ [mergeWith stopA stopB])) in *.
    change (mkGraph (numNodes g - 1) (mergedMatrix a b (G g)) ss')
      with (mergedGraph g a b ss') in E.
    destruct (Representatives_merge g wf Hrows a b ss' Hab Hb Ht reps Hreps)
      as [Hreps1 Hlen1].
    assert (Hrows1 := mergedGraph_rows g Hrows a b ss' Hab Hb).
    destruct (IH (mergedGraph g a b ss') g' (map (newNode g a b) reps))
      as (reps' & Hreps' & Hlen'); try assumption.
    + apply (mergedGraph_wf g wf Hrows a b ss' Hab Hb).
    + rewrite <- Hrows1. cbn [numNodes stops mergedGraph]. unfold ss'.
      rewrite length_deleteBoth by exact Hab. rewrite length_app. simpl.
      replace (a <? length (stops g) + 1) with true
        by (symmetry; apply Nat.ltb_lt; lia).
      replace (b <? length (stops g) + 1) with true
        by (symmetry; apply Nat.ltb_lt; lia).
      lia.
    + cbn [numNodes mergedGraph]. lia.
    + exists reps'. split; [exact Hreps'|]. rewrite Hlen'. exact Hlen1.
Qed.

End MergeLoopRepresentatives.

(** X16: on a graph with transfer edges, [mergeTransferNodes] returns a
    graph with exactly one node for each grouping that the searches find
    in the transfer graph of the graph it was given: every set of nodes
    that transfer edges connect has become one node. *)
Theorem mergeTransferNodes_one_node_per_grouping {Stop : Type}
    (mergeWith : Stop -> Stop -> Stop) (g : TransitGraph (Stop := Stop))
    (fuel : nat) :
  well_formed (G g) = true ->
  numNodes g = length (G g) ->
  length (G g) <= length (stops g) ->
  getTransferEdges g <> [] ->
  numNodes g < fuel ->
  exists groups g',
    nodeGroupingsOf fuel (transferGraphOf g) = Ok groups /\
    mergeTransferNodes mergeWith fuel g = Ok (Some g') /\
    getTransferEdges g' = [] /\
    numNodes g' = length groups.
Proof.
  intros wf Hrows Hstops Hsome Hfuel.
  destruct (nodeGroupings_representatives g wf Hrows fuel Hfuel)
    as (groups & reps & Egroups & Hreps & Hlen).
  destruct (mergeLoop_general mergeWith fuel g wf Hrows Hstops Hfuel)
    as (g' & E & wf' & Hrows' & Hnone & _).
  destruct (mergeLoop_representatives mergeWith fuel g g' reps wf Hrows Hstops
              Hfuel E Hreps) as (reps' & Hreps' & Hlen').
  exists groups, g'. split; [exact Egroups|]. split.
  - unfold mergeTransferNodes.
    destruct (getTransferEdges g) as [|e l] eqn:Et; [congruence|].
    cbn [length Nat.eqb]. rewrite E. reflexivity.
  - split; [exact Hnone|].
    rewrite <- (Representatives_no_transfer g' wf' Hrows' reps' Hnone Hreps').
    congruence.
Qed.

Lemma mergeTransferNodes_one_node_per_grouping_witness :
  exists groups g',
    nodeGroupingsOf 7 (transferGraphOf sixStops) = Ok groups /\
    mergeTransferNodes Nat.add 7 sixStops = Ok (Some g') /\
    getTransferEdges g' = [] /\
    numNodes g' = length groups.
Proof.
  apply (mergeTransferNodes_one_node_per_grouping Nat.add sixStops 7).
  - reflexivity.
  - reflexivity.
  - vm_compute. lia.
  - vm_compute. discriminate.
  - vm_compute. lia.
Defined.

(* ------------------------------------------------------------------ *)
(** ** The rank display: finding a stop and ordering the stops *)

Section RankDisplayFacts.
Context {Stop Id : Type}.
Variable id : Stop -> Id.
Variable Id_eqb : Id -> Id -> bool.

Lemma lookup_is_find (stops : list Stop) (stopId : Id) :
  match indexOf Id_eqb (map id stops) stopId with
  | Some i => nth_error stops i
  | None => None
  end = find (fun stop => Id_eqb (id stop) stopId) stops.
Proof.
  induction stops as [|s stops IH]; [reflexivity|]. simpl.
  destruct (Id_eqb (id s) stopId); [reflexivity|].
  rewrite <- IH. destruct (indexOf Id_eqb (map id stops) stopId); reflexivity.
Qed.







End RankDisplayFacts.



(** X17: [_lookupStop] throws while the stops have not arrived; once
    they have, it returns the first stop whose [id] is the one asked for
    and [undefined] when no stop has it, so that with distinct ids every
    stop is found under its own id. *)
Theorem lookupStop_returns_first_match {Stop Id : Type} (id : Stop -> Id)
    (Id_eqb : Id -> Id -> bool) (stops : list Stop) (stopId : Id) :
  (forall x y, Id_eqb x y = true <-> x = y) ->
  _lookupStop id Id_eqb None stopId = TypeError /\
  _lookupStop id Id_eqb (Some stops) stopId =
    Ok (find (fun stop => Id_eqb (id stop) stopId) stops) /\
  (_lookupStop id Id_eqb (Some stops) stopId = Ok None <->
   forall stop, In stop stops -> id stop <> stopId) /\
  (NoDup (map id stops) ->
   forall stop, In stop stops ->
     _lookupStop id Id_eqb (Some stops) (id stop) = Ok (Some stop)).
Proof.
  intros Heq.
  assert (Hfind : forall x, _lookupStop id Id_eqb (Some stops) x =
                            Ok (find (fun stop => Id_eqb (id stop) x) stops)).
  { intros x. unfold _lookupStop. rewrite <- (lookup_is_find id Id_eqb stops x).
    destruct (indexOf Id_eqb (map id stops) x); reflexivity. }
  split; [reflexivity|]. split; [apply Hfind|]. split.
  - rewrite Hfind. split.
    + intros H stop Hin E. inversion H as [Hnone].
      assert (Hf := find_none _ _ Hnone stop Hin). cbn beta in Hf.
      apply Heq in E. congruence.
    + intros H. f_equal.
      destruct (find (fun stop => Id_eqb (id stop) stopId) stops) as [s|] eqn:E;
        [|reflexivity].
      apply find_some in E. destruct E as [Hin E]. apply Heq in E.
      exfalso. exact (H s Hin E).
  - intros Hnd stop Hin. rewrite Hfind. f_equal.
    induction stops as [|s stops' IH]; [contradiction|]. simpl.
    inversion Hnd as [|? ? Hnotin Hnd']; subst.
    destruct Hin as [->|Hin].
    + replace (Id_eqb (id stop) (id stop)) with true
        by (symmetry; apply Heq; reflexivity).
      reflexivity.
    + destruct (Id_eqb (id s) (id stop)) eqn:E.
      * exfalso. apply Heq in E. apply Hnotin. rewrite E. apply in_map, Hin.
      * apply IH; [|exact Hnd'|exact Hin].
        intros x. unfold _lookupStop.
        rewrite <- (lookup_is_find id Id_eqb stops' x).
        destruct (indexOf Id_eqb (map id stops') x); reflexivity.
Qed.

Lemma lookupStop_returns_first_match_witness :
  _lookupStop (@fst nat nat) Nat.eqb None 7 = TypeError /\
  _lookupStop (@fst nat nat) Nat.eqb (Some [(4, 0); (7, 1); (7, 2)]) 7 =
    Ok (find (fun stop => Nat.eqb (fst stop) 7) [(4, 0); (7, 1); (7, 2)]) /\
  (_lookupStop (@fst nat nat) Nat.eqb (Some [(4, 0); (7, 1); (7, 2)]) 7 = Ok None <->
   forall stop, In stop [(4, 0); (7, 1); (7, 2)] -> fst stop <> 7) /\
  (NoDup (map fst [(4, 0); (7, 1); (7, 2)]) ->
   forall stop, In stop [(4, 0); (7, 1); (7, 2)] ->
     _lookupStop (@fst nat nat) Nat.eqb (Some [(4, 0); (7, 1); (7, 2)]) (fst stop) =
       Ok (Some stop)).
Proof.
  apply (lookupStop_returns_first_match (@fst nat nat) Nat.eqb [(4, 0); (7, 1); (7, 2)] 7).
  apply Nat.eqb_eq.
Defined.



(** X19: with more ranks than stops, or with ranks while the stops
    have not arrived, [_orderStopsByRank] throws: the stop of some ranked
    node is [undefined] when its rank is written to it. *)
Theorem orderStopsByRank_missing_stop {Stop : Type} (stops : list Stop)
    (ranks : list Q) :
  length stops < length ranks ->
  _orderStopsByRank (Some stops) ranks = TypeError /\
  _orderStopsByRank (@None (list Stop)) ranks = TypeError.
Proof.
  intros Hlen.
  assert (Hfail : forall (body : list (Stop * Q) -> nat -> result (list (Stop * Q)))
                         (bad : nat),
    bad < length ranks ->
    (forall acc, body acc bad = TypeError) ->
    (forall acc k, k < bad -> exists acc', body acc k = Ok acc') ->
    for_rangeM 0 (length ranks) body [] = TypeError).
  { intros body bad Hbad Hthrow Hok. unfold for_rangeM.
    replace (length ranks - 0) with (bad + S (length ranks - S bad)) by lia.
    rewrite seq_app, fold_left_app.
    assert (Hpre : exists acc,
      fold_left (fun acc i => s' <- acc ;; body s' i) (seq 0 bad) (Ok []) = Ok acc).
    { clear Hbad Hthrow. induction bad as [|bad IH]; [exists []; reflexivity|].
      rewrite seq_S, fold_left_app. simpl.
      destruct IH as (acc & ->); [intros a k Hk; apply Hok; lia|].
      cbn [bind]. apply Hok. lia. }
    destruct Hpre as (acc & ->). cbn [seq fold_left bind]. rewrite Hthrow.
    generalize (seq (S (0 + bad)) (length ranks - S bad)). intros l.
    induction l as [|i l IHl]; [reflexivity|exact IHl]. }
  unfold _orderStopsByRank. split.
  - rewrite (Hfail _ (length stops) Hlen); [reflexivity| |].
    + intros acc. replace (nth_error stops (length stops)) with (@None Stop);
        [reflexivity|].
      symmetry. apply nth_error_None. lia.
    + intros acc k Hk. destruct (nth_error stops k) as [stop|] eqn:Es;
        [eexists; reflexivity|].
      apply nth_error_None in Es. lia.
  - rewrite (Hfail _ 0 ltac:(lia)); [reflexivity| |].
    + reflexivity.
    + intros acc k Hk. lia.
Qed.

Lemma orderStopsByRank_missing_stop_witness :
  _orderStopsByRank (Some [10]) [1; 2]%Q = TypeError /\
  _orderStopsByRank (@None (list nat)) [1; 2]%Q = TypeError.
Proof.
  apply (orderStopsByRank_missing_stop [10] [1; 2]%Q).
  simpl. lia.
Defined.

(* ------------------------------------------------------------------ *)
(** ** Breadth-first search: the distance, in edges, of what it discovers *)

Section BfsLevels.
Context {Stop : Type}.
Variable graph : TransitGraph (Stop := Stop).
Hypothesis nodes_rows : numNodes graph = length (G graph).
Variable startingNode : nat.

(** [hops v k]: a chain of [k] edges leads from the starting node to
    [v]. *)
Inductive hops : nat -> nat -> Prop :=
| hops_start : hops startingNode 0
| hops_step v w k : hops v k -> neighbour graph v w -> hops w (S k).

(** The least number of edges from the starting node to [v]. *)
Definition hopDistance (v k : nat) : Prop :=
  hops v k /\ forall k', hops v k' -> k <= k'.

(** The state of the loop, with the number of edges [lev v] at which
    each flagged node [v] was discovered: the queue holds nodes of one
    level, followed by nodes of the next. *)
Definition LevelInv (Q : list nat) (D : list bool) (lev : nat -> nat) : Prop :=
  nth startingNode D false = true /\
  (forall v, nth v D false = true -> hopDistance v (lev v)) /\
  (exists d A B, Q = A ++ B /\
     (forall x, In x A -> lev x = d) /\ (forall x, In x B -> lev x = S d)) /\
  (forall q, In q Q -> nth q D false = true) /\
  (forall v w, nth v D false = true -> ~ In v Q -> neighbour graph v w ->
     nth w D false = true).

Lemma scan_marks node D D' :
  (forall j, j < length (G graph) ->
     nth j D' false = nth j D false || edgeExists graph node j) ->
  (forall j, length (G graph) <= j -> nth j D' false = nth j D false) ->
  forall v, nth v D' false = true <->
            nth v D false = true \/ In v (discovered graph node D).
Proof.
  intros Hlt Hge v. rewrite (In_discovered graph nodes_rows).
  unfold neighbour. rewrite nodes_rows.
  destruct (Nat.lt_ge_cases v (length (G graph))) as [Hv|Hv].
  - rewrite (Hlt v Hv). rewrite orb_true_iff.
    destruct (nth v D false); intuition congruence.
  - rewrite (Hge v Hv). intuition lia.
Qed.

(** A node that is not flagged lies, on every chain that reaches it,
    behind a node of the queue. *)
Lemma frontier Q D lev w k :
  LevelInv Q D lev -> hops w k -> nth w D false = false ->
  exists x j, In x Q /\ hops x j /\ j < k.
Proof.
  intros (Hstart & _ & _ & _ & Hclosed) Hw.
  induction Hw as [|v w k Hv IH Hn]; intros Hun; [congruence|].
  destruct (nth v D false) eqn:Ev.
  - assert (Hin : In v Q).
    { destruct (in_dec Nat.eq_dec v Q) as [|Hnot]; [assumption|].
      rewrite (Hclosed v w Ev Hnot Hn) in Hun. discriminate Hun. }
    exists v, k. split; [exact Hin|]. split; [exact Hv|lia].
  - destruct (IH eq_refl) as (x & j & Hx & Hj & Hlt).
    exists x, j. split; [exact Hx|]. split; [exact Hj|lia].
Qed.

Lemma head_is_lowest node Q D lev :
  LevelInv (node :: Q) D lev -> forall x, In x (node :: Q) -> lev node <= lev x.
Proof.
  intros (_ & _ & (d & A & B & E & HA & HB) & _) x Hx.
  destruct A as [|a A]; simpl in E.
  - subst B. rewrite (HB node (or_introl eq_refl)), (HB x Hx). lia.
  - inversion E; subst a Q.
    rewrite (HA node (or_introl eq_refl)).
    destruct Hx as [<-|Hx]; [rewrite (HA node (or_introl eq_refl)); lia|].
    apply in_app_iff in Hx. destruct Hx as [Hx|Hx].
    + rewrite (HA x (or_intror Hx)). lia.
    + rewrite (HB x Hx). lia.
Qed.

Lemma LevelInv_scan node Q D D' lev :
  LevelInv (node :: Q) D lev ->
  (forall v, nth v D' false = true <->
             nth v D false = true \/ In v (discovered graph node D)) ->
  hopDistance node (lev node) /\
  (forall i, In i (discovered graph node D) -> hopDistance i (S (lev node))) /\
  LevelInv (Q ++ discovered graph node D) D'
    (fun v => if existsb (Nat.eqb v) (discovered graph node D)
              then S (lev node) else lev v).
Proof.
  intros HI HD'.
  assert (Hlow := head_is_lowest node Q D lev HI).
  assert (Hfront := fun w k => frontier (node :: Q) D lev w k HI).
  destruct HI as (Hstart & Hlev & (d & A & B & E & HA & HB) & HQ & Hclosed).
  assert (Hnode : nth node D false = true) by (apply HQ; left; reflexivity).
  assert (Hdist := Hlev node Hnode).
  assert (Hnew : forall i, In i (discovered graph node D) ->
                           hopDistance i (S (lev node))).
  { intros i Hi. apply (In_discovered graph nodes_rows) in Hi.
    destruct Hi as [Hn Hun]. split.
    - apply (hops_step node i _ (proj1 Hdist) Hn).
    - intros k' Hk'. destruct (Hfront i k' Hk' Hun) as (x & j & Hx & Hj & Hlt).
      assert (Hx' := proj2 (Hlev x (HQ x Hx)) j Hj).
      specialize (Hlow x Hx). lia. }
  split; [exact Hdist|]. split; [exact Hnew|].
  set (lev' := fun v => if existsb (Nat.eqb v) (discovered graph node D)
                        then S (lev node) else lev v).
  assert (Hlev_new : forall i, In i (discovered graph node D) -> lev' i = S (lev node)).
  { intros i Hi. unfold lev'.
    replace (existsb (Nat.eqb i) (discovered graph node D)) with true; [reflexivity|].
    symmetry. apply existsb_exists. exists i. split; [exact Hi|apply Nat.eqb_refl]. }
  assert (Hlev_old : forall v, nth v D false = true -> lev' v = lev v).
  { intros v Hv. unfold lev'.
    destruct (existsb (Nat.eqb v) (discovered graph node D)) eqn:Ex; [|reflexivity].
    apply existsb_exists in Ex. destruct Ex as (i & Hi & Ee).
    apply Nat.eqb_eq in Ee. subst i.
    apply (In_discovered graph nodes_rows) in Hi. destruct Hi as [_ Hi]. congruence. }
  split; [apply HD'; left; exact Hstart|].
  split.
  { intros v Hv. apply HD' in Hv. destruct Hv as [Hv|Hv].
    - rewrite (Hlev_old v Hv). apply Hlev, Hv.
    - rewrite (Hlev_new v Hv). apply Hnew, Hv. }
  split.
  { destruct A as [|a A]; simpl in E.
    - (* the queue held one level only *)
      subst B. exists (S d), Q, (discovered graph node D).
      split; [reflexivity|]. split.
      + intros x Hx. rewrite (Hlev_old x (HQ x (or_intror Hx))).
        apply HB. right. exact Hx.
      + intros x Hx. rewrite (Hlev_new x Hx).
        rewrite (HB node (or_introl eq_refl)). reflexivity.
    - inversion E; subst a Q.
      exists d, A, (B ++ discovered graph node D).
      split; [symmetry; apply app_assoc|]. split.
      + intros x Hx.
        rewrite (Hlev_old x (HQ x (or_intror (in_or_app _ _ _ (or_introl Hx))))).
        apply HA. right. exact Hx.
      + intros x Hx. apply in_app_iff in Hx. destruct Hx as [Hx|Hx].
        * rewrite (Hlev_old x (HQ x (or_intror (in_or_app _ _ _ (or_intror Hx))))).
          apply HB, Hx.
        * rewrite (Hlev_new x Hx), (HA node (or_introl eq_refl)). reflexivity. }
  split.
  { intros q Hq. apply HD'. apply in_app_iff in Hq.
    destruct Hq as [Hq|Hq]; [left; apply HQ; right; exact Hq|right; exact Hq]. }
  intros v w Hv Hq Hn. apply HD'.
  apply HD' in Hv. destruct Hv as [Hv|Hv];
    [|exfalso; apply Hq, in_app_iff; right; exact Hv].
  destruct (Nat.eq_dec v node) as [->|Hne].
  - destruct (nth w D false) eqn:Ew; [left; reflexivity|].
    right. apply (In_discovered graph nodes_rows). split; assumption.
  - left. apply (Hclosed v w Hv); [|exact Hn].
    intros [Heq|Hin]; [congruence|]. apply Hq, in_app_iff. left. exact Hin.
Qed.

Lemma bfsLoop_levels fuel :
  forall Q D traverser lev,
  2 * length (unseen graph D) + length Q < fuel ->
  LevelInv Q D lev ->
  exists traverser' rounds,
    bfsLoop graph fuel (Q, D, traverser) = Ok traverser' /\
    events traverser' =
      events traverser ++ runEvents graph rounds ++
      [EvSummary (stationsVisited (length (visitedNodes traverser')))] /\
    Forall (fun r => exists k,
              hopDistance (fst r) k /\
              forall i, In i (snd r) -> hopDistance i (S k)) rounds.
Proof.
  induction fuel as [|fuel IH]; intros Q D traverser lev Hfuel HI; [lia|].
  destruct Q as [|node Q'].
  - exists (summary (stationsVisited (length (visitedNodes traverser))) traverser), [].
    simpl. split; [reflexivity|]. split; [reflexivity|constructor].
  - simpl bfsLoop.
    destruct (bfsScan_spec graph node Q' D traverser) as (D' & t' & E & HE & HD).
    assert (Habove := fun j => bfsScan_above graph nodes_rows node Q' D traverser j).
    rewrite E in Habove. cbn [fst snd] in Habove. rewrite E.
    assert (Hm := bfsScan_measure graph node D D' HD).
    destruct (LevelInv_scan node Q' D D' lev HI (scan_marks node D D' HD Habove))
      as (Hnode & Hnew & HI').
    destruct (IH (Q' ++ discovered graph node D) D' t' _
                 ltac:(rewrite length_app; simpl in Hfuel; lia) HI')
      as (t'' & rounds & E' & HE' & HF).
    exists t'', ((node, discovered graph node D) :: rounds).
    split; [exact E'|]. split.
    + rewrite HE', HE. unfold runEvents. simpl. rewrite <- !app_assoc. reflexivity.
    + constructor; [|exact HF]. exists (lev node). split; assumption.
Qed.

End BfsLevels.

(** X20: the edges a breadth-first search reports lead from a node to
    a node one edge farther from the starting node: when the scan of a
    node discovers a neighbour, the least number of edges from the
    starting node to the neighbour is one more than the least number to
    the scanned node. *)
Theorem bfs_discovers_at_hop_distance {Stop : Type}
    (graph : TransitGraph (Stop := Stop)) (fuel startingNode : nat)
    (traverser : Traverser) :
  numNodes graph = length (G graph) ->
  2 * length (G graph) + 2 <= fuel ->
  exists traverser' rounds,
    bfs graph fuel startingNode traverser = Ok traverser' /\
    events traverser' =
      events traverser ++ [EvVisitNode startingNode] ++
      flat_map (fun r =>
        flat_map (fun i => [EvVisit (createEdge graph (fst r) i); EvVisitNode (fst r)])
                 (snd r)) rounds ++
      [EvSummary (stationsVisited (length (visitedNodes traverser')))] /\
    Forall (fun r => exists k,
              hopDistance graph startingNode (fst r) k /\
              forall i, In i (snd r) ->
                hopDistance graph startingNode i (S k)) rounds.
Proof.
  intros Hrows Hfuel. unfold bfs.
  set (D := array_set false (repeat false (numNodes graph)) startingNode true).
  assert (HD : forall v, nth v D false = true <-> v = startingNode).
  { intros v. unfold D. rewrite marked_array_set, nth_repeat. intuition congruence. }
  destruct (bfsLoop_levels graph Hrows startingNode fuel (push [] startingNode) D
              (visitNode startingNode traverser) (fun _ => 0))
    as (t' & rounds & E & HE & HF).
  { unfold unseen. simpl.
    assert (H := filter_length_le (fun i => negb (nth i D false))
                                  (seq 0 (length (G graph)))).
    rewrite length_seq in H. lia. }
  { split; [apply HD; reflexivity|]. split.
    { intros v Hv. apply HD in Hv. subst v. split; [constructor|intros; lia]. }
    split.
    { exists 0, [startingNode], []. split; [reflexivity|].
      split; [reflexivity|intros x []]. }
    split.
    - intros q [<-|[]]. apply HD. reflexivity.
    - intros v w Hv Hq. exfalso. apply Hq. left. symmetry. apply HD, Hv. }
  exists t', rounds. split; [exact E|]. split; [|exact HF].
  rewrite HE. simpl. unfold push. rewrite <- app_assoc. reflexivity.
Qed.

Lemma bfs_discovers_at_hop_distance_witness :
  exists traverser' rounds,
    bfs lonerAndLine 10 1 BasicTraverser = Ok traverser' /\
    events traverser' =
      events BasicTraverser ++ [EvVisitNode 1] ++
      flat_map (fun r =>
        flat_map (fun i => [EvVisit (createEdge lonerAndLine (fst r) i);
                            EvVisitNode (fst r)])
                 (snd r)) rounds ++
      [EvSummary (stationsVisited (length (visitedNodes traverser')))] /\
    Forall (fun r => exists k,
              hopDistance lonerAndLine 1 (fst r) k /\
              forall i, In i (snd r) ->
                hopDistance lonerAndLine 1 i (S k)) rounds.
Proof.
  apply (bfs_discovers_at_hop_distance lonerAndLine 10 1 BasicTraverser).
  - reflexivity.
  - vm_compute. lia.
Defined.

(* ------------------------------------------------------------------ *)
(** ** Page Rank reads the edges, not what they carry *)

Lemma for_range_ext {S : Type} lo hi (f f' : S -> nat -> S) (s : S) :
  (forall x i, lo <= i < hi -> f x i = f' x i) ->
  for_range lo hi f s = for_range lo hi f' s.
Proof.
  intros H. unfold for_range.
  assert (Hin : forall i, In i (seq lo (hi - lo)) -> lo <= i < hi)
    by (intros i Hi; apply in_seq in Hi; lia).
  revert s Hin. generalize (seq lo (hi - lo)). intros l.
  induction l as [|i l IH]; intros s Hin; [reflexivity|]. simpl.
  rewrite (H s i (Hin i (or_introl eq_refl))).
  apply IH. intros j Hj. apply Hin. right. exact Hj.
Qed.

(** X21: the ranks [pageRank] reports depend on the graph only through
    its number of nodes and through which pairs of nodes have an edge:
    two graphs that agree on these, whatever the types and weights of
    their edges and whatever their stops, get the same ranks.  The
    weight -1 that a merge writes is never read. *)
Theorem pageRank_reads_adjacency_only {Stop Stop' : Type}
    (g : TransitGraph (Stop := Stop)) (g' : TransitGraph (Stop := Stop'))
    (traverser : Traverser) :
  graph_length g = graph_length g' ->
  (forall i j, i < graph_length g -> j < graph_length g ->
     edgeExists g i j = edgeExists g' i j) ->
  pageRank g traverser = pageRank g' traverser.
Proof.
  intros HN Hedge.
  assert (Hout : outgoingEdgeCounts g = outgoingEdgeCounts g').
  { unfold outgoingEdgeCounts. rewrite !countOutgoingEdges_eq, <- HN.
    apply map_ext_in. intros i Hi. apply in_seq in Hi. f_equal.
    apply filter_ext_in. intros j Hj. apply in_seq in Hj. apply Hedge; lia. }
  assert (Hinc : incomingNodes g = incomingNodes g').
  { unfold incomingNodes.
    destruct (countIncomingEdges_spec g) as [Hl Hn].
    destruct (countIncomingEdges_spec g') as [Hl' Hn'].
    apply (nth_ext _ _ [] []); [congruence|].
    intros j Hj. rewrite Hl in Hj.
    rewrite (Hn j Hj), (Hn' j ltac:(lia)), <- HN.
    apply filter_ext_in. intros i Hi. apply in_seq in Hi. apply Hedge; lia. }
  assert (Hupd : forall ranks node, updateRank g ranks node = updateRank g' ranks node).
  { intros ranks node. unfold updateRank, divisions. rewrite Hout, Hinc, HN.
    reflexivity. }
  assert (Hsweep : forall ranks, sweep g ranks = sweep g' ranks).
  { intros ranks. unfold sweep. rewrite <- HN. apply for_range_ext.
    intros x i _. rewrite Hupd. reflexivity. }
  unfold pageRank, propagate. rewrite <- HN.
  assert (Hiter : forall n ranks,
            Nat.iter n (sweep g) ranks = Nat.iter n (sweep g') ranks).
  { intros n ranks. induction n as [|n IH]; [reflexivity|]. simpl.
    rewrite IH. apply Hsweep. }
  rewrite Hiter. reflexivity.
Qed.

(** The line of [path3] with other weights, a transfer in place of a
    route, and other stops. *)
Definition path3Transfer : TransitGraph (Stop := bool) :=
  newTransitGraph [mkEdge transfer 0 1 (-1); mkEdge route 1 2 40] 3
                  [true; false; true].

Lemma pageRank_reads_adjacency_only_witness :
  pageRank path3 BasicTraverser = pageRank path3Transfer BasicTraverser.
Proof.
  apply (pageRank_reads_adjacency_only path3 path3Transfer BasicTraverser).
  - reflexivity.
  - intros i j Hi Hj. change (graph_length path3) with 3 in Hi, Hj.
    destruct i as [|[|[|i]]]; [| | |lia];
      (destruct j as [|[|[|j]]]; [reflexivity|reflexivity|reflexivity|lia]).
Defined.

(* ------------------------------------------------------------------ *)
(** ** Merging what has been merged *)

(** X22: the graph that [mergeTransferNodes] returns has nothing left
    to merge: called on it, [mergeTransferNodes] returns [undefined]. *)
Theorem mergeTransferNodes_of_merged_graph {Stop : Type}
    (mergeWith : Stop -> Stop -> Stop) (g : TransitGraph (Stop := Stop))
    (fuel : nat) :
  well_formed (G g) = true ->
  numNodes g = length (G g) ->
  length (G g) <= length (stops g) ->
  getTransferEdges g <> [] ->
  numNodes g < fuel ->
  exists g',
    mergeTransferNodes mergeWith fuel g = Ok (Some g') /\
    forall fuel', mergeTransferNodes mergeWith fuel' g' = Ok None.
Proof.
  intros wf Hrows Hstops Hsome Hfuel.
  destruct (mergeLoop_general mergeWith fuel g wf Hrows Hstops Hfuel)
    as (g' & E & _ & _ & Hnone & _).
  exists g'. split.
  - unfold mergeTransferNodes.
    destruct (getTransferEdges g) as [|e l] eqn:Et; [congruence|].
    cbn [length Nat.eqb]. rewrite E. reflexivity.
  - intros fuel'. unfold mergeTransferNodes. rewrite Hnone. reflexivity.
Qed.

Lemma mergeTransferNodes_of_merged_graph_witness :
  exists g',
    mergeTransferNodes Nat.add 7 sixStops = Ok (Some g') /\
    forall fuel', mergeTransferNodes Nat.add fuel' g' = Ok None.
Proof.
  apply (mergeTransferNodes_of_merged_graph Nat.add sixStops 7).
  - reflexivity.
  - reflexivity.
  - vm_compute. lia.
  - vm_compute. discriminate.
  - vm_compute. lia.
Defined.
